(** * DiceCloud: the character stat computation engine

    A shallow embedding of [buildCharacter], [computeCharacter],
    [computeStat], [computeEffect], [applyEffect], the three combiners and
    [evaluateCalculation], followed by the properties of the engine.

    Conventions of the embedding.
    - A JavaScript number is an exact rational extended with the two
      infinities and NaN ([jsnum]); rounding of binary64 and the sign of
      zero are not represented.
    - A JavaScript value held in a field that the code assigns from
      [effect.result] is a [value]: a number, a string or [undefined].
    - The objects [char.atts], [char.skills], [char.dms] and [char.classes]
      are association lists in enumeration (insertion) order; keys inherited
      from [Object.prototype] are not represented.
    - The code runs as a sloppy-mode script: [i] in [for (i in ...)] is an
      implicit global, shared by every activation of [computeStat] and
      [combineSkill]. It is a component of the [world].
    - The recursion of the engine is bounded by a fuel argument; a
      computation that exhausts every amount of fuel does not return. *)

From Stdlib Require Import ZArith QArith Qround Bool List Ascii String Lia.
From Stdlib Require Import DecimalString Permutation.
Import ListNotations.
Local Open Scope string_scope.

(** ** Numbers *)

Inductive jsnum : Type :=
  | Fin (q : Q)
  | PInf
  | NInf
  | NaN.

Definition num (z : Z) : jsnum := Fin (inject_Z z).

Definition Qsign (q : Q) : comparison := (Qnum q ?= 0)%Z.

Definition jneg (a : jsnum) : jsnum :=
  match a with
  | Fin q => Fin (Qred (- q))
  | PInf => NInf
  | NInf => PInf
  | NaN => NaN
  end.

Definition jadd (a b : jsnum) : jsnum :=
  match a, b with
  | NaN, _ | _, NaN => NaN
  | Fin x, Fin y => Fin (Qred (x + y))
  | PInf, NInf | NInf, PInf => NaN
  | PInf, _ | _, PInf => PInf
  | NInf, _ | _, NInf => NInf
  end.

Definition jsub (a b : jsnum) : jsnum := jadd a (jneg b).

(** An infinity times a finite number takes the sign of the product and is
    NaN when the finite factor is zero. *)
Definition inf_times (positive : bool) (q : Q) : jsnum :=
  match Qsign q with
  | Eq => NaN
  | Gt => if positive then PInf else NInf
  | Lt => if positive then NInf else PInf
  end.

Definition jmul (a b : jsnum) : jsnum :=
  match a, b with
  | NaN, _ | _, NaN => NaN
  | Fin x, Fin y => Fin (Qred (x * y))
  | PInf, Fin y | Fin y, PInf => inf_times true y
  | NInf, Fin y | Fin y, NInf => inf_times false y
  | PInf, PInf | NInf, NInf => PInf
  | PInf, NInf | NInf, PInf => NInf
  end.

Definition jdiv (a b : jsnum) : jsnum :=
  match a, b with
  | NaN, _ | _, NaN => NaN
  | Fin x, Fin y =>
      match Qsign y with
      | Eq => match Qsign x with Eq => NaN | Gt => PInf | Lt => NInf end
      | _ => Fin (Qred (x / y))
      end
  | Fin _, (PInf | NInf) => Fin 0
  | (PInf | NInf), (PInf | NInf) => NaN
  | PInf, Fin y => match Qsign y with Lt => NInf | _ => PInf end
  | NInf, Fin y => match Qsign y with Lt => PInf | _ => NInf end
  end.

(** [a < b]; every comparison with NaN is false. *)
Definition jlt (a b : jsnum) : bool :=
  match a, b with
  | NaN, _ | _, NaN => false
  | Fin x, Fin y => negb (Qle_bool y x)
  | NInf, NInf => false
  | NInf, _ => true
  | _, NInf => false
  | PInf, _ => false
  | Fin _, PInf => true
  end.

(** [Math.floor] *)
Definition jfloor (a : jsnum) : jsnum :=
  match a with
  | Fin q => Fin (inject_Z (Qfloor q))
  | other => other
  end.

(** [ToBoolean] of a number: zero and NaN are falsy. *)
Definition num_truthy (a : jsnum) : bool :=
  match a with
  | Fin q => match Qsign q with Eq => false | _ => true end
  | PInf | NInf => true
  | NaN => false
  end.

(** [Number.isFinite] for a number. *)
Definition num_isFinite (a : jsnum) : bool :=
  match a with Fin _ => true | _ => false end.

(** [Math.max] and [Math.min], used to say what clamping means. *)
Definition jmax (a b : jsnum) : jsnum :=
  match a, b with
  | NaN, _ | _, NaN => NaN
  | _, _ => if jlt a b then b else a
  end.

Definition jmin (a b : jsnum) : jsnum :=
  match a, b with
  | NaN, _ | _, NaN => NaN
  | _, _ => if jlt b a then b else a
  end.

Definition clamp (lo hi x : jsnum) : jsnum := jmin (jmax x lo) hi.

(** ** Values *)

Inductive value : Type :=
  | VNum (n : jsnum)
  | VStr (s : string)
  | VUndef.

(** ** The in-memory character model

    An effect as [buildCharacter] stores it: [value] is a number or absent,
    [calculation] a string or absent. *)

Module Effect.
(* the field [value] below hides the type [value] inside this module *)
Definition jsvalue : Type := value.

Record t : Type := mk {
  computed : bool;
  result : value;
  operation : string;
  value : option jsnum;
  calculation : option string;
}.

Definition set_computed (b : bool) (e : t) : t :=
  mk b (result e) (operation e) (value e) (calculation e).
Definition set_result (v : jsvalue) (e : t) : t :=
  mk (computed e) v (operation e) (value e) (calculation e).
End Effect.

(** An entry of [stat.proficiencies]; [combineSkill] reads its [value]. *)
Module Proficiency.
Record t : Type := mk { value : jsnum }.
End Proficiency.

Inductive kind : Type := attribute | skill | damageMultiplier.

(** One record for the three shapes of stat object that [buildCharacter]
    creates. [type] says which shape an object has and [has] which keys that
    shape owns; the code reads a field only behind the matching [type] or
    [_.has] test, so the fields a shape does not own are never consulted. *)
Module Stat.
Record t : Type := mk {
  type : kind;
  computed : bool;
  busyComputing : bool;
  result : value;
  effects : list Effect.t;
  (* attribute *)
  attributeType : string;
  base : value;
  decimal : bool;
  modifier : jsnum; (* [stat.mod]; [mod] is reserved *)
  (* attribute and skill *)
  add : value;
  mul : jsnum;
  min : value;
  max : value;
  (* skill *)
  ability : option string;
  proficiency : jsnum;
  advantage : nat;
  disadvantage : nat;
  passiveAdd : value;
  fail : nat;
  conditional : nat;
  proficiencies : list Proficiency.t;
  (* damage multiplier *)
  immunityCount : nat;
  ressistanceCount : nat;
  vulnerabilityCount : nat;
}.

Definition set_computed (x : bool) (s : t) : t :=
  let 'mk a _ c d e f g h i j k l m n o p q r u v w y z a' := s in
  mk a x c d e f g h i j k l m n o p q r u v w y z a'.
Definition set_busyComputing (x : bool) (s : t) : t :=
  let 'mk a b _ d e f g h i j k l m n o p q r u v w y z a' := s in
  mk a b x d e f g h i j k l m n o p q r u v w y z a'.
Definition set_result (x : value) (s : t) : t :=
  let 'mk a b c _ e f g h i j k l m n o p q r u v w y z a' := s in
  mk a b c x e f g h i j k l m n o p q r u v w y z a'.
Definition set_effects (x : list Effect.t) (s : t) : t :=
  let 'mk a b c d _ f g h i j k l m n o p q r u v w y z a' := s in
  mk a b c d x f g h i j k l m n o p q r u v w y z a'.
Definition set_base (x : value) (s : t) : t :=
  let 'mk a b c d e f _ h i j k l m n o p q r u v w y z a' := s in
  mk a b c d e f x h i j k l m n o p q r u v w y z a'.
Definition set_modifier (x : jsnum) (s : t) : t :=
  let 'mk a b c d e f g h _ j k l m n o p q r u v w y z a' := s in
  mk a b c d e f g h x j k l m n o p q r u v w y z a'.
Definition set_add (x : value) (s : t) : t :=
  let 'mk a b c d e f g h i _ k l m n o p q r u v w y z a' := s in
  mk a b c d e f g h i x k l m n o p q r u v w y z a'.
Definition set_mul (x : jsnum) (s : t) : t :=
  let 'mk a b c d e f g h i j _ l m n o p q r u v w y z a' := s in
  mk a b c d e f g h i j x l m n o p q r u v w y z a'.
Definition set_min (x : value) (s : t) : t :=
  let 'mk a b c d e f g h i j k _ m n o p q r u v w y z a' := s in
  mk a b c d e f g h i j k x m n o p q r u v w y z a'.
Definition set_max (x : value) (s : t) : t :=
  let 'mk a b c d e f g h i j k l _ n o p q r u v w y z a' := s in
  mk a b c d e f g h i j k l x n o p q r u v w y z a'.
Definition set_proficiency (x : jsnum) (s : t) : t :=
  let 'mk a b c d e f g h i j k l m n _ p q r u v w y z a' := s in
  mk a b c d e f g h i j k l m n x p q r u v w y z a'.
Definition set_advantage (x : nat) (s : t) : t :=
  let 'mk a b c d e f g h i j k l m n o _ q r u v w y z a' := s in
  mk a b c d e f g h i j k l m n o x q r u v w y z a'.
Definition set_disadvantage (x : nat) (s : t) : t :=
  let 'mk a b c d e f g h i j k l m n o p _ r u v w y z a' := s in
  mk a b c d e f g h i j k l m n o p x r u v w y z a'.
Definition set_passiveAdd (x : value) (s : t) : t :=
  let 'mk a b c d e f g h i j k l m n o p q _ u v w y z a' := s in
  mk a b c d e f g h i j k l m n o p q x u v w y z a'.
Definition set_fail (x : nat) (s : t) : t :=
  let 'mk a b c d e f g h i j k l m n o p q r _ v w y z a' := s in
  mk a b c d e f g h i j k l m n o p q r x v w y z a'.
Definition set_conditional (x : nat) (s : t) : t :=
  let 'mk a b c d e f g h i j k l m n o p q r u _ w y z a' := s in
  mk a b c d e f g h i j k l m n o p q r u x w y z a'.
Definition set_proficiencies (x : list Proficiency.t) (s : t) : t :=
  let 'mk a b c d e f g h i j k l m n o p q r u v _ y z a' := s in
  mk a b c d e f g h i j k l m n o p q r u v x y z a'.

(** [_.has(stat, key)]: the own keys of each shape, as written in
    [buildCharacter]. *)
Definition keys (k : kind) : list string :=
  match k with
  | attribute =>
      ["computed"; "busyComputing"; "type"; "attributeType"; "base";
       "decimal"; "result"; "mod"; "add"; "mul"; "min"; "max"; "effects"]
  | skill =>
      ["computed"; "busyComputing"; "type"; "ability"; "result";
       "proficiency"; "add"; "mul"; "min"; "max"; "advantage";
       "disadvantage"; "passiveAdd"; "fail"; "conditional"; "effects";
       "proficiencies"]
  | damageMultiplier =>
      ["computed"; "busyComputing"; "type"; "result"; "immunityCount";
       "ressistanceCount"; "vulnerabilityCount"; "effects"]
  end.

Definition has (s : t) (key : string) : bool :=
  existsb (String.eqb key) (keys (type s)).
End Stat.

(** ** Association lists in enumeration order *)

Section Assoc.
Context {A : Type}.

Fixpoint lookup (k : string) (m : list (string * A)) : option A :=
  match m with
  | [] => None
  | (k', v) :: rest => if String.eqb k k' then Some v else lookup k rest
  end.

(** Assignment to an existing key keeps its place in the enumeration; a
    new key goes last. *)
Fixpoint assign (k : string) (v : A) (m : list (string * A))
  : list (string * A) :=
  match m with
  | [] => [(k, v)]
  | (k', v') :: rest =>
      if String.eqb k k' then (k', v) :: rest
      else (k', v') :: assign k v rest
  end.

Definition defined (k : string) (m : list (string * A)) : bool :=
  match lookup k m with Some _ => true | None => false end.
End Assoc.

(** Replace element [n] of a list; nothing happens out of range (the code
    only ever writes to an element it has just read). *)
Fixpoint list_set {A : Type} (n : nat) (x : A) (l : list A) : list A :=
  match l, n with
  | [], _ => []
  | _ :: rest, O => x :: rest
  | y :: rest, S n' => y :: list_set n' x rest
  end.

Record character : Type := mkCharacter {
  atts : list (string * Stat.t);
  skills : list (string * Stat.t);
  dms : list (string * Stat.t);
  classes : list (string * jsnum);
  level : jsnum;
}.

(** The state the engine runs in: the character object and the implicit
    global [i]. *)
Record world : Type := mkWorld {
  char : character;
  global_i : nat;
}.

(** A stat object is reached through the map it lives in and its key. *)
Inductive sref : Type :=
  | InAtts (name : string)
  | InSkills (name : string)
  | InDms (name : string).

Definition deref (r : sref) (c : character) : option Stat.t :=
  match r with
  | InAtts n => lookup n (atts c)
  | InSkills n => lookup n (skills c)
  | InDms n => lookup n (dms c)
  end.

Definition store (r : sref) (s : Stat.t) (c : character) : character :=
  match r with
  | InAtts n => mkCharacter (assign n s (atts c)) (skills c) (dms c) (classes c) (level c)
  | InSkills n => mkCharacter (atts c) (assign n s (skills c)) (dms c) (classes c) (level c)
  | InDms n => mkCharacter (atts c) (skills c) (assign n s (dms c)) (classes c) (level c)
  end.

(** ** Outcomes: a result and the new state, an exception, or no return *)

Inductive exn : Type :=
  | TypeError (what : string)
  | ReferenceError (what : string).

Inductive outcome (A : Type) : Type :=
  | Ok (a : A) (w : world)
  | Throw (e : exn)
  | Diverge.
Arguments Ok {A} a w.
Arguments Throw {A} e.
Arguments Diverge {A}.

Definition M (A : Type) : Type := world -> outcome A.

Definition ret {A : Type} (a : A) : M A := fun w => Ok a w.

Definition bind {A B : Type} (m : M A) (f : A -> M B) : M B :=
  fun w =>
    match m w with
    | Ok a w' => f a w'
    | Throw e => Throw e
    | Diverge => Diverge
    end.

Definition throw {A : Type} (e : exn) : M A := fun _ => Throw e.

Declare Scope engine_scope.
Delimit Scope engine_scope with engine.
Notation "x <- c1 ;; c2" := (bind c1 (fun x => c2))
  (at level 61, c1 at next level, right associativity) : engine_scope.
Notation "c1 ;;; c2" := (bind c1 (fun _ => c2))
  (at level 61, right associativity) : engine_scope.
Local Open Scope engine_scope.

Definition get_char : M character := fun w => Ok (char w) w.
Definition get_i : M nat := fun w => Ok (global_i w) w.
Definition set_i (k : nat) : M unit := fun w => Ok tt (mkWorld (char w) k).

(** Read the stat object behind a reference; property access on
    [undefined] is a TypeError. *)
Definition read (r : sref) : M Stat.t :=
  fun w =>
    match deref r (char w) with
    | Some s => Ok s w
    | None => Throw (TypeError "property of undefined")
    end.

(** Mutate the stat object behind a reference in place. *)
Definition mutate (r : sref) (f : Stat.t -> Stat.t) : M unit :=
  fun w =>
    match deref r (char w) with
    | Some s => Ok tt (mkWorld (store r (f s) (char w)) (global_i w))
    | None => Throw (TypeError "property of undefined")
    end.

(** Mutate effect [k] of a stat object in place. *)
Definition mutate_effect (r : sref) (k : nat) (f : Effect.t -> Effect.t) : M unit :=
  mutate r (fun s =>
    match nth_error (Stat.effects s) k with
    | Some e => Stat.set_effects (list_set k (f e) (Stat.effects s)) s
    | None => s
    end).

(** [for (x in array)] over an array of [n] elements whose length the body
    does not change: the body runs for the keys 0 .. n-1 in order. *)
Fixpoint for_in (n : nat) (from : nat) (body : nat -> M unit) : M unit :=
  match n with
  | O => ret tt
  | S n' => body from ;;; for_in n' (S from) body
  end.

(** ** Tokens of a formula: the matches of [/\b[a-z,1-9]+\b/gi] *)

Definition code (c : ascii) : nat := nat_of_ascii c.

Definition between (lo hi : nat) (c : ascii) : bool :=
  Nat.leb lo (code c) && Nat.leb (code c) hi.

Definition is_upper (c : ascii) : bool := between 65 90 c.
Definition is_lower (c : ascii) : bool := between 97 122 c.

(** [\w]: a letter, a digit or the underscore. *)
Definition is_word (c : ascii) : bool :=
  is_upper c || is_lower c || between 48 57 c || Nat.eqb (code c) 95.

(** The class [[a-z,1-9]] under the [i] flag. *)
Definition in_class (c : ascii) : bool :=
  is_lower c || is_upper c || Nat.eqb (code c) 44 || between 49 57 c.

Definition word_at (c : option ascii) : bool :=
  match c with Some x => is_word x | None => false end.

(** [\b] between two neighbouring positions; [None] is an end of the
    string. *)
Definition boundary (before after : option ascii) : bool :=
  xorb (word_at before) (word_at after).

(** After a class character [last] has been consumed: the largest number of
    further class characters after which [\b] holds (the greedy [+] gives
    characters back one at a time until the closing [\b] succeeds). *)
Fixpoint longest (last : ascii) (rest : list ascii) : option nat :=
  match rest with
  | [] => if boundary (Some last) None then Some O else None
  | c :: rest' =>
      let stop_here := if boundary (Some last) (Some c) then Some O else None in
      if in_class c then
        match longest c rest' with
        | Some n => Some (S n)
        | None => stop_here
        end
      else stop_here
  end.

(** The length of the match that starts at the head of [s], if any. *)
Definition match_at (before : option ascii) (s : list ascii) : option nat :=
  match s with
  | [] => None
  | c :: rest =>
      if boundary before (Some c) && in_class c
      then option_map S (longest c rest)
      else None
  end.

Inductive piece : Type :=
  | Text (c : ascii)
  | Token (sub : string).

(** The formula cut into the matches, in order, and the characters between
    them; [skip] counts the characters of the current match still to pass. *)
Fixpoint pieces (before : option ascii) (skip : nat) (s : list ascii) : list piece :=
  match s with
  | [] => []
  | c :: rest =>
      match skip with
      | S k => pieces (Some c) k rest
      | O =>
          match match_at before s with
          | Some len =>
              Token (string_of_list_ascii (firstn len s))
                :: pieces (Some c) (len - 1) rest
          | None => Text c :: pieces (Some c) O rest
          end
      end
  end.

Definition tokenize (s : string) : list piece :=
  pieces None O (list_ascii_of_string s).

Definition lower (c : ascii) : ascii :=
  if is_upper c then ascii_of_nat (code c + 32) else c.

(** [String.prototype.toLowerCase] on the characters a token can hold. *)
Definition toLowerCase (s : string) : string :=
  string_of_list_ascii (map lower (list_ascii_of_string s)).

Definition ends_with (suffix s : string) : bool :=
  let n := String.length s in
  let m := String.length suffix in
  Nat.leb m n && String.eqb (substring (n - m) m s) suffix.

(** [/^\w+suffix$/.test(s)] for a suffix made of word characters. *)
Definition word_then (suffix s : string) : bool :=
  Nat.ltb (String.length suffix) (String.length s)
  && ends_with suffix s
  && forallb is_word (list_ascii_of_string s).

(** [s.slice(0, -n)] *)
Definition drop_last (n : nat) (s : string) : string :=
  substring 0 (String.length s - n) s.

(** [/^\w+mod$/.test(sub)] *)
Definition is_modifier_name (sub : string) : bool := word_then "mod" sub.

(** [/^\w+levels?$/.test(sub)] *)
Definition is_class_level_name (sub : string) : bool :=
  word_then "level" sub || word_then "levels" sub.

(** [sub.replace(/levels?$/, "")] *)
Definition strip_levels (sub : string) : string :=
  if ends_with "levels" sub then drop_last 6 sub
  else if ends_with "level" sub then drop_last 5 sub
  else sub.

(** ** The engine *)

Section Engine.

(** What the engine takes from its runtime: [math.eval] of the mathjs
    library ([None] when it throws), the conversion of a number to a
    string and of a string to a number. *)
Variable math_eval : string -> option value.
Variable num_to_str : jsnum -> string.
Variable str_to_num : string -> jsnum.

Definition ToNumber (v : value) : jsnum :=
  match v with
  | VNum n => n
  | VStr s => str_to_num s
  | VUndef => NaN
  end.

Definition ToString (v : value) : string :=
  match v with
  | VNum n => num_to_str n
  | VStr s => s
  | VUndef => "undefined"
  end.

(** The operator [+]: concatenation as soon as one side is a string. *)
Definition js_plus (a b : value) : value :=
  match a, b with
  | VStr _, _ | _, VStr _ => VStr (ToString a ++ ToString b)
  | _, _ => VNum (jadd (ToNumber a) (ToNumber b))
  end.

(** The operator [<]: two strings compare as strings, anything else as
    numbers. [a > b] is [js_lt b a]. *)
Definition js_lt (a b : value) : bool :=
  match a, b with
  | VStr x, VStr y => String.ltb x y
  | _, _ => jlt (ToNumber a) (ToNumber b)
  end.

Definition js_gt (a b : value) : bool := js_lt b a.

(** *** applyEffect

    The function is three statements: the chain base / add / mul, the
    [if] for min, and the chain max / advantage / ... / conditional. A
    [return] inside one of them leaves the function. *)

Inductive flow : Type :=
  | Next (s : Stat.t)
  | Return (s : Stat.t)
  | Raise (e : exn).

Definition applyEffect_first (effect : Effect.t) (stat : Stat.t) : flow :=
  let op := Effect.operation effect in
  let res := Effect.result effect in
  if String.eqb op "base" then
    if negb (Stat.has stat "base") then Return stat
    else Next (Stat.set_base
                 (if js_gt res (Stat.base stat) then res else Stat.base stat) stat)
  else if String.eqb op "add" then
    if negb (Stat.has stat "add") then Return stat
    else Next (Stat.set_add (js_plus (Stat.add stat) res) stat)
  else if String.eqb op "mul" then
    if negb (Stat.has stat "mul") then Return stat
    else
      match Stat.type stat with
      | damageMultiplier => Raise (ReferenceError "value is not defined")
      | _ => Next (Stat.set_mul (jmul (Stat.mul stat) (ToNumber res)) stat)
      end
  else Next stat.

Definition applyEffect_min (effect : Effect.t) (stat : Stat.t) : flow :=
  let res := Effect.result effect in
  if String.eqb (Effect.operation effect) "min" then
    if negb (Stat.has stat "min") then Return stat
    else Next (Stat.set_min
                 (if js_gt res (Stat.min stat) then res else Stat.min stat) stat)
  else Next stat.

Definition applyEffect_last (effect : Effect.t) (stat : Stat.t) : flow :=
  let op := Effect.operation effect in
  let res := Effect.result effect in
  if String.eqb op "max" then
    if negb (Stat.has stat "max") then Return stat
    else Next (Stat.set_max
                 (if js_lt res (Stat.max stat) then res else Stat.max stat) stat)
  else if String.eqb op "advantage" then
    if negb (Stat.has stat "advantage") then Return stat
    else Next (Stat.set_advantage (S (Stat.advantage stat)) stat)
  else if String.eqb op "disadvantage" then
    if negb (Stat.has stat "disadvantage") then Return stat
    else Next (Stat.set_disadvantage (S (Stat.disadvantage stat)) stat)
  else if String.eqb op "passiveAdd" then
    if negb (Stat.has stat "passiveAdd") then Return stat
    else Next (Stat.set_passiveAdd (js_plus (Stat.passiveAdd stat) res) stat)
  else if String.eqb op "fail" then
    if negb (Stat.has stat "fail") then Return stat
    else Next (Stat.set_fail (S (Stat.fail stat)) stat)
  else if String.eqb op "conditional" then
    if negb (Stat.has stat "conditional") then Return stat
    else Next (Stat.set_conditional (S (Stat.conditional stat)) stat)
  else Next stat.

Definition and_then (f : flow) (g : Stat.t -> flow) : flow :=
  match f with
  | Next s => g s
  | other => other
  end.

Definition applyEffect (effect : Effect.t) (stat : Stat.t) : exn + Stat.t :=
  match and_then (and_then (applyEffect_first effect stat)
                           (applyEffect_min effect))
                 (applyEffect_last effect) with
  | Next s | Return s => inr s
  | Raise e => inl e
  end.

(** *** The combiners of attributes and damage multipliers *)

Definition combineAttribute (stat : Stat.t) : Stat.t :=
  let r0 := VNum (jmul (ToNumber (js_plus (Stat.base stat) (Stat.add stat)))
                       (Stat.mul stat)) in
  let r1 := if js_lt r0 (Stat.min stat) then Stat.min stat else r0 in
  let r2 := if js_gt r1 (Stat.max stat) then Stat.max stat else r1 in
  let r3 := if negb (Stat.decimal stat) then VNum (jfloor (ToNumber r2)) else r2 in
  let stat := Stat.set_result r3 stat in
  if String.eqb (Stat.attributeType stat) "ability"
  then Stat.set_modifier
         (jfloor (jdiv (jsub (ToNumber r3) (num 10)) (num 2))) stat
  else stat.

(** [return 0] leaves [stat.result] as it is. *)
Definition combineDamageMultiplier (stat : Stat.t) : Stat.t :=
  if negb (Nat.eqb (Stat.immunityCount stat) 0) then stat
  else if negb (Nat.eqb (Stat.ressistanceCount stat) 0)
          && Nat.eqb (Stat.vulnerabilityCount stat) 0
  then Stat.set_result (VNum (Fin (1 # 2))) stat
  else if Nat.eqb (Stat.ressistanceCount stat) 0
          && negb (Nat.eqb (Stat.vulnerabilityCount stat) 0)
  then Stat.set_result (VNum (num 2)) stat
  else Stat.set_result (VNum (num 1)) stat.

(** *** The mutually recursive part

    [computeStat], [computeEffect], [evaluateCalculation] and
    [combineSkill] call one another. Each is written over [rec], the
    [computeStat] of the next activation; [computeStat] ties the knot on
    the fuel. The argument of [computeStat] is a stat object or
    [undefined]. *)

(** The expression [char.atts[name]] and its siblings: the object, or
    [undefined]. *)
Definition object (r : sref) : M (option sref) :=
  fun w =>
    match deref r (char w) with
    | Some _ => Ok (Some r) w
    | None => Ok None w
    end.

(** The expression [stat.effects[i]]. *)
Definition effect_at (r : sref) (k : nat) : M (option (sref * nat)) :=
  fun w =>
    match deref r (char w) with
    | Some s =>
        match nth_error (Stat.effects s) k with
        | Some _ => Ok (Some (r, k)) w
        | None => Ok None w
        end
    | None => Throw (TypeError "property of undefined")
    end.

Definition read_effect (target : option (sref * nat)) : M Effect.t :=
  fun w =>
    match target with
    | Some (r, k) =>
        match deref r (char w) with
        | Some s =>
            match nth_error (Stat.effects s) k with
            | Some e => Ok e w
            | None => Throw (TypeError "property of undefined")
            end
        | None => Throw (TypeError "property of undefined")
        end
    | None => Throw (TypeError "property of undefined")
    end.

Section Activation.
Variable rec : option sref -> M unit.

(** [if (!m[key].computed) computeStat(m[key], char)] where [r] is
    [m[key]], known to exist. *)
Definition ensure_computed (r : sref) : M unit :=
  s <- read r ;;
  if negb (Stat.computed s) then (o <- object r ;; rec o) else ret tt.

(** The callback of [string.replace]. *)
Definition substitute (matched : string) : M value :=
  let sub := toLowerCase matched in
  c <- get_char ;;
  (* Attributes *)
  if defined sub (atts c) then
    ensure_computed (InAtts sub) ;;;
    s <- read (InAtts sub) ;; ret (Stat.result s)
  else
  (* Modifiers *)
  let slice := drop_last 3 sub in
  if is_modifier_name sub && defined slice (atts c) then
    s <- read (InAtts slice) ;;
    (if negb (Stat.computed s)
     then (o <- object (InAtts sub) ;; rec o)
     else ret tt) ;;;
    s <- read (InAtts slice) ;;
    ret (VNum (if num_truthy (Stat.modifier s) then Stat.modifier s else NaN))
  else
  (* Skills *)
  if defined sub (skills c) then
    ensure_computed (InSkills sub) ;;;
    s <- read (InSkills sub) ;; ret (Stat.result s)
  else
  (* Damage multipliers *)
  if defined sub (dms c) then
    ensure_computed (InDms sub) ;;;
    s <- read (InDms sub) ;; ret (Stat.result s)
  else
  (* Class levels *)
  if is_class_level_name sub then
    match lookup (strip_levels sub) (classes c) with
    | Some lvl => ret (if num_truthy lvl then VNum lvl else VStr sub)
    | None => ret (VStr sub)
    end
  else
  (* Character level *)
  if String.eqb sub "level" then ret (VNum (level c))
  else
  (* Give up *)
  ret (VStr sub).

(** [string.replace(/\b[a-z,1-9]+\b/gi, callback)]: the callback runs
    on the matches from left to right and what it returns is
    converted to a string. *)
Fixpoint replace (ps : list piece) : M string :=
  match ps with
  | [] => ret EmptyString
  | Text c :: rest =>
      tail <- replace rest ;; ret (String c tail)
  | Token sub :: rest =>
      v <- substitute sub ;;
      tail <- replace rest ;; ret (ToString v ++ tail)
  end.

Definition evaluateCalculation (string : String.string) : M value :=
  if String.eqb string "" then ret (VStr string)
  else
    substituted <- replace (tokenize string) ;;
    match math_eval substituted with
    | Some result => ret result
    | None => ret (VStr substituted)
    end.

Definition computeEffect (target : option (sref * nat)) : M unit :=
  effect <- read_effect target ;;
  if Effect.computed effect then ret tt
  else
    let assign_result (v : value) : M unit :=
      match target with
      | Some (r, k) => mutate_effect r k (Effect.set_result v)
      | None => ret tt
      end in
    let op := Effect.operation effect in
    (match Effect.value effect with
     | Some (Fin q) => assign_result (VNum (Fin q))
     | _ =>
         if String.eqb op "conditional" then
           assign_result (match Effect.calculation effect with
                          | Some s => VStr s
                          | None => VUndef
                          end)
         else if existsb (String.eqb op) ["advantage"; "disadvantage"; "fail"]
         then assign_result (VNum (num 1))
         else
           match Effect.calculation effect with
           | Some s => v <- evaluateCalculation s ;; assign_result v
           | None => ret tt
           end
     end) ;;;
    match target with
    | Some (r, k) => mutate_effect r k (Effect.set_computed true)
    | None => ret tt
    end.

(** [applyEffect(stat.effects[i], stat)] on the live objects. *)
Definition applyEffect_to (target : option (sref * nat)) (r : sref) : M unit :=
  effect <- read_effect target ;;
  stat <- read r ;;
  match applyEffect effect stat with
  | inr stat' => mutate r (fun _ => stat')
  | inl e => throw e
  end.

Definition combineSkill (r : sref) : M unit :=
  stat <- read r ;;
  for_in (List.length (Stat.proficiencies stat)) 0 (fun k =>
    set_i k ;;;
    i <- get_i ;;
    stat <- read r ;;
    match nth_error (Stat.proficiencies stat) i with
    | Some prof =>
        if jlt (Stat.proficiency stat) (Proficiency.value prof)
        then mutate r (Stat.set_proficiency (Proficiency.value prof))
        else ret tt
    | None => throw (TypeError "property of undefined")
    end) ;;;
  c <- get_char ;;
  profBonus <-
    (if defined "proificiencyBonus" (skills c) then
       s <- read (InSkills "proficiencyBonus") ;;
       (if negb (Stat.computed s)
        then (o <- object (InSkills "proficiencyBonus") ;; rec o)
        else ret tt) ;;;
       s <- read (InSkills "proficiencyBonus") ;;
       ret (Stat.result s)
     else ret (VNum (jfloor (jadd (jdiv (level c) (num 4)) (Fin (7 # 4)))))) ;;
  stat <- read r ;;
  let profBonus := jmul (ToNumber profBonus) (Stat.proficiency stat) in
  (* Skills are based on some ability modifier *)
  c <- get_char ;;
  abilityMod <-
    (match Stat.ability stat with
     | Some ability =>
         if negb (String.eqb ability "") && defined ability (atts c) then
           ensure_computed (InAtts ability) ;;;
           a <- read (InAtts ability) ;; ret (Stat.modifier a)
         else ret (num 0)
     | None => ret (num 0)
     end) ;;
  stat <- read r ;;
  let r0 := VNum (jmul (ToNumber (js_plus (VNum (jadd abilityMod profBonus))
                                          (Stat.add stat)))
                       (Stat.mul stat)) in
  let r1 := if js_lt r0 (Stat.min stat) then Stat.min stat else r0 in
  let r2 := if js_gt r1 (Stat.max stat) then Stat.max stat else r1 in
  mutate r (Stat.set_result (VNum (jfloor (ToNumber r2)))).

Definition combineStat (r : sref) : M unit :=
  stat <- read r ;;
  match Stat.type stat with
  | attribute => mutate r combineAttribute
  | skill => combineSkill r
  | damageMultiplier => mutate r combineDamageMultiplier
  end.

Definition computeStat_body (stat : option sref) : M unit :=
  match stat with
  | None => throw (TypeError "property of undefined")
  | Some r =>
      s <- read r ;;
      (* If the stat is already computed, skip it *)
      if Stat.computed s then ret tt
      (* If the stat is busy being computed, make it NaN and mark computed *)
      else if Stat.busyComputing s then
        mutate r (fun s => Stat.set_busyComputing false
                             (Stat.set_result (VNum NaN)
                                (Stat.set_computed true s)))
      else
        (* Iterate over each effect which applies to the stat *)
        for_in (List.length (Stat.effects s)) 0 (fun k =>
          set_i k ;;;
          i <- get_i ;;
          e <- effect_at r i ;;
          computeEffect e ;;;
          i <- get_i ;;
          e <- effect_at r i ;;
          applyEffect_to e r) ;;;
        (* Conglomerate all the effects to compute the final stat values *)
        combineStat r ;;;
        (* Mark the attribute as computed *)
        mutate r (fun s => Stat.set_busyComputing false (Stat.set_computed true s))
  end.
End Activation.

Fixpoint computeStat (fuel : nat) (stat : option sref) : M unit :=
  match fuel with
  | O => fun _ => Diverge
  | S fuel' => computeStat_body (computeStat fuel') stat
  end.

(** [for (statName in m) computeStat(m[statName], char)] *)
Fixpoint compute_each (fuel : nat) (ref : string -> sref) (names : list string) : M unit :=
  match names with
  | [] => ret tt
  | statName :: rest =>
      (o <- object (ref statName) ;; computeStat fuel o) ;;;
      compute_each fuel ref rest
  end.

Definition computeCharacter (fuel : nat) : M character :=
  c <- get_char ;;
  compute_each fuel InAtts (map fst (atts c)) ;;;
  c <- get_char ;;
  compute_each fuel InSkills (map fst (skills c)) ;;;
  c <- get_char ;;
  compute_each fuel InDms (map fst (dms c)) ;;;
  get_char.

End Engine.

(** ** buildCharacter

    The documents the six queries return, in the order the cursors yield
    them; the queries of effects and proficiencies select on [enabled] and
    on the proficiency [type]. *)

Module Raw.
Record attribute : Type := mkAttribute {
  att_variableName : string;
  att_type : string;
  att_baseValue : option jsnum;
  att_decimal : bool;
}.
Record skill : Type := mkSkill {
  skill_variableName : string;
  skill_ability : option string;
}.
Record damageMultiplier : Type := mkDamageMultiplier {
  dm_variableName : string;
}.
Record class : Type := mkClass {
  class_name : string;
  class_level : jsnum;
}.
Record effect : Type := mkEffect {
  effect_stat : string;
  effect_operation : string;
  effect_value : option jsnum;
  effect_calculation : option string;
  effect_enabled : bool;
}.
Record proficiency : Type := mkProficiency {
  prof_name : string;
  prof_value : jsnum;
  prof_type : string;
  prof_enabled : bool;
}.
Record documents : Type := mkDocuments {
  Attributes : list attribute;
  Skills : list skill;
  DamageMultipliers : list damageMultiplier;
  Classes : list class;
  Effects : list effect;
  Proficiencies : list proficiency;
}.
End Raw.

Definition NEGATIVE_INFINITY : value := VNum NInf.
Definition POSITIVE_INFINITY : value := VNum PInf.

(** The three object literals of [buildCharacter]; a field the literal does
    not list takes a value that is never read. *)
Definition new_attribute (a : Raw.attribute) : Stat.t :=
  Stat.mk attribute false false (VNum (num 0)) []
    (Raw.att_type a)
    (match Raw.att_baseValue a with
     | Some n => if num_truthy n then VNum n else VNum (num 0)
     | None => VNum (num 0)
     end)
    (Raw.att_decimal a) (num 0)
    (VNum (num 0)) (num 1) NEGATIVE_INFINITY POSITIVE_INFINITY
    None (num 0) 0 0 (VNum (num 0)) 0 0 []
    0 0 0.

Definition new_skill (s : Raw.skill) : Stat.t :=
  Stat.mk skill false false (VNum (num 0)) []
    "" (VNum (num 0)) false (num 0)
    (VNum (num 0)) (num 1) NEGATIVE_INFINITY POSITIVE_INFINITY
    (Raw.skill_ability s) (num 0) 0 0 (VNum (num 0)) 0 0 []
    0 0 0.

Definition new_damageMultiplier : Stat.t :=
  Stat.mk damageMultiplier false false (VNum (num 0)) []
    "" (VNum (num 0)) false (num 0)
    (VNum (num 0)) (num 1) NEGATIVE_INFINITY POSITIVE_INFINITY
    None (num 0) 0 0 (VNum (num 0)) 0 0 []
    0 0 0.

Definition add_attribute (c : character) (a : Raw.attribute) : character :=
  if defined (Raw.att_variableName a) (atts c) then c
  else mkCharacter (assign (Raw.att_variableName a) (new_attribute a) (atts c))
                   (skills c) (dms c) (classes c) (level c).

Definition add_skill (c : character) (s : Raw.skill) : character :=
  if defined (Raw.skill_variableName s) (skills c) then c
  else mkCharacter (atts c)
                   (assign (Raw.skill_variableName s) (new_skill s) (skills c))
                   (dms c) (classes c) (level c).

Definition add_damageMultiplier (c : character) (d : Raw.damageMultiplier) : character :=
  if defined (Raw.dm_variableName d) (dms c) then c
  else mkCharacter (atts c) (skills c)
                   (assign (Raw.dm_variableName d) new_damageMultiplier (dms c))
                   (classes c) (level c).

Definition add_class (c : character) (cls : Raw.class) : character :=
  if defined (Raw.class_name cls) (classes c) then c
  else mkCharacter (atts c) (skills c) (dms c)
                   (assign (Raw.class_name cls) (Raw.class_level cls) (classes c))
                   (jadd (level c) (Raw.class_level cls)).

Definition push_effect (e : Effect.t) (s : Stat.t) : Stat.t :=
  Stat.set_effects (Stat.effects s ++ [e]) s.

Definition add_effect (c : character) (effect : Raw.effect) : character :=
  let storedEffect :=
    Effect.mk false (VNum (num 0)) (Raw.effect_operation effect)
              (Raw.effect_value effect) (Raw.effect_calculation effect) in
  let target := Raw.effect_stat effect in
  match lookup target (atts c), lookup target (skills c), lookup target (dms c) with
  | Some s, _, _ => store (InAtts target) (push_effect storedEffect s) c
  | None, Some s, _ => store (InSkills target) (push_effect storedEffect s) c
  | None, None, Some s => store (InDms target) (push_effect storedEffect s) c
  | None, None, None => c (* ignore effects that don't apply to an actual stat *)
  end.

(** The callback of the proficiency loop pushes [effect], a name that is
    not bound there: evaluating it throws as soon as a proficiency names a
    skill of the character. *)
Definition add_proficiency (c : character) (proficiency : Raw.proficiency)
  : exn + character :=
  if defined (Raw.prof_name proficiency) (skills c)
  then inl (ReferenceError "effect is not defined")
  else inr c.

Fixpoint forEach_throwing {A : Type} (f : character -> A -> exn + character)
  (c : character) (docs : list A) : exn + character :=
  match docs with
  | [] => inr c
  | d :: rest =>
      match f c d with
      | inr c' => forEach_throwing f c' rest
      | inl e => inl e
      end
  end.

Definition selected_proficiency (p : Raw.proficiency) : bool :=
  Raw.prof_enabled p
  && existsb (String.eqb (Raw.prof_type p)) ["skill"; "save"].

Definition buildCharacter (docs : Raw.documents) : exn + character :=
  let char := mkCharacter [] [] [] [] (num 0) in
  let char := fold_left add_attribute (Raw.Attributes docs) char in
  let char := fold_left add_skill (Raw.Skills docs) char in
  let char := fold_left add_damageMultiplier (Raw.DamageMultipliers docs) char in
  let char := fold_left add_class (Raw.Classes docs) char in
  let char := fold_left add_effect
                (filter Raw.effect_enabled (Raw.Effects docs)) char in
  forEach_throwing add_proficiency char
    (filter selected_proficiency (Raw.Proficiencies docs)).

(** [computeCharacterById] up to the write-back: build the model, then
    compute it. The documents are what the six queries of [buildCharacter]
    return (the caller writes [buildCharacter()] without the id; what the
    queries select is the concern of the data layer, not of this model).
    The global [i] has no value before the first loop assigns it. *)
Definition computeCharacterById
  (math_eval : string -> option value) (num_to_str : jsnum -> string)
  (str_to_num : string -> jsnum) (fuel : nat) (docs : Raw.documents)
  : outcome character :=
  match buildCharacter docs with
  | inl e => Throw e
  | inr c => computeCharacter math_eval num_to_str str_to_num fuel (mkWorld c 0)
  end.

(** ** A runtime to run the engine on concrete characters

    The theorems below hold for every runtime. To evaluate the engine on a
    concrete character, this runtime prints integers and terminating
    decimals, reads signed decimal literals, and evaluates arithmetic built
    from decimal literals, [NaN], [Infinity], [+ - * /], unary signs and
    parentheses; on anything else the evaluator fails, as [math.eval] does
    on an undefined symbol. *)

Module Runtime.
Definition show_Z (z : Z) : string := NilZero.string_of_int (Z.to_int z).

Fixpoint fraction (digits : nat) (r d : Z) : string :=
  match digits with
  | O => ""
  | S digits' =>
      if Z.eqb r 0 then ""
      else show_Z ((r * 10) / d) ++ fraction digits' ((r * 10) mod d) d
  end.

Definition num_to_str (n : jsnum) : string :=
  match n with
  | NaN => "NaN"
  | PInf => "Infinity"
  | NInf => "-Infinity"
  | Fin q =>
      let q := Qred q in
      let d := Zpos (Qden q) in
      if Z.eqb d 1 then show_Z (Qnum q)
      else (if Z.ltb (Qnum q) 0 then "-" else "")
           ++ show_Z (Z.abs (Qnum q) / d) ++ "."
           ++ fraction 17 (Z.abs (Qnum q) mod d) d
  end.

Inductive tok : Type :=
  | TNum (n : jsnum)
  | TPlus | TMinus | TTimes | TDiv | TLParen | TRParen.

Definition is_digit (c : ascii) : bool := between 48 57 c.
Definition digit_of (c : ascii) : Z := Z.of_nat (code c - 48).

(** Digits of the integer part: the value so far and the rest. *)
Fixpoint integer_part (acc : Z) (s : list ascii) : Z * list ascii :=
  match s with
  | c :: rest =>
      if is_digit c then integer_part (acc * 10 + digit_of c) rest
      else (acc, s)
  | [] => (acc, [])
  end.

(** Digits after the point: numerator and denominator so far. *)
Fixpoint fraction_part (n : Z) (d : positive) (s : list ascii)
  : Z * positive * list ascii :=
  match s with
  | c :: rest =>
      if is_digit c then fraction_part (n * 10 + digit_of c) (d * 10) rest
      else (n, d, s)
  | [] => (n, d, [])
  end.

Fixpoint identifier (s : list ascii) : list ascii * list ascii :=
  match s with
  | c :: rest =>
      if is_word c then let (w, r) := identifier rest in (c :: w, r)
      else ([], s)
  | [] => ([], [])
  end.

Fixpoint lex (fuel : nat) (s : list ascii) : option (list tok) :=
  match fuel, s with
  | _, [] => Some []
  | O, _ => None
  | S fuel', c :: rest =>
      let continue (t : tok) (r : list ascii) :=
        option_map (cons t) (lex fuel' r) in
      if Nat.eqb (code c) 32 then lex fuel' rest
      else if Nat.eqb (code c) 43 then continue TPlus rest
      else if Nat.eqb (code c) 45 then continue TMinus rest
      else if Nat.eqb (code c) 42 then continue TTimes rest
      else if Nat.eqb (code c) 47 then continue TDiv rest
      else if Nat.eqb (code c) 40 then continue TLParen rest
      else if Nat.eqb (code c) 41 then continue TRParen rest
      else if is_digit c then
        let (whole, r) := integer_part 0 s in
        match r with
        | dot :: c' :: r' =>
            if Nat.eqb (code dot) 46 && is_digit c' then
              let '(n, d, r'') := fraction_part whole 1 (c' :: r') in
              continue (TNum (Fin (Qred (n # d)))) r''
            else continue (TNum (num whole)) r
        | _ => continue (TNum (num whole)) r
        end
      else
        let (w, r) := identifier s in
        let name := string_of_list_ascii w in
        if String.eqb name "NaN" then continue (TNum NaN) r
        else if String.eqb name "Infinity" then continue (TNum PInf) r
        else None
  end.

Fixpoint expr (fuel : nat) (ts : list tok) : option (jsnum * list tok) :=
  match fuel with
  | O => None
  | S fuel' =>
      match term fuel' ts with
      | Some (v, rest) => expr_rest fuel' v rest
      | None => None
      end
  end
with expr_rest (fuel : nat) (acc : jsnum) (ts : list tok)
  : option (jsnum * list tok) :=
  match fuel with
  | O => None
  | S fuel' =>
      match ts with
      | TPlus :: rest =>
          match term fuel' rest with
          | Some (v, rest') => expr_rest fuel' (jadd acc v) rest'
          | None => None
          end
      | TMinus :: rest =>
          match term fuel' rest with
          | Some (v, rest') => expr_rest fuel' (jsub acc v) rest'
          | None => None
          end
      | _ => Some (acc, ts)
      end
  end
with term (fuel : nat) (ts : list tok) : option (jsnum * list tok) :=
  match fuel with
  | O => None
  | S fuel' =>
      match factor fuel' ts with
      | Some (v, rest) => term_rest fuel' v rest
      | None => None
      end
  end
with term_rest (fuel : nat) (acc : jsnum) (ts : list tok)
  : option (jsnum * list tok) :=
  match fuel with
  | O => None
  | S fuel' =>
      match ts with
      | TTimes :: rest =>
          match factor fuel' rest with
          | Some (v, rest') => term_rest fuel' (jmul acc v) rest'
          | None => None
          end
      | TDiv :: rest =>
          match factor fuel' rest with
          | Some (v, rest') => term_rest fuel' (jdiv acc v) rest'
          | None => None
          end
      | _ => Some (acc, ts)
      end
  end
with factor (fuel : nat) (ts : list tok) : option (jsnum * list tok) :=
  match fuel with
  | O => None
  | S fuel' =>
      match ts with
      | TNum n :: rest => Some (n, rest)
      | TMinus :: rest =>
          match factor fuel' rest with
          | Some (v, rest') => Some (jneg v, rest')
          | None => None
          end
      | TPlus :: rest => factor fuel' rest
      | TLParen :: rest =>
          match expr fuel' rest with
          | Some (v, TRParen :: rest') => Some (v, rest')
          | _ => None
          end
      | _ => None
      end
  end.

Definition tokens_of (s : string) : option (list tok) :=
  let chars := list_ascii_of_string s in
  lex (S (List.length chars)) chars.

Definition math_eval (s : string) : option value :=
  match tokens_of s with
  | Some ts =>
      match expr (4 * List.length ts + 4) ts with
      | Some (v, []) => Some (VNum v)
      | _ => None
      end
  | None => None
  end.

Definition str_to_num (s : string) : jsnum :=
  match tokens_of s with
  | Some [] => num 0
  | Some [TNum n] | Some [TPlus; TNum n] => n
  | Some [TMinus; TNum n] => jneg n
  | _ => NaN
  end.

Definition run (fuel : nat) : M character :=
  computeCharacter math_eval num_to_str str_to_num fuel.

Definition recompute (fuel : nat) (docs : Raw.documents) : outcome character :=
  computeCharacterById math_eval num_to_str str_to_num fuel docs.
End Runtime.

(** ** Characters, documents and notions used in the statements *)

(** An ability with base 10 on which effects have accumulated add = 2 and
    mul = 1.5, without bounds. *)
Definition example_attribute : Stat.t :=
  Stat.set_mul (Fin (3 # 2))
    (Stat.set_add (VNum (num 2))
       (new_attribute (Raw.mkAttribute "strength" "ability" (Some (num 10)) false))).

(** A damage multiplier as [buildCharacter] makes it, with given counts. *)
Definition example_damageMultiplier (immunity resistance vulnerability : nat) : Stat.t :=
  Stat.mk damageMultiplier false false (VNum (num 0)) []
    "" (VNum (num 0)) false (num 0)
    (VNum (num 0)) (num 1) NEGATIVE_INFINITY POSITIVE_INFINITY
    None (num 0) 0 0 (VNum (num 0)) 0 0 []
    immunity resistance vulnerability.

(** One skill and one enabled proficiency for it. *)
Definition athletics_documents : Raw.documents :=
  Raw.mkDocuments
    []
    [Raw.mkSkill "athletics" (Some "strength")]
    [] [] []
    [Raw.mkProficiency "athletics" (num 1) "skill" true].

(** A character whose strength is listed before the stat that uses its
    modifier, and the same character with the two listed the other way
    round. *)
Definition strength_documents (strength_first : bool) : Raw.documents :=
  let strength := Raw.mkAttribute "strength" "ability" (Some (num 16)) false in
  let armor := Raw.mkAttribute "armor" "stat" (Some (num 10)) false in
  Raw.mkDocuments
    (if strength_first then [strength; armor] else [armor; strength])
    [] [] []
    [Raw.mkEffect "armor" "add" None (Some "strengthMod + 2") true]
    [].

(** The results of all stats in what the pass returns. *)
Definition results (o : outcome character) : option (list (string * value)) :=
  match o with
  | Ok c _ =>
      Some (map (fun entry => (fst entry, Stat.result (snd entry)))
                (atts c ++ skills c ++ dms c))
  | _ => None
  end.

(** A character whose only stat is strength 16, computed: modifier 3. *)
Definition computed_strength_world : world :=
  mkWorld
    (mkCharacter
       [("strength",
         Stat.set_computed true
           (combineAttribute Runtime.num_to_str Runtime.str_to_num
              (new_attribute
                 (Raw.mkAttribute "strength" "ability" (Some (num 16)) false))))]
       [] [] [] (num 0))
    0.

(** The same character with strength 10, whose modifier is 0. *)
Definition average_strength_documents : Raw.documents :=
  Raw.mkDocuments
    [Raw.mkAttribute "strength" "ability" (Some (num 10)) false;
     Raw.mkAttribute "armor" "stat" (Some (num 10)) false]
    [] [] []
    [Raw.mkEffect "armor" "add" None (Some "strengthMod + 2") true]
    [].

(** A character whose only stat is strength 16, not yet computed. *)
Definition strength_world : world :=
  mkWorld
    (mkCharacter
       [("strength",
         new_attribute (Raw.mkAttribute "strength" "ability" (Some (num 16)) false))]
       [] [] [] (num 0))
    0.

(** Stat a's formula is "b", stat b's formula is "a"; stat c depends on
    nothing. *)
Definition cycle_documents : Raw.documents :=
  Raw.mkDocuments
    [Raw.mkAttribute "a" "stat" None false;
     Raw.mkAttribute "b" "stat" None false;
     Raw.mkAttribute "c" "stat" (Some (num 7)) false]
    [] [] []
    [Raw.mkEffect "a" "add" None (Some "b") true;
     Raw.mkEffect "b" "add" None (Some "a") true]
    [].

(** Run the left-hand side up to the first call it cannot decide, without
    evaluating what comes after it. *)
Ltac run_until_call :=
  match goal with
  | |- ?l = ?r => let l' := eval lazy head in l in change (l' = r)
  end.

(** The call the run stopped at is the call [target], once its arguments
    are evaluated. *)
Ltac change_call rec target :=
  match goal with
  | |- context [rec ?o ?w] => change (rec o w) with target
  end.

(** Stat a has the effects "add b" and "add 5"; stat b has the effects
    "add 1" and "add 2". *)
Definition shared_i_documents (a_first : bool) : Raw.documents :=
  let a := Raw.mkAttribute "a" "stat" None false in
  let b := Raw.mkAttribute "b" "stat" None false in
  Raw.mkDocuments
    (if a_first then [a; b] else [b; a])
    [] [] []
    [Raw.mkEffect "a" "add" None (Some "b") true;
     Raw.mkEffect "a" "add" (Some (num 5)) None true;
     Raw.mkEffect "b" "add" (Some (num 1)) None true;
     Raw.mkEffect "b" "add" (Some (num 2)) None true]
    [].

(** The character [buildCharacter] returns (empty if it throws). *)
Definition built (docs : Raw.documents) : character :=
  match buildCharacter docs with
  | inr c => c
  | inl _ => mkCharacter [] [] [] [] (num 0)
  end.

(** The character built from [cycle_documents]. *)
Definition cycle_character : character := built cycle_documents.

(** The result of the stat called [name] in what the pass returns. *)
Definition result_of (name : string) (o : outcome character) : option value :=
  match o with
  | Ok c _ =>
      option_map Stat.result (lookup name (atts c ++ skills c ++ dms c))
  | _ => None
  end.

(** Stat a has the single effect "add b"; stat b has two effects. *)
Definition leaking_i_documents : Raw.documents :=
  Raw.mkDocuments
    [Raw.mkAttribute "a" "stat" None false;
     Raw.mkAttribute "b" "stat" None false]
    [] [] []
    [Raw.mkEffect "a" "add" None (Some "b") true;
     Raw.mkEffect "b" "add" (Some (num 1)) None true;
     Raw.mkEffect "b" "add" (Some (num 2)) None true]
    [].

(** The characters of a string. *)
Definition chars (s : string) : list ascii := list_ascii_of_string s.

(** What is left of the class once a token is lowercased: a lowercase
    letter, the comma, or a digit from 1 to 9. *)
Definition in_lowered_class (c : ascii) : bool :=
  is_lower c || Nat.eqb (code c) 44 || between 49 57 c.

(** A name with an uppercase letter or the digit 0 in it. *)
Definition has_upper_or_zero (name : string) : bool :=
  existsb (fun c => is_upper c || Nat.eqb (code c) 48) (chars name).

(** A name with the digit 0 in it. *)
Definition has_zero (name : string) : bool :=
  existsb (fun c => Nat.eqb (code c) 48) (chars name).

(** The character without its stats. *)
Definition without_stats (w : world) : world :=
  mkWorld (mkCharacter [] [] [] (classes (char w)) (level (char w))) (global_i w).

(** The keys of the three stat maps. *)
Definition stat_names (c : character) : list string :=
  map fst (atts c) ++ map fst (skills c) ++ map fst (dms c).

(** A character with an attribute named "Level" and three levels of
    fighter. *)
Definition level_world : world :=
  mkWorld
    (mkCharacter
       [("Level", new_attribute (Raw.mkAttribute "Level" "stat" (Some (num 9)) false))]
       [] [] [("fighter", num 3)] (num 3))
    0.

(** The body of [for (i in stat.proficiencies)] in [combineSkill]. *)
Definition proficiency_step (r : sref) (k : nat) : M unit :=
  (set_i k ;;;
   i <- get_i ;;
   stat <- read r ;;
   match nth_error (Stat.proficiencies stat) i with
   | Some prof =>
       if jlt (Stat.proficiency stat) (Proficiency.value prof)
       then mutate r (Stat.set_proficiency (Proficiency.value prof))
       else ret tt
   | None => throw (TypeError "property of undefined")
   end)%engine.

(** The proficiency level a skill ends with: the largest [value] among its
    proficiencies, or the level it already had if that is larger. *)
Definition higher (p : jsnum) (prof : Proficiency.t) : jsnum :=
  if jlt p (Proficiency.value prof) then Proficiency.value prof else p.

(** The proficiency level after the loop over [stat.proficiencies]. *)
Definition accumulated_proficiency (stat : Stat.t) : jsnum :=
  fold_left higher (Stat.proficiencies stat) (Stat.proficiency stat).

(** The ability modifier a skill uses when no computation is pending: that
    of its ability when the attribute exists and is computed, 0 when the
    skill names no ability or the attribute does not exist. *)
Definition settled_modifier (c : character) (stat : Stat.t) (m : jsnum) : Prop :=
  match Stat.ability stat with
  | Some ability =>
      if negb (String.eqb ability "") && defined ability (atts c)
      then exists a, lookup ability (atts c) = Some a
                     /\ Stat.computed a = true /\ Stat.modifier a = m
      else m = num 0
  | None => m = num 0
  end.

(** A rogue of level 5 with dexterity 14 (modifier 2) and one proficiency
    of value 1 in stealth; no effect touches stealth, so add = 0 and
    mul = 1. *)
Definition stealth : Stat.t :=
  Stat.set_proficiencies [Proficiency.mk (num 1)]
    (new_skill (Raw.mkSkill "stealth" (Some "dexterity"))).

(** The rogue, with a given dexterity object. *)
Definition rogue (dexterity : Stat.t) : world :=
  mkWorld
    (mkCharacter [("dexterity", dexterity)] [("stealth", stealth)] []
                 [("rogue", num 5)] (num 5))
    0.

(** Dexterity 14 as built, and as [computeStat] leaves it. *)
Definition dexterity : Stat.t :=
  new_attribute (Raw.mkAttribute "dexterity" "ability" (Some (num 14)) false).

Definition computed_dexterity : Stat.t :=
  Stat.set_computed true (combineAttribute Runtime.num_to_str Runtime.str_to_num dexterity).

(** No skill of the character carries a proficiency. *)
Definition no_proficiency (c : character) : Prop :=
  forall n s, lookup n (skills c) = Some s ->
    Stat.proficiencies s = [] /\ Stat.proficiency s = num 0.

(** [m2] returns whatever [m1] returns, when [m1] returns at all. *)
Definition refines {A : Type} (m1 m2 : M A) : Prop :=
  forall w, m1 w <> Diverge -> m2 w = m1 w.

(** ** Notions used in the further properties *)

(** The maps of a character are object literals, and a key that every
    object inherits from [Object.prototype] is found in an object literal
    although nothing was stored under it. The maps of the model hold the
    stored keys only; the further properties are stated for names outside
    this list wherever the code looks a name up that comes from a
    document or from a formula. *)
Definition inherited (k : string) : bool :=
  existsb (String.eqb k)
    ["constructor"; "toString"; "toLocaleString"; "valueOf"; "hasOwnProperty";
     "isPrototypeOf"; "propertyIsEnumerable"; "__proto__"; "__defineGetter__";
     "__defineSetter__"; "__lookupGetter__"; "__lookupSetter__"].

(** A lowercased token with which [char.atts[sub]], [char.skills[sub]],
    [char.dms[sub]] or [char.atts[slice]] reaches an inherited key. (With
    [char.classes[className]] an inherited key gives no level, as a
    missing class does.) *)
Definition reaches_prototype (sub : string) : bool :=
  inherited sub || (is_modifier_name sub && inherited (drop_last 3 sub)).

Definition ordinary_formula (formula : string) : bool :=
  forallb (fun p => match p with
                    | Token t => negb (reaches_prototype (toLowerCase t))
                    | Text _ => true
                    end)
          (tokenize formula).

Definition ordinary_calculation (calculation : option string) : bool :=
  match calculation with
  | Some formula => ordinary_formula formula
  | None => true
  end.

Definition ordinary_ability (ability : option string) : bool :=
  match ability with
  | Some a => negb (inherited a)
  | None => true
  end.

(** A character none of whose abilities and formulas reaches an inherited
    key. *)
Definition ordinary_stat (s : Stat.t) : bool :=
  ordinary_ability (Stat.ability s)
  && forallb (fun e => ordinary_calculation (Effect.calculation e)) (Stat.effects s).

Definition ordinary (c : character) : bool :=
  forallb ordinary_stat (map snd (atts c) ++ map snd (skills c) ++ map snd (dms c)).

(** Documents none of whose names is an inherited key. *)
Definition ordinary_names (docs : Raw.documents) : bool :=
  forallb (fun a => negb (inherited (Raw.att_variableName a))) (Raw.Attributes docs)
  && forallb (fun s => negb (inherited (Raw.skill_variableName s))) (Raw.Skills docs)
  && forallb (fun d => negb (inherited (Raw.dm_variableName d)))
             (Raw.DamageMultipliers docs)
  && forallb (fun c => negb (inherited (Raw.class_name c))) (Raw.Classes docs)
  && forallb (fun e => negb (inherited (Raw.effect_stat e))) (Raw.Effects docs)
  && forallb (fun p => negb (inherited (Raw.prof_name p))) (Raw.Proficiencies docs).

Definition ordinary_documents (docs : Raw.documents) : bool :=
  ordinary_names docs
  && forallb (fun s => ordinary_ability (Raw.skill_ability s)) (Raw.Skills docs)
  && forallb (fun e => ordinary_calculation (Raw.effect_calculation e))
             (Raw.Effects docs).

(** The pieces of a formula put back together, each token as it was
    matched or, with [lowered], in lowercase. *)
Fixpoint rejoin (lowered : bool) (ps : list piece) : string :=
  match ps with
  | [] => ""
  | Text c :: rest => String c (rejoin lowered rest)
  | Token t :: rest => (if lowered then toLowerCase t else t) ++ rejoin lowered rest
  end.

(** The lowercased token [sub] names nothing in the character: no
    attribute, no modifier of an attribute, no skill, no damage multiplier,
    no class with a nonzero level, it is not "level", and it reaches no
    inherited key. *)
Definition names_nothing (c : character) (sub : string) : bool :=
  negb (defined sub (atts c))
  && negb (is_modifier_name sub && defined (drop_last 3 sub) (atts c))
  && negb (defined sub (skills c))
  && negb (defined sub (dms c))
  && (if is_class_level_name sub
      then match lookup (strip_levels sub) (classes c) with
           | Some lvl => negb (num_truthy lvl)
           | None => true
           end
      else negb (String.eqb sub "level"))
  && negb (reaches_prototype sub).

(** No uppercase letter in the string. *)
Definition no_upper (s : string) : bool :=
  forallb (fun c => negb (is_upper c)) (chars s).

(** The effect object [buildCharacter] stores for an effect document. *)
Definition stored (e : Raw.effect) : Effect.t :=
  Effect.mk false (VNum (num 0)) (Raw.effect_operation e)
            (Raw.effect_value e) (Raw.effect_calculation e).

(** The enabled effect documents that name the stat [name], in document
    order, as stored. *)
Definition effects_for (name : string) (docs : Raw.documents) : list Effect.t :=
  map stored
    (filter (fun e => Raw.effect_enabled e && String.eqb (Raw.effect_stat e) name)
            (Raw.Effects docs)).

(** The first document of a collection that bears the name. *)
Definition first_attribute (name : string) (docs : Raw.documents) : option Raw.attribute :=
  find (fun a => String.eqb name (Raw.att_variableName a)) (Raw.Attributes docs).

Definition first_skill (name : string) (docs : Raw.documents) : option Raw.skill :=
  find (fun s => String.eqb name (Raw.skill_variableName s)) (Raw.Skills docs).

Definition first_damageMultiplier (name : string) (docs : Raw.documents)
  : option Raw.damageMultiplier :=
  find (fun d => String.eqb name (Raw.dm_variableName d)) (Raw.DamageMultipliers docs).

(** The sum [char.level] accumulates, in the order of the additions. *)
Definition sum_levels (levels : list jsnum) : jsnum :=
  fold_left jadd levels (num 0).

(** The character before the effects are attached. *)
Definition skeleton (docs : Raw.documents) : character :=
  fold_left add_class (Raw.Classes docs)
    (fold_left add_damageMultiplier (Raw.DamageMultipliers docs)
       (fold_left add_skill (Raw.Skills docs)
          (fold_left add_attribute (Raw.Attributes docs)
             (mkCharacter [] [] [] [] (num 0))))).

(** Where [add_effect] puts an effect: in the attribute of that name, else
    in the skill, else in the damage multiplier. *)
Definition targets (which : sref) (c : character) (e : Raw.effect) : bool :=
  match which with
  | InAtts n => String.eqb (Raw.effect_stat e) n
  | InSkills n =>
      String.eqb (Raw.effect_stat e) n && negb (defined n (atts c))
  | InDms n =>
      String.eqb (Raw.effect_stat e) n && negb (defined n (atts c))
      && negb (defined n (skills c))
  end.


(** Two stat objects that differ at most in the accumulators of
    [applyEffect]: base, add, mul, min, max, advantage, disadvantage,
    passiveAdd, fail and conditional. *)
Definition same_but_accumulators (s s' : Stat.t) : Prop :=
  Stat.type s' = Stat.type s
  /\ Stat.computed s' = Stat.computed s
  /\ Stat.busyComputing s' = Stat.busyComputing s
  /\ Stat.result s' = Stat.result s
  /\ Stat.effects s' = Stat.effects s
  /\ Stat.attributeType s' = Stat.attributeType s
  /\ Stat.decimal s' = Stat.decimal s
  /\ Stat.modifier s' = Stat.modifier s
  /\ Stat.ability s' = Stat.ability s
  /\ Stat.proficiency s' = Stat.proficiency s
  /\ Stat.proficiencies s' = Stat.proficiencies s
  /\ Stat.immunityCount s' = Stat.immunityCount s
  /\ Stat.ressistanceCount s' = Stat.ressistanceCount s
  /\ Stat.vulnerabilityCount s' = Stat.vulnerabilityCount s.

(** The operations [applyEffect] knows. *)
Definition operations : list string :=
  ["base"; "add"; "mul"; "min"; "max"; "advantage"; "disadvantage";
   "passiveAdd"; "fail"; "conditional"].

(** A number in lowest terms (every number the arithmetic of this model
    produces is). *)
Definition canonical (n : jsnum) : Prop :=
  match n with
  | Fin q => Qred q = q
  | _ => True
  end.

(** What applying an effect leaves, given that [applyEffect] does not
    throw. *)
Definition applied
  (num_to_str : jsnum -> string) (str_to_num : string -> jsnum)
  (effect : Effect.t) (stat : Stat.t) : Stat.t :=
  match applyEffect num_to_str str_to_num effect stat with
  | inr stat' => stat'
  | inl _ => stat
  end.

(** What an effect is given by its document: the engine writes [result]
    and [computed] only. *)
Definition formula_of (e : Effect.t) : string * option jsnum * option string :=
  (Effect.operation e, Effect.value e, Effect.calculation e).

(** A stat object at two moments of a run. *)
Definition evolves (s s' : Stat.t) : Prop :=
  Stat.type s' = Stat.type s
  /\ Stat.attributeType s' = Stat.attributeType s
  /\ Stat.decimal s' = Stat.decimal s
  /\ Stat.ability s' = Stat.ability s
  /\ Stat.proficiencies s' = Stat.proficiencies s
  /\ Stat.immunityCount s' = Stat.immunityCount s
  /\ Stat.ressistanceCount s' = Stat.ressistanceCount s
  /\ Stat.vulnerabilityCount s' = Stat.vulnerabilityCount s
  /\ map formula_of (Stat.effects s') = map formula_of (Stat.effects s)
  /\ (Stat.computed s = true -> Stat.computed s' = true)
  /\ (Stat.busyComputing s' = true -> Stat.busyComputing s = true).

(** A stat object before and after a step of the loops over its effects
    and its proficiencies: the flags, the result and the modifier are as
    they were. *)
Definition quiet (s s' : Stat.t) : Prop :=
  evolves s s'
  /\ Stat.computed s' = Stat.computed s
  /\ Stat.busyComputing s' = Stat.busyComputing s
  /\ Stat.result s' = Stat.result s
  /\ Stat.modifier s' = Stat.modifier s.

(** A character at two moments of a run: the same stats in the same
    enumeration order, the same classes and level; every stat has evolved,
    and a stat that was computed is as it was. *)
Definition keeps (c0 c : character) : Prop :=
  map fst (atts c) = map fst (atts c0)
  /\ map fst (skills c) = map fst (skills c0)
  /\ map fst (dms c) = map fst (dms c0)
  /\ classes c = classes c0
  /\ level c = level c0
  /\ forall r s, deref r c0 = Some s ->
       exists s', deref r c = Some s' /\ evolves s s'
                  /\ (Stat.computed s = true -> s' = s).

Definition all_computed (c : character) : Prop :=
  forall r s, deref r c = Some s -> Stat.computed s = true.

(** What holds when a computation returns. *)
Definition post {A : Type} (m : M A) (w : world) (Q : A -> world -> Prop) : Prop :=
  match m w with
  | Ok a w' => Q a w'
  | _ => True
  end.

(** Started on a character with [P], the computation returns, if at all,
    with a character with [Q]. *)
Definition passing (P Q : character -> Prop) {A : Type} (m : M A) : Prop :=
  forall w, P (char w) -> post m w (fun _ w' => Q (char w')).

(** What [combineStat] writes to a stat of type [ty]; [v] is the result a
    skill gets. *)
Definition combined
  (num_to_str : jsnum -> string) (str_to_num : string -> jsnum)
  (ty : kind) (v : value) (s : Stat.t) : Stat.t :=
  match ty with
  | attribute => combineAttribute num_to_str str_to_num s
  | skill => Stat.set_result v s
  | damageMultiplier => combineDamageMultiplier s
  end.

(** The last statements of [computeStat], and what it does to a stat that
    is busy. *)
Definition mark_computed (s : Stat.t) : Stat.t :=
  Stat.set_busyComputing false (Stat.set_computed true s).

Definition mark_NaN (s : Stat.t) : Stat.t :=
  Stat.set_busyComputing false (Stat.set_result (VNum NaN) (Stat.set_computed true s)).

(** Damage multipliers as [buildCharacter] makes them and [computeStat]
    leaves them: the three counts are 0, and the result is 1 once the stat
    is computed. *)
Definition neutral (s : Stat.t) : Prop :=
  Stat.type s = damageMultiplier ->
  Stat.immunityCount s = 0%nat /\ Stat.ressistanceCount s = 0%nat
  /\ Stat.vulnerabilityCount s = 0%nat
  /\ Stat.busyComputing s = false
  /\ (Stat.computed s = true -> Stat.result s = VNum (num 1)).

Definition all_neutral (c : character) : Prop :=
  forall r s, deref r c = Some s -> neutral s.

(** An effect whose result [computeEffect] finds without a formula: a
    finite value, the operation "conditional", "advantage", "disadvantage"
    or "fail", or no calculation at all. *)
Definition plain (f : string * option jsnum * option string) : bool :=
  let '(operation, value, calculation) := f in
  match value with
  | Some (Fin _) => true
  | _ =>
      String.eqb operation "conditional"
      || existsb (String.eqb operation) ["advantage"; "disadvantage"; "fail"]
      || match calculation with Some _ => false | None => true end
  end.

Definition needs_no_formula (e : Effect.t) : bool := plain (formula_of e).

(** What [computeEffect] leaves of an effect that needs no formula. *)
Definition settle (e : Effect.t) : Effect.t :=
  if Effect.computed e then e
  else
    Effect.set_computed true
      (match Effect.value e with
       | Some (Fin q) => Effect.set_result (VNum (Fin q)) e
       | _ =>
           if String.eqb (Effect.operation e) "conditional" then
             Effect.set_result (match Effect.calculation e with
                                | Some s => VStr s
                                | None => VUndef
                                end) e
           else if existsb (String.eqb (Effect.operation e))
                           ["advantage"; "disadvantage"; "fail"]
           then Effect.set_result (VNum (num 1)) e
           else e
       end).

(** The effects applied one after the other. *)
Definition accumulate
  (num_to_str : jsnum -> string) (str_to_num : string -> jsnum)
  (effects : list Effect.t) (stat : Stat.t) : Stat.t :=
  fold_left (fun s e => applied num_to_str str_to_num e s) effects stat.

(** The stat [computeStat] leaves when no effect needs a formula and the
    stat is an attribute or a damage multiplier. *)
Definition computed_without_formula
  (num_to_str : jsnum -> string) (str_to_num : string -> jsnum)
  (s : Stat.t) : Stat.t :=
  let effects := map settle (Stat.effects s) in
  mark_computed
    (combined num_to_str str_to_num (Stat.type s) VUndef
       (Stat.set_effects effects (accumulate num_to_str str_to_num effects s))).

(** The body of [for (i in stat.effects)] in [computeStat]. *)
Definition effect_step
  (math_eval : string -> option value)
  (num_to_str : jsnum -> string) (str_to_num : string -> jsnum)
  (rec : option sref -> M unit) (r : sref) (k : nat) : M unit :=
  (set_i k ;;;
   i <- get_i ;;
   e <- effect_at r i ;;
   computeEffect math_eval num_to_str rec e ;;;
   i <- get_i ;;
   e <- effect_at r i ;;
   applyEffect_to num_to_str str_to_num e r)%engine.

(** A character none of whose effects needs a formula; it has no skill
    under the key that [combineSkill] tests, and its attributes are
    attributes. *)
Definition formula_free (c : character) : Prop :=
  (forall r s, deref r c = Some s ->
     forallb needs_no_formula (Stat.effects s) = true)
  /\ defined "proificiencyBonus" (skills c) = false
  /\ (forall n s, lookup n (atts c) = Some s -> Stat.type s = attribute).

(** ** recomputeCharacterWeightCarried

    The documents of the two queries; the queries select on [charId] and,
    for the containers, on [isCarried]. *)

Module Inventory.
Record container : Type := mkContainer {
  cont_id : string;
  cont_charId : string;
  cont_isCarried : bool;
  cont_weight : jsnum;
}.
Record item : Type := mkItem {
  item_charId : string;
  item_weight : jsnum;
  item_parent : string; (* [item.parent.id] *)
}.
End Inventory.

(** The callback of the items tests [parent.id], not [item.parent.id].
    The name [parent] is declared nowhere in the module, so it is the
    global of that name: unbound, or an object whose [id] is a string or
    [undefined]. *)
Inductive global_parent : Type :=
  | Unbound
  | Bound (id : option string).

(** What the method does: [Meteor.Error] for a user who may not edit the
    character, an exception out of a callback, or the value that is
    written to the character and returned. *)
Inductive method_outcome : Type :=
  | Denied
  | Uncaught (e : exn)
  | Written (weightCarried : jsnum).

(** [carriedContainers[id]], on an object literal; the key of [undefined]
    is "undefined". *)
Definition is_carried (carriedContainers : list string) (id : option string) : bool :=
  let key := match id with Some s => s | None => "undefined" end in
  existsb (String.eqb key) carriedContainers || inherited key.

Fixpoint add_items (parent : global_parent) (charId : string)
  (carriedContainers : list string) (items : list Inventory.item)
  (weightCarried : jsnum) : exn + jsnum :=
  match items with
  | [] => inr weightCarried
  | item :: rest =>
      match parent with
      | Unbound => inl (ReferenceError "parent is not defined")
      | Bound id =>
          add_items parent charId carriedContainers rest
            (if match id with Some s => String.eqb s charId | None => false end
                || is_carried carriedContainers id
             then jadd weightCarried (Inventory.item_weight item)
             else weightCarried)
      end
  end.

Definition recomputeCharacterWeightCarried
  (canEditCharacter : bool) (parent : global_parent) (charId : string)
  (Containers : list Inventory.container) (Items : list Inventory.item)
  : method_outcome :=
  if negb canEditCharacter then Denied
  else
    let carried :=
      filter (fun c => String.eqb (Inventory.cont_charId c) charId
                       && Inventory.cont_isCarried c) Containers in
    let carriedContainers := map Inventory.cont_id carried in
    let weightCarried :=
      fold_left (fun w c => jadd w (Inventory.cont_weight c)) carried (num 0) in
    match add_items parent charId carriedContainers
            (filter (fun i => String.eqb (Inventory.item_charId i) charId) Items)
            weightCarried with
    | inl e => Uncaught e
    | inr w => Written w
    end.

(** The same items with other parents. *)
Definition reparent (f : Inventory.item -> string) (items : list Inventory.item)
  : list Inventory.item :=
  map (fun i => Inventory.mkItem (Inventory.item_charId i) (Inventory.item_weight i) (f i))
      items.

(** The weight of the carried containers of a character, in the order of
    the additions. *)
Definition carried_containers_weight (charId : string)
  (Containers : list Inventory.container) : jsnum :=
  fold_left jadd
    (map Inventory.cont_weight
       (filter (fun c => String.eqb (Inventory.cont_charId c) charId
                         && Inventory.cont_isCarried c) Containers))
    (num 0).

(** A backpack that is carried, a chest that is not, and two items. *)
Definition example_containers : list Inventory.container :=
  [Inventory.mkContainer "backpack" "hero" true (num 5);
   Inventory.mkContainer "chest" "hero" false (num 25);
   Inventory.mkContainer "pouch" "hero" true (num 1)].

Definition example_items : list Inventory.item :=
  [Inventory.mkItem "hero" (num 3) "backpack";
   Inventory.mkItem "hero" (num 10) "hero";
   Inventory.mkItem "villain" (num 4) "villain"].

(** ** Characters used to instantiate the further properties *)

(** A character without formulas: two attributes, a skill, a damage
    multiplier, a class listed twice, and one disabled effect. *)
Definition plain_documents : Raw.documents :=
  Raw.mkDocuments
    [Raw.mkAttribute "strength" "ability" (Some (num 16)) false;
     Raw.mkAttribute "speed" "stat" (Some (num 30)) false;
     Raw.mkAttribute "strength" "stat" (Some (num 3)) false]
    [Raw.mkSkill "athletics" (Some "strength");
     Raw.mkSkill "speed" None]
    [Raw.mkDamageMultiplier "fire"]
    [Raw.mkClass "fighter" (num 3);
     Raw.mkClass "wizard" (num 1);
     Raw.mkClass "fighter" (num 2)]
    [Raw.mkEffect "strength" "add" (Some (num 2)) None true;
     Raw.mkEffect "fire" "mul" (Some (Fin (1 # 2))) None true;
     Raw.mkEffect "speed" "base" (Some (num 40)) None true;
     Raw.mkEffect "athletics" "advantage" None None true;
     Raw.mkEffect "strength" "add" None (Some "speed / 10") false]
    [].

Definition plain_world : world := mkWorld (built plain_documents) 0.

(** The state a pass leaves (the state it was given if it does not
    return). *)
Definition after (w : world) (o : outcome character) : world :=
  match o with
  | Ok _ w' => w'
  | _ => w
  end.

Definition computed_plain_world : world :=
  after plain_world
    (computeCharacter Runtime.math_eval Runtime.num_to_str Runtime.str_to_num
       2 plain_world).

(** The stat behind a reference (a fresh damage multiplier if there is
    none). *)
Definition stat_of (r : sref) (w : world) : Stat.t :=
  match deref r (char w) with
  | Some s => s
  | None => new_damageMultiplier
  end.

(** A character without stats whose only class has a capitalised name. *)
Definition capitalised_world : world :=
  mkWorld (mkCharacter [] [] [] [("Fighter", num 3)] (num 3)) 0.

(** Two effects that set a base value. *)
Definition base_effect (n : Z) : Effect.t :=
  Effect.mk true (VNum (num n)) "base" (Some (num n)) None.

(** ** Numbers without rounding

    The model adds, multiplies and divides exactly; the code rounds every
    result to binary64. The two agree on an operation whose exact result
    is a binary64 number already: an integer of fewer than 54 bits over a
    power of two up to 2^1074 (or an infinity, or NaN). The closed forms
    of the combiners are stated for such results. *)
Fixpoint power_of_two (p : positive) : bool :=
  match p with
  | xH => true
  | xO p' => power_of_two p'
  | xI _ => false
  end.

Definition binary64 (n : jsnum) : bool :=
  match n with
  | Fin q =>
      let r := Qred q in
      (Z.abs (Qnum r) <? 2 ^ 53)%Z
      && power_of_two (Qden r)
      && Nat.leb (Pos.size_nat (Qden r)) 1075
  | _ => true
  end.

(** The character before a position: the last one of [l], or [before]. *)
Definition last_before (before : option ascii) (l : list ascii) : option ascii :=
  match l with
  | [] => before
  | c :: rest => Some (List.last rest c)
  end.

(** An attribute and a skill with two effects each: a formula that is the
    empty string, whose result is the empty string, and the value 5. *)
Definition text_documents : Raw.documents :=
  Raw.mkDocuments
    [Raw.mkAttribute "armor" "stat" (Some (num 10)) false;
     Raw.mkAttribute "dexterity" "ability" (Some (num 14)) false]
    [Raw.mkSkill "stealth" (Some "dexterity")]
    []
    [Raw.mkClass "rogue" (num 5)]
    [Raw.mkEffect "armor" "add" None (Some "") true;
     Raw.mkEffect "armor" "add" (Some (num 5)) None true;
     Raw.mkEffect "stealth" "add" None (Some "") true;
     Raw.mkEffect "stealth" "add" (Some (num 5)) None true]
    [].

Definition text_world : world := mkWorld (built text_documents) 0.

Definition computed_text_world : world :=
  after text_world
    (computeCharacter Runtime.math_eval Runtime.num_to_str Runtime.str_to_num
       2 text_world).

(** * Properties
    ** The embedding on small inputs *)

Example jsnum_attribute_example :
  jfloor (jmul (jadd (num 10) (num 2)) (Fin (3 # 2))) = num 18.
Proof. reflexivity. Qed.

Example jsnum_proficiency_example :
  jfloor (jadd (jdiv (num 5) (num 4)) (Fin (7 # 4))) = num 3.
Proof. reflexivity. Qed.

Example tokenize_sum :
  tokenize "strengthMod + 2" =
  [Token "strengthMod"; Text " "; Text "+"; Text " "; Token "2"].
Proof. reflexivity. Qed.

Example tokenize_zero_blocks : tokenize "str0+a" =
  [Text "s"; Text "t"; Text "r"; Text "0"; Text "+"; Token "a"].
Proof. reflexivity. Qed.

Example tokenize_comma_joins : tokenize "max(a,b)" =
  [Token "max"; Text "("; Token "a,b"; Text ")"].
Proof. reflexivity. Qed.

Example tokenize_gives_back : tokenize "a,b_" =
  [Token "a,"; Text "b"; Text "_"].
Proof. reflexivity. Qed.

Example modifier_name_example :
  is_modifier_name "strengthmod" = true /\ drop_last 3 "strengthmod" = "strength"
  /\ is_modifier_name "mod" = false.
Proof. repeat split. Qed.

Example class_level_example :
  is_class_level_name "fighterlevels" = true /\ strip_levels "fighterlevels" = "fighter"
  /\ strip_levels "wizardlevel" = "wizard" /\ is_class_level_name "level" = false.
Proof. repeat split. Qed.

Example runtime_examples :
  Runtime.math_eval "3 + 2" = Some (VNum (num 5))
  /\ Runtime.math_eval "(10+2)*1.5" = Some (VNum (num 18))
  /\ Runtime.math_eval "2--1" = Some (VNum (num 3))
  /\ Runtime.math_eval "NaN + 2" = Some (VNum NaN)
  /\ Runtime.math_eval "strength + 2" = None
  /\ Runtime.math_eval "1/0" = Some (VNum PInf)
  /\ Runtime.num_to_str (Fin (1 # 2)) = "0.5"
  /\ Runtime.num_to_str (num (-3)) = "-3"
  /\ Runtime.num_to_str (Fin (-7 # 4)) = "-1.75"
  /\ Runtime.str_to_num "12" = num 12
  /\ Runtime.str_to_num "" = num 0
  /\ Runtime.str_to_num "abc" = NaN.
Proof. vm_compute. repeat split. Qed.

(** ** Association lists and the store *)

Lemma lookup_assign_same {A : Type} (k : string) (v : A) (m : list (string * A)) :
  lookup k (assign k v m) = Some v.
Proof.
  induction m as [| [k' v'] m IH]; simpl.
  - now rewrite String.eqb_refl.
  - destruct (String.eqb k k') eqn:E; simpl; rewrite E; auto.
Qed.

Lemma lookup_assign_other {A : Type} (k k0 : string) (v : A) (m : list (string * A)) :
  k0 <> k -> lookup k0 (assign k v m) = lookup k0 m.
Proof.
  intros Hne. induction m as [| [k' v'] m IH]; simpl.
  - apply String.eqb_neq in Hne. now rewrite Hne.
  - destruct (String.eqb k k') eqn:E; simpl.
    + apply String.eqb_eq in E; subst k'.
      apply String.eqb_neq in Hne. now rewrite Hne.
    + now rewrite IH.
Qed.

Lemma defined_assign {A : Type} (k k0 : string) (v : A) (m : list (string * A)) :
  defined k0 m = true -> defined k0 (assign k v m) = true.
Proof.
  unfold defined. intros H.
  destruct (string_dec k0 k) as [-> | Hne].
  - now rewrite lookup_assign_same.
  - now rewrite lookup_assign_other.
Qed.

Lemma deref_store_same (r : sref) (s : Stat.t) (c : character) :
  deref r (store r s c) = Some s.
Proof. destruct r; simpl; apply lookup_assign_same. Qed.

(** ** Clamping *)

Lemma jlt_Qlt (x y : Q) : jlt (Fin x) (Fin y) = true <-> (x < y)%Q.
Proof.
  simpl. rewrite negb_true_iff. split; intros H.
  - apply Qnot_le_lt. intros Hle. apply Qle_bool_iff in Hle. congruence.
  - destruct (Qle_bool y x) eqn:E; auto.
    apply Qle_bool_iff in E. exfalso. now apply (Qlt_not_le x y).
Qed.

Lemma jlt_irrefl (a : jsnum) : jlt a a = false.
Proof.
  destruct a; simpl; auto.
  apply negb_false_iff, Qle_bool_iff, Qle_refl.
Qed.

Lemma jlt_asym (a b : jsnum) : jlt a b = true -> jlt b a = false.
Proof.
  destruct a as [x | | |], b as [y | | |]; simpl; auto; try discriminate.
  intros H. apply negb_true_iff in H.
  apply negb_false_iff, Qle_bool_iff.
  destruct (Qlt_le_dec y x) as [Hlt | Hle].
  - apply Qlt_le_weak in Hlt. apply Qle_bool_iff in Hlt. congruence.
  - exact Hle.
Qed.

Lemma jlt_trans (a b c : jsnum) : jlt a b = true -> jlt b c = true -> jlt a c = true.
Proof.
  destruct a as [x | | |], b as [y | | |], c as [z | | |];
    simpl; auto; try discriminate.
  intros H1 H2. apply (jlt_Qlt x z).
  apply (jlt_Qlt x y) in H1. apply (jlt_Qlt y z) in H2.
  now apply Qlt_trans with y.
Qed.

(** The two [if]s of the combiners are [Math.min(Math.max(x, lo), hi)]
    whenever the bounds are numbers other than NaN. *)
Lemma two_ifs_clamp (lo hi x : jsnum) :
  lo <> NaN -> hi <> NaN ->
  (let r1 := if jlt x lo then lo else x in
   if jlt hi r1 then hi else r1) = clamp lo hi x.
Proof.
  intros Hlo Hhi. unfold clamp, jmax, jmin.
  destruct x as [x | | |], lo as [lo | | |], hi as [hi | | |];
    try congruence; cbv zeta;
    repeat match goal with
           | |- context [if ?b then _ else _] => destruct b eqn:?
           end; try reflexivity; try discriminate.
Qed.

(** A clamped number lies between the bounds when the bounds are in
    order. *)
Lemma clamp_between (lo hi x : jsnum) :
  lo <> NaN -> hi <> NaN -> jlt hi lo = false ->
  jlt (clamp lo hi x) lo = false /\ jlt hi (clamp lo hi x) = false.
Proof.
  intros Hlo Hhi Hord. rewrite <- (two_ifs_clamp lo hi x Hlo Hhi). cbv zeta.
  destruct (jlt x lo) eqn:E1.
  - rewrite Hord. split; [apply jlt_irrefl | exact Hord].
  - destruct (jlt hi x) eqn:E2.
    + split; [exact Hord | apply jlt_irrefl].
    + split; assumption.
Qed.

(** A number already between the bounds is left alone. *)
Lemma clamp_inside (lo hi x : jsnum) :
  lo <> NaN -> hi <> NaN -> jlt x lo = false -> jlt hi x = false ->
  clamp lo hi x = x.
Proof.
  intros Hlo Hhi H1 H2. rewrite <- (two_ifs_clamp lo hi x Hlo Hhi). cbv zeta.
  now rewrite H1, H2.
Qed.

(** ** The combiners *)

Section Combiners.
Variable num_to_str : jsnum -> string.
Variable str_to_num : string -> jsnum.



End Combiners.




(** ** buildCharacter and the proficiencies *)

Lemma skills_after_attributes (l : list Raw.attribute) (c : character) :
  skills (fold_left add_attribute l c) = skills c.
Proof.
  revert c. induction l as [| a l IH]; intros c; simpl; auto.
  rewrite IH. unfold add_attribute.
  now destruct (defined (Raw.att_variableName a) (atts c)).
Qed.

Lemma skills_after_damageMultipliers (l : list Raw.damageMultiplier) (c : character) :
  skills (fold_left add_damageMultiplier l c) = skills c.
Proof.
  revert c. induction l as [| a l IH]; intros c; simpl; auto.
  rewrite IH. unfold add_damageMultiplier.
  now destruct (defined (Raw.dm_variableName a) (dms c)).
Qed.

Lemma skills_after_classes (l : list Raw.class) (c : character) :
  skills (fold_left add_class l c) = skills c.
Proof.
  revert c. induction l as [| a l IH]; intros c; simpl; auto.
  rewrite IH. unfold add_class.
  now destruct (defined (Raw.class_name a) (classes c)).
Qed.

Lemma add_skill_keeps (n : string) (s : Raw.skill) (c : character) :
  defined n (skills c) = true -> defined n (skills (add_skill c s)) = true.
Proof.
  intros H. unfold add_skill.
  destruct (defined (Raw.skill_variableName s) (skills c)); simpl; auto.
  now apply defined_assign.
Qed.

Lemma add_skill_defines (s : Raw.skill) (c : character) :
  defined (Raw.skill_variableName s) (skills (add_skill c s)) = true.
Proof.
  unfold add_skill.
  destruct (defined (Raw.skill_variableName s) (skills c)) eqn:E; simpl; auto.
  unfold defined. now rewrite lookup_assign_same.
Qed.

Lemma skills_after_skills (n : string) (l : list Raw.skill) (c : character) :
  defined n (skills c) = true \/ In n (map Raw.skill_variableName l) ->
  defined n (skills (fold_left add_skill l c)) = true.
Proof.
  revert c. induction l as [| s l IH]; intros c H; simpl in *.
  - destruct H as [H | []]; exact H.
  - apply IH. destruct H as [H | [<- | H]].
    + left. now apply add_skill_keeps.
    + left. apply add_skill_defines.
    + now right.
Qed.

Lemma add_effect_keeps (n : string) (e : Raw.effect) (c : character) :
  defined n (skills c) = true -> defined n (skills (add_effect c e)) = true.
Proof.
  intros H. unfold add_effect.
  destruct (lookup (Raw.effect_stat e) (atts c)); simpl; auto.
  destruct (lookup (Raw.effect_stat e) (skills c)); simpl.
  - now apply defined_assign.
  - destruct (lookup (Raw.effect_stat e) (dms c)); simpl; auto.
Qed.

Lemma skills_after_effects (n : string) (l : list Raw.effect) (c : character) :
  defined n (skills c) = true ->
  defined n (skills (fold_left add_effect l c)) = true.
Proof.
  revert c. induction l as [| e l IH]; intros c H; simpl; auto.
  apply IH. now apply add_effect_keeps.
Qed.

(** The proficiency loop either throws or leaves the character as it
    was: no proficiency is ever stored. *)
Lemma proficiency_loop_stores_nothing (l : list Raw.proficiency) (c c' : character) :
  forEach_throwing add_proficiency c l = inr c' -> c' = c.
Proof.
  revert c. induction l as [| p l IH]; intros c; simpl.
  - now intros [= <-].
  - unfold add_proficiency at 1.
    destruct (defined (Raw.prof_name p) (skills c)); [discriminate | apply IH].
Qed.

Lemma proficiency_loop_throws (l : list Raw.proficiency) (c : character) (p : Raw.proficiency) :
  In p l -> defined (Raw.prof_name p) (skills c) = true ->
  forEach_throwing add_proficiency c l = inl (ReferenceError "effect is not defined").
Proof.
  induction l as [| q l IH]; intros Hin Hdef; simpl in *; [contradiction |].
  unfold add_proficiency at 1.
  destruct (defined (Raw.prof_name q) (skills c)) eqn:E; auto.
  destruct Hin as [-> | Hin]; [congruence | now apply IH].
Qed.

(** C7 (what the code does instead). As soon as one enabled proficiency of
    type skill or save names a skill of the character, [buildCharacter]
    throws a ReferenceError: the proficiency is never attached, and no
    maximum is taken. *)
Theorem buildCharacter_throws_on_matching_proficiency
  (docs : Raw.documents) (p : Raw.proficiency) :
  In p (Raw.Proficiencies docs) ->
  Raw.prof_enabled p = true ->
  Raw.prof_type p = "skill" \/ Raw.prof_type p = "save" ->
  In (Raw.prof_name p) (map Raw.skill_variableName (Raw.Skills docs)) ->
  buildCharacter docs = inl (ReferenceError "effect is not defined").
Proof.
  intros Hin Hen Hty Hskill. unfold buildCharacter.
  apply proficiency_loop_throws with p.
  - apply filter_In. split; auto.
    unfold selected_proficiency. rewrite Hen. simpl.
    destruct Hty as [-> | ->]; reflexivity.
  - apply skills_after_effects.
    rewrite skills_after_classes, skills_after_damageMultipliers.
    apply skills_after_skills. now right.
Qed.

Lemma buildCharacter_throws_on_matching_proficiency_witness :
  buildCharacter athletics_documents = inl (ReferenceError "effect is not defined").
Proof.
  apply (buildCharacter_throws_on_matching_proficiency athletics_documents
           (Raw.mkProficiency "athletics" (num 1) "skill" true)).
  - simpl. left. reflexivity.
  - reflexivity.
  - left. reflexivity.
  - simpl. left. reflexivity.
Defined.

(** ** The expression evaluator *)

Section Evaluator.
Variable math_eval : string -> option value.
Variable num_to_str : jsnum -> string.
Variable str_to_num : string -> jsnum.

Local Abbreviation computeStat' := (computeStat math_eval num_to_str str_to_num).
Local Abbreviation substitute' := substitute.
Local Abbreviation replace' := (replace num_to_str).
Local Abbreviation evaluateCalculation' := (evaluateCalculation math_eval num_to_str).

(** Once the callback has returned for every token of a formula, giving
    the string [substituted], [evaluateCalculation] returns [substituted]
    itself when [math.eval] fails on it, and what [math.eval] returns when
    it succeeds (the empty formula is returned as it is, without
    evaluation). *)
Lemma evaluateCalculation_falls_back_to_text
  (rec : option sref -> M unit) (formula substituted : string) (w w' : world) :
  replace' rec (tokenize formula) w = Ok substituted w' ->
  (math_eval substituted = None ->
   evaluateCalculation' rec formula w = Ok (VStr substituted) w')
  /\ (forall result, formula <> "" -> math_eval substituted = Some result ->
      evaluateCalculation' rec formula w = Ok result w')
  /\ (exists v, evaluateCalculation' rec formula w = Ok v w').
Proof.
  intros Hsub.
  unfold evaluateCalculation.
  destruct (String.eqb formula "") eqn:E.
  - apply String.eqb_eq in E. subst formula.
    cbv in Hsub. injection Hsub as <- <-.
    repeat split.
    + intros result Hne. now contradiction Hne.
    + now exists (VStr "").
  - unfold bind. rewrite Hsub.
    repeat split.
    + intros ->. reflexivity.
    + intros result _ ->. reflexivity.
    + destruct (math_eval substituted); eexists; reflexivity.
Qed.

(** The [try] of [evaluateCalculation] encloses [math.eval] only: what
    the callback of [replace] throws leaves the function. *)
Lemma evaluateCalculation_rethrows
  (rec : option sref -> M unit) (formula : string) (w : world) (e : exn) :
  formula <> "" ->
  replace' rec (tokenize formula) w = Throw e ->
  evaluateCalculation' rec formula w = Throw e.
Proof.
  intros Hne Hthrow. unfold evaluateCalculation.
  destruct (String.eqb formula "") eqn:E; [apply String.eqb_eq in E; contradiction |].
  unfold bind. now rewrite Hthrow.
Qed.


(** The modifier branch of the callback hands [char.atts[sub]] to
    [computeStat], and [sub] still carries the suffix: the argument is
    [undefined]. *)
Lemma computeStat_undefined (fuel : nat) (w : world) :
  computeStat' (S fuel) None w = Throw (TypeError "property of undefined").
Proof. reflexivity. Qed.

(** C8 (what the code does instead). For a token that ends in "mod" and
    whose prefix names an attribute that is not computed yet, the callback
    throws a TypeError instead of computing the attribute. *)
Theorem modifier_of_uncomputed_attribute_throws
  (fuel : nat) (matched : string) (w : world) (s : Stat.t) :
  defined (toLowerCase matched) (atts (char w)) = false ->
  is_modifier_name (toLowerCase matched) = true ->
  lookup (drop_last 3 (toLowerCase matched)) (atts (char w)) = Some s ->
  Stat.computed s = false ->
  substitute' (computeStat' (S fuel)) matched w
  = Throw (TypeError "property of undefined").
Proof.
  intros Hundef Hmod Hslice Hcomp.
  unfold substitute, bind, get_char.
  rewrite Hundef, Hmod. unfold defined at 1. rewrite Hslice. simpl.
  unfold read, object. simpl. rewrite Hslice. rewrite Hcomp. simpl.
  unfold defined in Hundef.
  destruct (lookup (toLowerCase matched) (atts (char w))); [discriminate |].
  reflexivity.
Qed.

(** When the attribute is already computed the callback returns its
    modifier, or NaN when the modifier is zero ([mod || NaN]). *)
Lemma modifier_of_computed_attribute
  (rec : option sref -> M unit) (matched : string) (w : world) (s : Stat.t) :
  defined (toLowerCase matched) (atts (char w)) = false ->
  is_modifier_name (toLowerCase matched) = true ->
  lookup (drop_last 3 (toLowerCase matched)) (atts (char w)) = Some s ->
  Stat.computed s = true ->
  substitute' rec matched w
  = Ok (VNum (if num_truthy (Stat.modifier s) then Stat.modifier s else NaN)) w.
Proof.
  intros Hundef Hmod Hslice Hcomp.
  unfold substitute, bind, get_char.
  rewrite Hundef, Hmod. unfold defined at 1. rewrite Hslice. simpl.
  unfold read. simpl. rewrite Hslice. rewrite Hcomp. simpl.
  rewrite Hslice. reflexivity.
Qed.

End Evaluator.

(** With strength computed first, "strengthMod + 2" is 3 + 2. *)
Example strength_first_computes :
  results (Runtime.recompute 3 (strength_documents true))
  = Some [("strength", VNum (num 16)); ("armor", VNum (num 15))].
Proof. vm_compute. reflexivity. Qed.

(** With armor computed first, whatever the runtime and however much fuel,
    the recompute pass throws. *)
Example armor_first_throws
  (math_eval : string -> option value) (num_to_str : jsnum -> string)
  (str_to_num : string -> jsnum) (fuel : nat) :
  computeCharacterById math_eval num_to_str str_to_num (S (S fuel))
    (strength_documents false)
  = Throw (TypeError "property of undefined").
Proof. reflexivity. Qed.

(** Once strength is computed with modifier 3, "strengthMod + 2" is 5,
    and the scheduler is not called. *)
Example strengthMod_plus_2 :
  evaluateCalculation Runtime.math_eval Runtime.num_to_str (fun _ => throw (TypeError "unused"))
    "strengthMod + 2" computed_strength_world
  = Ok (VNum (num 5)) computed_strength_world.
Proof. vm_compute. reflexivity. Qed.

(** A modifier of 0 is substituted as NaN: [mod || NaN]. *)
Example zero_modifier_is_NaN :
  results (Runtime.recompute 3 average_strength_documents)
  = Some [("strength", VNum (num 10)); ("armor", VNum NaN)].
Proof. vm_compute. reflexivity. Qed.

Lemma modifier_of_uncomputed_attribute_throws_witness :
  substitute (computeStat Runtime.math_eval Runtime.num_to_str Runtime.str_to_num 1)
    "strengthMod" strength_world
  = Throw (TypeError "property of undefined").
Proof.
  apply (modifier_of_uncomputed_attribute_throws
           Runtime.math_eval Runtime.num_to_str Runtime.str_to_num 0
           "strengthMod" strength_world
           (new_attribute (Raw.mkAttribute "strength" "ability" (Some (num 16)) false)));
    reflexivity.
Defined.

(** A formula whose only token names nothing is returned as text. *)
Example bogus_plus_2_is_text :
  evaluateCalculation Runtime.math_eval Runtime.num_to_str (fun _ => ret tt)
    "bogus + 2" strength_world
  = Ok (VStr "bogus + 2") strength_world.
Proof. vm_compute. reflexivity. Qed.

(** ** Fuel *)

Lemma refines_refl {A : Type} (m : M A) : refines m m.
Proof. intros w _. reflexivity. Qed.

Lemma refines_bind {A B : Type} (m1 m2 : M A) (f1 f2 : A -> M B) :
  refines m1 m2 -> (forall a, refines (f1 a) (f2 a)) ->
  refines (bind m1 f1) (bind m2 f2).
Proof.
  intros Hm Hf w H. unfold bind in *.
  destruct (m1 w) as [a w' | e |] eqn:E.
  - rewrite (Hm w) by (rewrite E; discriminate). rewrite E. now apply Hf.
  - rewrite (Hm w) by (rewrite E; discriminate). now rewrite E.
  - contradiction.
Qed.

Lemma refines_for_in (body1 body2 : nat -> M unit) (n : nat) :
  (forall k, refines (body1 k) (body2 k)) ->
  forall from, refines (for_in n from body1) (for_in n from body2).
Proof.
  intros Hb. induction n as [| n IH]; intros from; simpl.
  - apply refines_refl.
  - apply refines_bind; auto.
Qed.

(** Descend through binds, loops and branches that are the same on both
    sides. *)
Ltac mono Hrec :=
  repeat first
    [ apply refines_refl
    | apply Hrec
    | apply refines_bind; [| intro]
    | apply refines_for_in; intro
    | match goal with
      | |- refines (if ?b then _ else _) (if ?b then _ else _) => destruct b
      | |- refines (match ?x with _ => _ end) (match ?x with _ => _ end) => destruct x
      end ].

Section Fuel.
Variable math_eval : string -> option value.
Variable num_to_str : jsnum -> string.
Variable str_to_num : string -> jsnum.
Variables rec1 rec2 : option sref -> M unit.
Hypothesis Hrec : forall o, refines (rec1 o) (rec2 o).

Lemma ensure_computed_mono (r : sref) :
  refines (ensure_computed rec1 r) (ensure_computed rec2 r).
Proof. unfold ensure_computed. mono Hrec. Qed.

Lemma substitute_mono (t : string) :
  refines (substitute rec1 t) (substitute rec2 t).
Proof.
  unfold substitute. pose proof ensure_computed_mono as He. mono Hrec; apply He || idtac.
Qed.

Lemma replace_mono (ps : list piece) :
  refines (replace num_to_str rec1 ps) (replace num_to_str rec2 ps).
Proof.
  induction ps as [| [c | t] ps IH]; simpl.
  - apply refines_refl.
  - mono Hrec. exact IH.
  - apply refines_bind; [apply substitute_mono | intro].
    mono Hrec. exact IH.
Qed.

Lemma evaluateCalculation_mono (formula : string) :
  refines (evaluateCalculation math_eval num_to_str rec1 formula)
          (evaluateCalculation math_eval num_to_str rec2 formula).
Proof.
  unfold evaluateCalculation.
  destruct (String.eqb formula ""); [apply refines_refl |].
  apply refines_bind; [apply replace_mono | intro]. apply refines_refl.
Qed.

Lemma computeEffect_mono (target : option (sref * nat)) :
  refines (computeEffect math_eval num_to_str rec1 target)
          (computeEffect math_eval num_to_str rec2 target).
Proof.
  unfold computeEffect. pose proof evaluateCalculation_mono as He.
  apply refines_bind; [apply refines_refl | intros effect].
  destruct (Effect.computed effect); [apply refines_refl |].
  apply refines_bind; [| intro; apply refines_refl].
  destruct (Effect.value effect) as [[q | | |] |];
    try apply refines_refl;
    (destruct (String.eqb (Effect.operation effect) "conditional");
     [apply refines_refl |];
     destruct (existsb _ _); [apply refines_refl |];
     destruct (Effect.calculation effect); [| apply refines_refl];
     apply refines_bind; [apply He | intro; apply refines_refl]).
Qed.

Lemma combineSkill_mono (r : sref) :
  refines (combineSkill num_to_str str_to_num rec1 r)
          (combineSkill num_to_str str_to_num rec2 r).
Proof.
  unfold combineSkill. pose proof ensure_computed_mono as He.
  mono Hrec; apply He || idtac.
Qed.

Lemma combineStat_mono (r : sref) :
  refines (combineStat num_to_str str_to_num rec1 r)
          (combineStat num_to_str str_to_num rec2 r).
Proof.
  unfold combineStat. pose proof combineSkill_mono as Hs.
  apply refines_bind; [apply refines_refl | intros stat].
  destruct (Stat.type stat); try apply refines_refl. apply Hs.
Qed.

Lemma computeStat_body_mono (stat : option sref) :
  refines (computeStat_body math_eval num_to_str str_to_num rec1 stat)
          (computeStat_body math_eval num_to_str str_to_num rec2 stat).
Proof.
  unfold computeStat_body. destruct stat as [r |]; [| apply refines_refl].
  apply refines_bind; [apply refines_refl | intros s].
  destruct (Stat.computed s); [apply refines_refl |].
  destruct (Stat.busyComputing s); [apply refines_refl |].
  apply refines_bind; [| intro; apply refines_bind;
                          [apply combineStat_mono | intro; apply refines_refl]].
  apply refines_for_in. intros k.
  apply refines_bind; [apply refines_refl | intro].
  apply refines_bind; [apply refines_refl | intro].
  apply refines_bind; [apply refines_refl | intro].
  apply refines_bind; [apply computeEffect_mono | intro].
  apply refines_refl.
Qed.

End Fuel.

Section MoreFuel.
Variable math_eval : string -> option value.
Variable num_to_str : jsnum -> string.
Variable str_to_num : string -> jsnum.

Local Abbreviation computeStat' := (computeStat math_eval num_to_str str_to_num).

Lemma computeStat_one_more (fuel : nat) :
  forall o, refines (computeStat' fuel o) (computeStat' (S fuel) o).
Proof.
  induction fuel as [| fuel IH]; intros o.
  - intros w H. now contradiction H.
  - apply (computeStat_body_mono _ _ _ _ _ IH).
Qed.

(** More fuel never changes what a computation returns. *)
Lemma computeStat_more_fuel (fuel extra : nat) (o : option sref) :
  refines (computeStat' fuel o) (computeStat' (extra + fuel) o).
Proof.
  induction extra as [| extra IH]; simpl plus.
  - apply refines_refl.
  - intros w H. rewrite (computeStat_one_more (extra + fuel) o w).
    + now apply IH.
    + rewrite (IH w H). exact H.
Qed.

Lemma compute_each_more_fuel (fuel extra : nat) (ref : string -> sref) (names : list string) :
  refines (compute_each math_eval num_to_str str_to_num fuel ref names)
          (compute_each math_eval num_to_str str_to_num (extra + fuel) ref names).
Proof.
  induction names as [| n names IH]; simpl.
  - apply refines_refl.
  - apply refines_bind; [| intro; exact IH].
    apply refines_bind; [apply refines_refl | intro].
    apply computeStat_more_fuel.
Qed.

Lemma computeCharacter_more_fuel (fuel extra : nat) :
  refines (computeCharacter math_eval num_to_str str_to_num fuel)
          (computeCharacter math_eval num_to_str str_to_num (extra + fuel)).
Proof.
  unfold computeCharacter.
  repeat (apply refines_bind; [| intro]);
    try apply refines_refl; apply compute_each_more_fuel.
Qed.

End MoreFuel.

(** ** Dependency cycles *)

Section Cycle.
Variable math_eval : string -> option value.
Variable num_to_str : jsnum -> string.
Variable str_to_num : string -> jsnum.

Local Abbreviation body := (computeStat_body math_eval num_to_str str_to_num).

(** Nothing marks a stat as busy before its effects are computed, so an
    activation for a reaches the activation for b in the very state it
    started from, and the other way round. *)
Lemma a_waits_for_b (rec : option sref -> M unit) :
  rec (Some (InAtts "b")) (mkWorld cycle_character 0) = Diverge ->
  body rec (Some (InAtts "a")) (mkWorld cycle_character 0) = Diverge.
Proof.
  intros H. run_until_call.
  change_call rec (rec (Some (InAtts "b")) (mkWorld cycle_character 0)).
  now rewrite H.
Qed.

Lemma b_waits_for_a (rec : option sref -> M unit) :
  rec (Some (InAtts "a")) (mkWorld cycle_character 0) = Diverge ->
  body rec (Some (InAtts "b")) (mkWorld cycle_character 0) = Diverge.
Proof.
  intros H. run_until_call.
  change_call rec (rec (Some (InAtts "a")) (mkWorld cycle_character 0)).
  now rewrite H.
Qed.

Lemma cycle_never_returns (fuel : nat) :
  computeStat math_eval num_to_str str_to_num fuel
    (Some (InAtts "a")) (mkWorld cycle_character 0) = Diverge
  /\ computeStat math_eval num_to_str str_to_num fuel
       (Some (InAtts "b")) (mkWorld cycle_character 0) = Diverge.
Proof.
  induction fuel as [| fuel [IHa IHb]].
  - split; reflexivity.
  - split.
    + exact (a_waits_for_b _ IHb).
    + exact (b_waits_for_a _ IHa).
Qed.

(** C1 (what the code does instead). On the character whose stats a and b
    refer to each other, the recompute pass does not return, whatever the
    amount of fuel: no stat ends as NaN and stat c is never reached. *)
Theorem cyclic_character_never_returns (fuel : nat) :
  computeCharacterById math_eval num_to_str str_to_num fuel cycle_documents
  = Diverge.
Proof.
  destruct (cycle_never_returns fuel) as [Ha _].
  set (rec := computeStat math_eval num_to_str str_to_num fuel) in *.
  unfold computeCharacterById.
  change (buildCharacter cycle_documents) with (@inr exn _ cycle_character).
  cbv beta iota.
  unfold computeCharacter, bind at 1, get_char at 1.
  change (map fst (atts (char (mkWorld cycle_character 0)))) with ["a"; "b"; "c"].
  unfold bind at 1. unfold compute_each at 1. fold rec.
  unfold bind at 1. unfold bind at 1.
  change (object (InAtts "a") (mkWorld cycle_character 0))
    with (Ok (Some (InAtts "a")) (mkWorld cycle_character 0)).
  cbv beta iota. now rewrite Ha.
Qed.

(** The busy branch of [computeStat] is taken only by a stat whose
    [busyComputing] is already set, and no assignment of the engine sets
    it: every stat object that [buildCharacter] makes starts with it
    cleared. *)
Lemma new_stats_are_not_busy (a : Raw.attribute) (s : Raw.skill) :
  Stat.busyComputing (new_attribute a) = false
  /\ Stat.busyComputing (new_skill s) = false
  /\ Stat.busyComputing new_damageMultiplier = false.
Proof. repeat split. Qed.

End Cycle.

(** ** The shared loop variable *)

(** C2 (what the code does instead). The two characters below hold the
    same stats and differ only in the enumeration order of [char.atts];
    the recompute pass returns on both, with result 5 for stat a in one
    order and 8 in the other. Computing a first, the nested computation of
    b leaves the global [i] at 1, so the effect applied after "add b" is
    computed is [a.effects[1]], not [a.effects[0]]. *)
Theorem enumeration_order_changes_results (extra : nat) :
  let a_then_b := built (shared_i_documents true) in
  let b_then_a := built (shared_i_documents false) in
  let fuel := (extra + 2)%nat in
  Permutation (atts a_then_b) (atts b_then_a)
  /\ map fst (atts a_then_b) = ["a"; "b"]
  /\ map fst (atts b_then_a) = ["b"; "a"]
  /\ result_of "a" (Runtime.run fuel (mkWorld a_then_b 0)) = Some (VNum (num 5))
  /\ result_of "b" (Runtime.run fuel (mkWorld a_then_b 0)) = Some (VNum (num 3))
  /\ result_of "a" (Runtime.run fuel (mkWorld b_then_a 0)) = Some (VNum (num 8))
  /\ result_of "b" (Runtime.run fuel (mkWorld b_then_a 0)) = Some (VNum (num 3)).
Proof.
  cbv zeta.
  assert (Hfuel : forall w, Runtime.run 2 w <> Diverge ->
                            Runtime.run (extra + 2)%nat w = Runtime.run 2 w).
  { intros w. apply (computeCharacter_more_fuel _ _ _ 2 extra w). }
  rewrite (Hfuel (mkWorld (built (shared_i_documents true)) 0))
    by (vm_compute; discriminate).
  rewrite (Hfuel (mkWorld (built (shared_i_documents false)) 0))
    by (vm_compute; discriminate).
  vm_compute. split; [apply perm_swap | repeat split].
Qed.

(** C3 (what the code does instead). The recompute pass throws on each of
    these characters. With one skill and one enabled proficiency for it,
    [buildCharacter] evaluates the unbound name [effect] (a
    ReferenceError). With armor listed before strength and the formula
    "strengthMod + 2", the callback hands [undefined] to [computeStat] (a
    TypeError). With a's single effect "add b" and two effects on b, the
    global [i] is 1 when the computation of b returns, and [applyEffect]
    dereferences [a.effects[1]], which is [undefined] (a TypeError). *)
Theorem recompute_can_throw
  (math_eval : string -> option value) (num_to_str : jsnum -> string)
  (str_to_num : string -> jsnum) (fuel : nat) :
  computeCharacterById math_eval num_to_str str_to_num fuel athletics_documents
  = Throw (ReferenceError "effect is not defined")
  /\ computeCharacterById math_eval num_to_str str_to_num (S (S fuel))
       (strength_documents false)
     = Throw (TypeError "property of undefined")
  /\ Runtime.recompute (S (S fuel)) leaking_i_documents
     = Throw (TypeError "property of undefined").
Proof.
  split; [reflexivity | split; [reflexivity |]].
  unfold Runtime.recompute. vm_compute. reflexivity.
Qed.

(** ** Tokens and the names they can reach *)

Lemma longest_in_class (rest : list ascii) :
  forall last n, longest last rest = Some n ->
  forallb in_class (firstn n rest) = true.
Proof.
  induction rest as [| c rest IH]; intros last n H; simpl in H.
  - destruct (boundary (Some last) None); inversion H; reflexivity.
  - destruct (in_class c) eqn:Ec.
    + destruct (longest c rest) as [m |] eqn:El.
      * inversion H; subst. simpl. rewrite Ec. simpl. now apply IH with c.
      * destruct (boundary (Some last) (Some c)); inversion H; reflexivity.
    + destruct (boundary (Some last) (Some c)); inversion H; reflexivity.
Qed.

Lemma match_at_in_class (before : option ascii) (s : list ascii) (len : nat) :
  match_at before s = Some len ->
  forallb in_class (firstn len s) = true /\ len <> 0%nat.
Proof.
  destruct s as [| c rest]; simpl; [discriminate |].
  destruct (boundary before (Some c)); simpl; [| discriminate].
  destruct (in_class c) eqn:Ec; simpl; [| discriminate].
  destruct (longest c rest) as [n |] eqn:El; simpl; [| discriminate].
  intros [= <-]. split; [| discriminate].
  simpl. rewrite Ec. simpl. now apply longest_in_class with c.
Qed.

Lemma pieces_cons (before : option ascii) (skip : nat) (c : ascii) (rest : list ascii) :
  pieces before skip (c :: rest) =
  match skip with
  | S k => pieces (Some c) k rest
  | O =>
      match match_at before (c :: rest) with
      | Some len =>
          Token (string_of_list_ascii (firstn len (c :: rest)))
            :: pieces (Some c) (len - 1) rest
      | None => Text c :: pieces (Some c) O rest
      end
  end.
Proof. reflexivity. Qed.

Lemma pieces_in_class (s : list ascii) :
  forall before skip t, In (Token t) (pieces before skip s) ->
  forallb in_class (chars t) = true /\ t <> "".
Proof.
  induction s as [| c rest IH]; intros before skip t Hin.
  - contradiction.
  - rewrite pieces_cons in Hin. destruct skip as [| k].
    + destruct (match_at before (c :: rest)) as [len |] eqn:Em.
      * destruct Hin as [Heq | Hin]; [| now apply IH in Hin].
        injection Heq as <-. apply match_at_in_class in Em.
        destruct Em as [Hclass Hlen]. unfold chars.
        rewrite list_ascii_of_string_of_list_ascii. split; auto.
        destruct len; [congruence | simpl; discriminate].
      * destruct Hin as [Heq | Hin]; [discriminate | now apply IH in Hin].
    + now apply IH in Hin.
Qed.

Lemma lower_in_lowered_class (c : ascii) :
  in_class c = true -> in_lowered_class (lower c) = true.
Proof.
  destruct c as [b0 b1 b2 b3 b4 b5 b6 b7].
  destruct b0, b1, b2, b3, b4, b5, b6, b7; vm_compute; auto.
Qed.

Lemma lowered_class_not_upper_or_zero (c : ascii) :
  in_lowered_class c = true -> is_upper c || Nat.eqb (code c) 48 = false.
Proof.
  destruct c as [b0 b1 b2 b3 b4 b5 b6 b7].
  destruct b0, b1, b2, b3, b4, b5, b6, b7; vm_compute; auto.
Qed.

Lemma chars_toLowerCase (t : string) : chars (toLowerCase t) = map lower (chars t).
Proof. unfold chars, toLowerCase. apply list_ascii_of_string_of_list_ascii. Qed.

Lemma toLowerCase_lowered (t : string) :
  forallb in_class (chars t) = true ->
  forallb in_lowered_class (chars (toLowerCase t)) = true.
Proof.
  rewrite chars_toLowerCase. induction (chars t) as [| c l IH]; simpl; auto.
  intros H. apply andb_true_iff in H. destruct H as [Hc Hl].
  rewrite (lower_in_lowered_class c Hc). simpl. auto.
Qed.

Lemma lowered_has_no_upper_or_zero (s : string) :
  forallb in_lowered_class (chars s) = true -> has_upper_or_zero s = false.
Proof.
  unfold has_upper_or_zero. induction (chars s) as [| c l IH]; simpl; auto.
  intros H. apply andb_true_iff in H. destruct H as [Hc Hl].
  rewrite (lowered_class_not_upper_or_zero c Hc). simpl. auto.
Qed.

Lemma substring_lowered (s : string) :
  forall n m, forallb in_lowered_class (chars s) = true ->
  forallb in_lowered_class (chars (substring n m s)) = true.
Proof.
  induction s as [| c s IH]; intros n m H.
  - destruct n, m; reflexivity.
  - simpl in H. apply andb_true_iff in H. destruct H as [Hc Hs].
    destruct n as [| n]; destruct m as [| m]; simpl; auto.
    rewrite Hc. simpl. apply (IH 0%nat m Hs).
Qed.

Lemma drop_last_lowered (n : nat) (s : string) :
  forallb in_lowered_class (chars s) = true ->
  forallb in_lowered_class (chars (drop_last n s)) = true.
Proof. apply substring_lowered. Qed.

(** The keys a token is looked up under are never a name with an uppercase
    letter or a 0 in it. *)
Lemma token_keys (t name : string) :
  forallb in_class (chars t) = true ->
  has_upper_or_zero name = true ->
  toLowerCase t <> name /\ drop_last 3 (toLowerCase t) <> name.
Proof.
  intros Hclass Hname.
  pose proof (toLowerCase_lowered t Hclass) as Hlow.
  split; intros Heq.
  - apply lowered_has_no_upper_or_zero in Hlow. congruence.
  - apply (drop_last_lowered 3) in Hlow.
    apply lowered_has_no_upper_or_zero in Hlow. congruence.
Qed.

Lemma zero_not_in_class (c : ascii) :
  Nat.eqb (code c) 48 = true -> in_class c = false.
Proof.
  destruct c as [b0 b1 b2 b3 b4 b5 b6 b7].
  destruct b0, b1, b2, b3, b4, b5, b6, b7; vm_compute; auto; discriminate.
Qed.

Lemma class_has_no_zero (l : list ascii) :
  forallb in_class l = true -> existsb (fun c => Nat.eqb (code c) 48) l = false.
Proof.
  induction l as [| c l IH]; simpl; auto.
  intros H. apply andb_true_iff in H. destruct H as [Hc Hl].
  rewrite (IH Hl). destruct (Nat.eqb (code c) 48) eqn:E; auto.
  apply zero_not_in_class in E. congruence.
Qed.

(** Inside a run of word characters [\b] holds nowhere: a match that
    starts in the run has to reach its end. *)
Lemma longest_in_word (rest : list ascii) :
  forall last n, is_word last = true -> forallb is_word rest = true ->
  longest last rest = Some n -> forallb in_class rest = true.
Proof.
  induction rest as [| c rest IH]; intros last n Hlast Hrest H; auto.
  simpl in Hrest. apply andb_true_iff in Hrest. destruct Hrest as [Hc Hrest].
  simpl in H. unfold boundary in H. simpl in H. rewrite Hlast, Hc in H. simpl in H.
  destruct (in_class c) eqn:Ec; [| discriminate].
  destruct (longest c rest) as [m |] eqn:El; [| discriminate].
  simpl. rewrite Ec. simpl. now apply (IH c m).
Qed.

Lemma no_token_inside_word (s : list ascii) :
  forall before t, is_word before = true -> forallb is_word s = true ->
  ~ In (Token t) (pieces (Some before) 0 s).
Proof.
  induction s as [| c rest IH]; intros before t Hb Hs Hin; [contradiction |].
  simpl in Hs. apply andb_true_iff in Hs. destruct Hs as [Hc Hrest].
  rewrite pieces_cons in Hin. unfold match_at, boundary in Hin. simpl in Hin.
  rewrite Hb, Hc in Hin. simpl in Hin.
  destruct Hin as [Heq | Hin]; [discriminate |].
  now apply (IH c t Hc Hrest).
Qed.

(** A name made of word characters with a 0 in it holds no token: written
    in a formula between non-word characters, it is left as it is. *)
Lemma name_with_zero_has_no_token (name t : string) :
  forallb is_word (chars name) = true -> has_zero name = true ->
  ~ In (Token t) (tokenize name).
Proof.
  unfold has_zero, tokenize. fold (chars name).
  destruct (chars name) as [| c rest]; [discriminate |].
  intros Hword Hzero Hin.
  simpl in Hword. apply andb_true_iff in Hword. destruct Hword as [Hc Hrest].
  rewrite pieces_cons in Hin.
  destruct (match_at None (c :: rest)) as [len |] eqn:Em.
  - unfold match_at in Em. destruct (boundary None (Some c)); [| discriminate].
    simpl in Em. destruct (in_class c) eqn:Ec; [| discriminate].
    destruct (longest c rest) as [n |] eqn:El; [| discriminate].
    apply (longest_in_word rest c n Hc Hrest) in El.
    assert (Hall : forallb in_class (c :: rest) = true) by (simpl; now rewrite Ec, El).
    apply class_has_no_zero in Hall. congruence.
  - destruct Hin as [Heq | Hin]; [discriminate |].
    now apply (no_token_inside_word rest c t Hc Hrest).
Qed.

Lemma lookup_in_keys {A : Type} (k : string) (m : list (string * A)) (v : A) :
  lookup k m = Some v -> In k (map fst m).
Proof.
  induction m as [| [k' v'] m IH]; simpl; [discriminate |].
  destruct (String.eqb k k') eqn:E.
  - apply String.eqb_eq in E. auto.
  - auto.
Qed.

Lemma undefined_among {A : Type} (k : string) (m : list (string * A)) :
  (forall k', In k' (map fst m) -> has_upper_or_zero k' = true) ->
  has_upper_or_zero k = false ->
  defined k m = false.
Proof.
  intros Hall Hk. unfold defined.
  destruct (lookup k m) as [v |] eqn:E; auto.
  apply lookup_in_keys in E. apply Hall in E. congruence.
Qed.

Section Unreachable.
Variable math_eval : string -> option value.
Variable num_to_str : jsnum -> string.

(** In a character all of whose stats have an uppercase letter or a 0 in
    their name, the callback finds no stat: it returns without calling
    [computeStat] and without touching the state, as it does on the
    character that has no stats. *)
Lemma substitute_without_stats (rec rec' : option sref -> M unit) (t : string) (w : world) :
  forallb in_class (chars t) = true ->
  (forall k, In k (stat_names (char w)) -> has_upper_or_zero k = true) ->
  exists v, substitute rec t w = Ok v w
            /\ substitute rec' t (without_stats w) = Ok v (without_stats w).
Proof.
  intros Hclass Hall.
  pose proof (toLowerCase_lowered t Hclass) as Hlow.
  pose proof (lowered_has_no_upper_or_zero _ Hlow) as Hsub.
  pose proof (lowered_has_no_upper_or_zero _ (drop_last_lowered 3 _ Hlow)) as Hslice.
  assert (Ha : forall k, has_upper_or_zero k = false -> defined k (atts (char w)) = false).
  { intros k Hk. apply undefined_among; auto.
    intros k' Hin. apply Hall. unfold stat_names. apply in_or_app. now left. }
  assert (Hs : forall k, has_upper_or_zero k = false -> defined k (skills (char w)) = false).
  { intros k Hk. apply undefined_among; auto.
    intros k' Hin. apply Hall. unfold stat_names.
    apply in_or_app. right. apply in_or_app. now left. }
  assert (Hd : forall k, has_upper_or_zero k = false -> defined k (dms (char w)) = false).
  { intros k Hk. apply undefined_among; auto.
    intros k' Hin. apply Hall. unfold stat_names.
    apply in_or_app. right. apply in_or_app. now right. }
  unfold substitute, bind, get_char.
  rewrite (Ha _ Hsub), (Ha _ Hslice), (Hs _ Hsub), (Hd _ Hsub).
  rewrite andb_false_r.
  simpl. rewrite andb_false_r.
  destruct (is_class_level_name (toLowerCase t)).
  - destruct (lookup (strip_levels (toLowerCase t)) (classes (char w)));
      eexists; split; reflexivity.
  - destruct (String.eqb (toLowerCase t) "level"); eexists; split; reflexivity.
Qed.

Lemma replace_without_stats (rec rec' : option sref -> M unit) (ps : list piece) (w : world) :
  (forall t, In (Token t) ps -> forallb in_class (chars t) = true) ->
  (forall k, In k (stat_names (char w)) -> has_upper_or_zero k = true) ->
  exists s, replace num_to_str rec ps w = Ok s w
            /\ replace num_to_str rec' ps (without_stats w) = Ok s (without_stats w).
Proof.
  intros Htok Hall. induction ps as [| p ps IH].
  - exists "". split; reflexivity.
  - destruct IH as (tail & H1 & H2).
    { intros t Hin. apply Htok. now right. }
    destruct p as [c | t]; simpl; unfold bind.
    + rewrite H1, H2. eexists; split; reflexivity.
    + destruct (substitute_without_stats rec rec' t w) as (v & Hv1 & Hv2); auto.
      { apply Htok. now left. }
      rewrite Hv1, Hv2, H1, H2. eexists; split; reflexivity.
Qed.

End Unreachable.

(** C10 as stated fails here: the reference "Level" does not pass through
    as text, it evaluates to the total level of the character. *)
Lemma reference_to_Level_is_resolved :
  defined "Level" (atts (char level_world)) = true
  /\ has_upper_or_zero "Level" = true
  /\ evaluateCalculation Runtime.math_eval Runtime.num_to_str (fun _ => ret tt)
       "Level" level_world
     = Ok (VNum (num 3)) level_world
  /\ forall text,
       evaluateCalculation Runtime.math_eval Runtime.num_to_str (fun _ => ret tt)
         "Level" level_world
       <> Ok (VStr text) level_world.
Proof.
  repeat split. intros text. vm_compute. discriminate.
Qed.

(** ** combineSkill *)

Lemma assign_assign {A : Type} (k : string) (v1 v2 : A) (m : list (string * A)) :
  assign k v2 (assign k v1 m) = assign k v2 m.
Proof.
  induction m as [| [k' v'] m IH]; simpl.
  - now rewrite String.eqb_refl.
  - destruct (String.eqb k k') eqn:E; simpl; rewrite E; auto.
    now rewrite IH.
Qed.

Lemma assign_same {A : Type} (k : string) (v : A) (m : list (string * A)) :
  lookup k m = Some v -> assign k v m = m.
Proof.
  induction m as [| [k' v'] m IH]; simpl; [discriminate |].
  destruct (String.eqb k k') eqn:E.
  - now intros [= ->].
  - intros H. now rewrite IH.
Qed.

Lemma defined_assign_present {A : Type} (k k0 : string) (v v0 : A) (m : list (string * A)) :
  lookup k m = Some v0 -> defined k0 (assign k v m) = defined k0 m.
Proof.
  intros H. unfold defined.
  destruct (string_dec k0 k) as [-> | Hne].
  - now rewrite lookup_assign_same, H.
  - now rewrite lookup_assign_other.
Qed.

Lemma store_store (r : sref) (s1 s2 : Stat.t) (c : character) :
  store r s2 (store r s1 c) = store r s2 c.
Proof. destruct r; unfold store; simpl; now rewrite assign_assign. Qed.

Lemma store_same (r : sref) (s : Stat.t) (c : character) :
  deref r c = Some s -> store r s c = c.
Proof.
  destruct r, c; unfold store; simpl; intros H; now rewrite assign_same.
Qed.

Lemma set_proficiency_same (s : Stat.t) :
  Stat.set_proficiency (Stat.proficiency s) s = s.
Proof. now destruct s. Qed.

Lemma set_proficiency_twice (p q : jsnum) (s : Stat.t) :
  Stat.set_proficiency q (Stat.set_proficiency p s) = Stat.set_proficiency q s.
Proof. now destruct s. Qed.

Section Skill.
Variable r : sref.

Lemma proficiency_loop (todo : list Proficiency.t) :
  forall (done : list Proficiency.t) (s : Stat.t) (c : character) (i : nat),
  deref r c = Some s ->
  Stat.proficiencies s = (done ++ todo)%list ->
  exists i',
    for_in (List.length todo) (List.length done) (proficiency_step r) (mkWorld c i)
    = Ok tt (mkWorld
               (store r (Stat.set_proficiency
                           (fold_left higher todo (Stat.proficiency s)) s) c)
               i').
Proof.
  induction todo as [| prof todo IH]; intros done s c i Hs Hall.
  - exists i. simpl. unfold ret.
    now rewrite set_proficiency_same, (store_same r s c Hs).
  - assert (Hnth : nth_error (Stat.proficiencies s) (List.length done) = Some prof).
    { rewrite Hall, nth_error_app2, Nat.sub_diag; auto. }
    set (s' := Stat.set_proficiency (higher (Stat.proficiency s) prof) s).
    assert (Hstep : proficiency_step r (List.length done) (mkWorld c i)
                    = Ok tt (mkWorld (store r s' c) (List.length done))).
    { unfold proficiency_step, bind, set_i, get_i, read, mutate, ret. simpl.
      rewrite Hs, Hnth. subst s'. unfold higher.
      destruct (jlt (Stat.proficiency s) (Proficiency.value prof)); simpl.
      - now rewrite Hs.
      - now rewrite set_proficiency_same, (store_same r s c Hs). }
    destruct (IH (done ++ [prof])%list s' (store r s' c) (List.length done)) as [i' Hrest].
    { apply deref_store_same. }
    { subst s'. destruct s; simpl in *. rewrite <- app_assoc. exact Hall. }
    exists i'. simpl for_in. unfold bind at 1. rewrite Hstep.
    rewrite length_app, Nat.add_1_r in Hrest. rewrite Hrest.
    subst s'. rewrite store_store, set_proficiency_twice.
    destruct s; reflexivity.
Qed.

End Skill.

Section SkillBonus.
Variable math_eval : string -> option value.
Variable num_to_str : jsnum -> string.
Variable str_to_num : string -> jsnum.
Variable rec : option sref -> M unit.


End SkillBonus.



(** ** What the builder and the effects leave in a stat *)

(** No operation of [applyEffect] finds its field in a damage multiplier:
    the counts of a damage multiplier are never incremented. *)
Lemma applyEffect_damageMultiplier
  (num_to_str : jsnum -> string) (str_to_num : string -> jsnum)
  (effect : Effect.t) (stat : Stat.t) :
  Stat.type stat = damageMultiplier ->
  applyEffect num_to_str str_to_num effect stat = inr stat.
Proof.
  intros Hty. destruct stat; simpl in Hty; subst.
  unfold applyEffect, applyEffect_first, applyEffect_min, applyEffect_last, and_then.
  cbn.
  repeat match goal with
         | |- context [String.eqb ?a ?b] => destruct (String.eqb a b); cbn
         end; reflexivity.
Qed.

(** The branch of [computeStat] for a stat that is busy: the stat ends
    computed, with result NaN and the flag cleared. *)
Lemma busy_stat_becomes_NaN
  (math_eval : string -> option value) (num_to_str : jsnum -> string)
  (str_to_num : string -> jsnum) (rec : option sref -> M unit)
  (r : sref) (w : world) (stat : Stat.t) :
  deref r (char w) = Some stat ->
  Stat.computed stat = false -> Stat.busyComputing stat = true ->
  computeStat_body math_eval num_to_str str_to_num rec (Some r) w
  = Ok tt (mkWorld
             (store r (Stat.set_busyComputing false
                         (Stat.set_result (VNum NaN)
                            (Stat.set_computed true stat)))
                    (char w))
             (global_i w)).
Proof.
  intros Hs Hc Hb. unfold computeStat_body, bind, read, mutate.
  now rewrite Hs, Hc, Hb, Hs.
Qed.

Lemma no_proficiency_fold {A : Type} (f : character -> A -> character) (l : list A) :
  (forall c a, no_proficiency c -> no_proficiency (f c a)) ->
  forall c, no_proficiency c -> no_proficiency (fold_left f l c).
Proof.
  intros Hf. induction l as [| a l IH]; intros c Hc; simpl; auto.
Qed.

Lemma no_proficiency_add_skill (c : character) (s : Raw.skill) :
  no_proficiency c -> no_proficiency (add_skill c s).
Proof.
  intros Hc. unfold add_skill.
  destruct (defined (Raw.skill_variableName s) (skills c)); auto.
  intros n st. simpl.
  destruct (string_dec n (Raw.skill_variableName s)) as [-> | Hne].
  - rewrite lookup_assign_same. intros [= <-]. split; reflexivity.
  - rewrite lookup_assign_other by exact Hne. apply Hc.
Qed.

Lemma no_proficiency_add_effect (c : character) (e : Raw.effect) :
  no_proficiency c -> no_proficiency (add_effect c e).
Proof.
  intros Hc. unfold add_effect.
  destruct (lookup (Raw.effect_stat e) (atts c)); [exact Hc |].
  destruct (lookup (Raw.effect_stat e) (skills c)) as [s |] eqn:Es.
  - intros n st. simpl.
    destruct (string_dec n (Raw.effect_stat e)) as [-> | Hne].
    + rewrite lookup_assign_same. intros [= <-].
      destruct (Hc _ _ Es) as [H1 H2]. destruct s; simpl in *. auto.
    + rewrite lookup_assign_other by exact Hne. apply Hc.
  - destruct (lookup (Raw.effect_stat e) (dms c)); exact Hc.
Qed.

(** Every skill of a character that [buildCharacter] returns has an empty
    list of proficiencies and proficiency level 0. *)
Lemma built_skills_have_no_proficiency (docs : Raw.documents) (c : character) :
  buildCharacter docs = inr c -> no_proficiency c.
Proof.
  unfold buildCharacter. intros H.
  apply proficiency_loop_stores_nothing in H. subst c.
  apply no_proficiency_fold; [apply no_proficiency_add_effect |].
  intros n s. rewrite skills_after_classes, skills_after_damageMultipliers.
  revert n s. apply no_proficiency_fold; [apply no_proficiency_add_skill |].
  intros n s. rewrite skills_after_attributes. discriminate.
Qed.

(** A damage multiplier without effects goes through [computeStat] as
    through its combiner: it ends computed, with the result of the
    table. *)
Lemma computeStat_damageMultiplier
  (math_eval : string -> option value) (num_to_str : jsnum -> string)
  (str_to_num : string -> jsnum) (rec : option sref -> M unit)
  (r : sref) (w : world) (stat : Stat.t) :
  deref r (char w) = Some stat ->
  Stat.type stat = damageMultiplier ->
  Stat.computed stat = false -> Stat.busyComputing stat = false ->
  Stat.effects stat = [] ->
  computeStat_body math_eval num_to_str str_to_num rec (Some r) w
  = Ok tt (mkWorld
             (store r (Stat.set_busyComputing false
                         (Stat.set_computed true (combineDamageMultiplier stat)))
                    (char w))
             (global_i w)).
Proof.
  intros Hs Hty Hc Hb He. destruct w as [c i]. simpl in *.
  unfold computeStat_body, combineStat, bind, read, mutate. simpl.
  rewrite Hs, Hc, Hb, He. simpl. rewrite Hs, Hty. cbn [char global_i].
  rewrite Hs. cbn [char global_i]. rewrite deref_store_same.
  now rewrite store_store.
Qed.

(** * Further properties *)

(** ** The formula and its pieces *)

Lemma string_of_list_ascii_app (l1 l2 : list ascii) :
  string_of_list_ascii (l1 ++ l2) = string_of_list_ascii l1 ++ string_of_list_ascii l2.
Proof. induction l1 as [| c l1 IH]; simpl; [| rewrite IH]; reflexivity. Qed.

Lemma longest_le (rest : list ascii) :
  forall last n, longest last rest = Some n -> (n <= List.length rest)%nat.
Proof.
  induction rest as [| c rest IH]; intros last n H; simpl in H.
  - destruct (boundary (Some last) None); inversion H; auto.
  - destruct (in_class c).
    + destruct (longest c rest) as [m |] eqn:El.
      * inversion H; subst. simpl. apply le_n_S. now apply IH with c.
      * destruct (boundary (Some last) (Some c)); inversion H; simpl; lia.
    + destruct (boundary (Some last) (Some c)); inversion H; simpl; lia.
Qed.

Lemma match_at_le (before : option ascii) (s : list ascii) (len : nat) :
  match_at before s = Some len -> (1 <= len <= List.length s)%nat.
Proof.
  destruct s as [| c rest]; simpl; [discriminate |].
  destruct (boundary before (Some c) && in_class c); [| discriminate].
  destruct (longest c rest) as [n |] eqn:El; simpl; [| discriminate].
  intros [= <-]. apply longest_le in El. lia.
Qed.

Lemma rejoin_pieces (s : list ascii) :
  forall before skip, (skip <= List.length s)%nat ->
  rejoin false (pieces before skip s) = string_of_list_ascii (skipn skip s).
Proof.
  induction s as [| c rest IH]; intros before skip Hle.
  - destruct skip; reflexivity.
  - rewrite pieces_cons. destruct skip as [| k].
    + destruct (match_at before (c :: rest)) as [len |] eqn:Em.
      * apply match_at_le in Em. destruct len as [| len]; [lia |].
        simpl in Em. simpl rejoin. rewrite Nat.sub_0_r.
        rewrite IH by lia. simpl. f_equal.
        rewrite <- string_of_list_ascii_app. now rewrite firstn_skipn.
      * simpl. f_equal. now apply (IH (Some c) 0%nat ltac:(lia)).
    + simpl in Hle. simpl. apply IH. lia.
Qed.

Lemma tokenize_loses_nothing_aux (formula : string) :
  rejoin false (tokenize formula) = formula.
Proof.
  unfold tokenize. rewrite rejoin_pieces by lia.
  simpl. apply string_of_list_ascii_of_string.
Qed.

(** X1. Cutting a formula into tokens and text loses nothing: the pieces,
    put back together in order, are the formula. *)
Theorem tokenize_loses_nothing (formula : string) :
  rejoin false (tokenize formula) = formula.
Proof. apply tokenize_loses_nothing_aux. Qed.

(** ** Tokens that name nothing *)

Lemma substitute_names_nothing (rec : option sref -> M unit) (t : string) (w : world) :
  names_nothing (char w) (toLowerCase t) = true ->
  substitute rec t w = Ok (VStr (toLowerCase t)) w.
Proof.
  unfold names_nothing. intros H.
  apply andb_true_iff in H. destruct H as [H _].
  repeat (apply andb_true_iff in H; destruct H as [H ?]).
  repeat match goal with
         | Hn : negb _ = true |- _ => apply negb_true_iff in Hn
         end.
  unfold substitute, bind, get_char.
  rewrite H. 
  match goal with Hm : is_modifier_name _ && _ = false |- _ => rewrite Hm end.
  match goal with Hm : defined _ (skills _) = false |- _ => rewrite Hm end.
  match goal with Hm : defined _ (dms _) = false |- _ => rewrite Hm end.
  destruct (is_class_level_name (toLowerCase t)).
  - destruct (lookup (strip_levels (toLowerCase t)) (classes (char w))) as [lvl |];
      [| reflexivity].
    match goal with Hm : negb _ = true |- _ => apply negb_true_iff in Hm; rewrite Hm end.
    reflexivity.
  - match goal with Hm : negb _ = true |- _ => apply negb_true_iff in Hm; rewrite Hm end.
    reflexivity.
Qed.

Lemma replace_names_nothing
  (num_to_str : jsnum -> string) (rec : option sref -> M unit)
  (ps : list piece) (w : world) :
  (forall t, In (Token t) ps -> names_nothing (char w) (toLowerCase t) = true) ->
  replace num_to_str rec ps w = Ok (rejoin true ps) w.
Proof.
  induction ps as [| [c | t] ps IH]; intros H; simpl.
  - reflexivity.
  - unfold bind. rewrite IH; [reflexivity |]. intros t Hin. apply H. now right.
  - unfold bind. rewrite substitute_names_nothing by (apply H; now left).
    rewrite IH; [reflexivity |]. intros t' Hin. apply H. now right.
Qed.

Lemma in_firstn {A : Type} (n : nat) :
  forall (l : list A) (x : A), In x (firstn n l) -> In x l.
Proof.
  induction n as [| n IH]; intros [| y l] x H; simpl in *; try contradiction.
  destruct H as [-> | H]; auto.
Qed.

Lemma pieces_sub (s : list ascii) :
  forall before skip t, In (Token t) (pieces before skip s) -> incl (chars t) s.
Proof.
  induction s as [| c rest IH]; intros before skip t Hin; [contradiction |].
  rewrite pieces_cons in Hin. destruct skip as [| k].
  - destruct (match_at before (c :: rest)) as [len |].
    + destruct Hin as [Heq | Hin].
      * injection Heq as <-. unfold chars.
        rewrite list_ascii_of_string_of_list_ascii.
        intros x Hx. now apply (in_firstn len).
      * apply incl_tl. now apply IH in Hin.
    + destruct Hin as [Heq | Hin]; [discriminate |].
      apply incl_tl. now apply IH in Hin.
  - apply incl_tl. now apply IH in Hin.
Qed.

Lemma toLowerCase_no_upper (t : string) :
  no_upper t = true -> toLowerCase t = t.
Proof.
  unfold no_upper, toLowerCase, chars. intros H.
  rewrite <- (string_of_list_ascii_of_string t) at 2. f_equal.
  induction (list_ascii_of_string t) as [| c l IH]; simpl in *; auto.
  apply andb_true_iff in H. destruct H as [Hc Hl].
  rewrite (IH Hl). unfold lower. apply negb_true_iff in Hc. now rewrite Hc.
Qed.

Lemma rejoin_no_upper (ps : list piece) :
  (forall t, In (Token t) ps -> no_upper t = true) ->
  rejoin true ps = rejoin false ps.
Proof.
  induction ps as [| [c | t] ps IH]; intros H; simpl; auto.
  - rewrite IH; auto. intros t Hin. apply H. now right.
  - rewrite toLowerCase_no_upper by (apply H; now left).
    rewrite IH; auto. intros t' Hin. apply H. now right.
Qed.

Lemma tokens_no_upper (formula t : string) :
  no_upper formula = true -> In (Token t) (tokenize formula) -> no_upper t = true.
Proof.
  unfold no_upper, tokenize. intros H Hin. apply pieces_sub in Hin.
  apply forallb_forall. intros x Hx.
  rewrite forallb_forall in H. apply H. now apply Hin.
Qed.

Section Unresolved.
Variable math_eval : string -> option value.
Variable num_to_str : jsnum -> string.

(** X2. When no token of a formula names anything in the character (nor
    reaches an inherited key), the tokens are echoed in lowercase and the
    text between them as it is,
    without calling [computeStat] and without touching the state; the
    result is what [math.eval] makes of that string, or the string itself.
    A formula without uppercase letters is evaluated as it is written. *)
Theorem unresolved_tokens_are_echoed_lowercase
  (rec : option sref -> M unit) (formula : string) (w : world) :
  formula <> "" ->
  (forall t, In (Token t) (tokenize formula) ->
     names_nothing (char w) (toLowerCase t) = true) ->
  let echoed := rejoin true (tokenize formula) in
  evaluateCalculation math_eval num_to_str rec formula w
  = Ok (match math_eval echoed with Some v => v | None => VStr echoed end) w
  /\ (no_upper formula = true -> echoed = formula).
Proof.
  intros Hne Hall echoed. split.
  - unfold evaluateCalculation.
    destruct (String.eqb formula "") eqn:E; [apply String.eqb_eq in E; contradiction |].
    unfold bind. rewrite replace_names_nothing by exact Hall.
    fold echoed. now destruct (math_eval echoed).
  - intros Hup. unfold echoed. rewrite rejoin_no_upper.
    + apply tokenize_loses_nothing_aux.
    + intros t Hin. now apply tokens_no_upper with formula.
Qed.

End Unresolved.

Lemma unresolved_tokens_are_echoed_lowercase_witness :
  evaluateCalculation Runtime.math_eval Runtime.num_to_str (fun _ => ret tt)
    "Bogus + 2" strength_world
  = Ok (VStr "bogus + 2") strength_world.
Proof.
  destruct (unresolved_tokens_are_echoed_lowercase
              Runtime.math_eval Runtime.num_to_str (fun _ => ret tt)
              "Bogus + 2" strength_world) as [H _].
  - discriminate.
  - intros t Hin. vm_compute in Hin.
    destruct Hin as [[= <-] | [[=] | [[=] | [[=] | [[= <-] | []]]]]]; reflexivity.
  - exact H.
Defined.

(** ** Class levels *)

Lemma substring_app_right (a b : string) :
  substring (String.length a) (String.length b) (a ++ b) = b.
Proof.
  induction a as [| c a IH]; simpl.
  - induction b as [| c b IHb]; simpl; [reflexivity | now rewrite IHb].
  - exact IH.
Qed.

Lemma substring_app_left (a b : string) :
  substring 0 (String.length a) (a ++ b) = a.
Proof.
  induction a as [| c a IH]; simpl.
  - now destruct b.
  - now rewrite IH.
Qed.

Lemma length_append (a b : string) :
  String.length (a ++ b) = (String.length a + String.length b)%nat.
Proof. induction a as [| c a IH]; simpl; auto. Qed.

Lemma ends_with_append (a b : string) : ends_with b (a ++ b) = true.
Proof.
  unfold ends_with. rewrite length_append.
  replace (String.length a + String.length b - String.length b)%nat
    with (String.length a) by lia.
  rewrite substring_app_right, String.eqb_refl.
  rewrite andb_true_r. apply Nat.leb_le. lia.
Qed.

Lemma drop_last_append (a b : string) :
  drop_last (String.length b) (a ++ b) = a.
Proof.
  unfold drop_last. rewrite length_append.
  replace (String.length a + String.length b - String.length b)%nat
    with (String.length a) by lia.
  apply substring_app_left.
Qed.

Lemma chars_append (a b : string) : chars (a ++ b) = (chars a ++ chars b)%list.
Proof. unfold chars. induction a as [| c a IH]; simpl; [| rewrite IH]; reflexivity. Qed.

Lemma no_upper_append (a b : string) :
  no_upper a = true -> no_upper b = true -> no_upper (a ++ b) = true.
Proof.
  unfold no_upper. rewrite chars_append, forallb_app. now intros -> ->.
Qed.

(** The last character decides that a name ending in "level" or "levels"
    does not end in "mod". *)
Lemma ends_with_last (a b suffix : string) :
  (String.length suffix <= String.length b)%nat ->
  ends_with suffix (a ++ b) = ends_with suffix b.
Proof.
  intros Hle. unfold ends_with. rewrite length_append.
  assert (H1 : Nat.leb (String.length suffix) (String.length a + String.length b) = true)
    by (apply Nat.leb_le; lia).
  assert (H2 : Nat.leb (String.length suffix) (String.length b) = true)
    by (apply Nat.leb_le; lia).
  rewrite H1, H2. simpl. f_equal.
  replace (String.length a + String.length b - String.length suffix)%nat
    with (String.length a + (String.length b - String.length suffix))%nat by lia.
  clear H1 H2 Hle.
  generalize (String.length b - String.length suffix)%nat as k.
  generalize (String.length suffix) as m.
  induction a as [| c a IH]; intros m k; simpl; [reflexivity | apply IH].
Qed.

Lemma singular_is_not_plural_aux (a : string) :
  forall c, String.eqb (substring (String.length a) 6 (String c (a ++ "level"))) "levels"
            = false.
Proof.
  induction a as [| d a IH]; intros c.
  - simpl. destruct (Ascii.eqb c "l"); reflexivity.
  - change (substring (String.length (String d a)) 6
              (String c (String d a ++ "level")))
      with (substring (String.length a) 6 (String d (a ++ "level"))).
    apply IH.
Qed.

Lemma singular_is_not_plural (a : string) :
  ends_with "levels" (a ++ "level") = false.
Proof.
  unfold ends_with. rewrite length_append.
  change (String.length "level") with 5%nat.
  change (String.length "levels") with 6%nat.
  destruct a as [| c a]; [reflexivity |].
  replace (String.length (String c a) + 5 - 6)%nat with (String.length a)
    by (simpl; lia).
  change (String c a ++ "level") with (String c (a ++ "level")).
  rewrite (singular_is_not_plural_aux a c). apply andb_false_r.
Qed.

Section ClassLevels.
Variable rec : option sref -> M unit.

(** X3. A lowercase class name followed by "level" or by "levels" is
    replaced by the level of that class, provided the whole token names no
    stat and the level is not 0. *)
Theorem class_level_singular_and_plural
  (cls : string) (lvl : jsnum) (w : world) :
  cls <> "" -> no_upper cls = true -> forallb is_word (chars cls) = true ->
  lookup cls (classes (char w)) = Some lvl -> num_truthy lvl = true ->
  (forall suffix, suffix = "level" \/ suffix = "levels" ->
     defined (cls ++ suffix) (atts (char w)) = false
     /\ defined (cls ++ suffix) (skills (char w)) = false
     /\ defined (cls ++ suffix) (dms (char w)) = false) ->
  substitute rec (cls ++ "level") w = Ok (VNum lvl) w
  /\ substitute rec (cls ++ "levels") w = Ok (VNum lvl) w.
Proof.
  intros Hne Hup Hword Hlookup Htruthy Hfree.
  assert (Hlen : (0 < String.length cls)%nat).
  { destruct cls; [congruence | simpl; lia]. }
  assert (Hgen : forall suffix, suffix = "level" \/ suffix = "levels" ->
            substitute rec (cls ++ suffix) w = Ok (VNum lvl) w).
  { intros suffix Hs.
    destruct (Hfree suffix Hs) as (Ha & Hsk & Hd).
    assert (Hlow : toLowerCase (cls ++ suffix) = cls ++ suffix).
    { apply toLowerCase_no_upper, no_upper_append; auto.
      destruct Hs as [-> | ->]; reflexivity. }
    assert (Hmod : is_modifier_name (cls ++ suffix) = false).
    { unfold is_modifier_name, word_then.
      rewrite (ends_with_last cls suffix "mod") by (destruct Hs as [-> | ->]; simpl; lia).
      destruct Hs as [-> | ->]; simpl; now rewrite andb_false_r. }
    assert (Hcl : is_class_level_name (cls ++ suffix) = true).
    { unfold is_class_level_name, word_then.
      assert (Hw : forallb is_word (chars (cls ++ suffix)) = true).
      { rewrite chars_append, forallb_app. fold (chars cls). rewrite Hword.
        destruct Hs as [-> | ->]; reflexivity. }
      unfold chars in Hw. rewrite Hw. rewrite !length_append.
      destruct Hs as [-> | ->]; simpl String.length.
      - rewrite (ends_with_append cls "level").
        replace (Nat.ltb 5 (String.length cls + 5)) with true
          by (symmetry; apply Nat.ltb_lt; lia). reflexivity.
      - rewrite (ends_with_append cls "levels").
        replace (Nat.ltb 6 (String.length cls + 6)) with true
          by (symmetry; apply Nat.ltb_lt; lia).
        simpl. now rewrite orb_true_r. }
    assert (Hstrip : strip_levels (cls ++ suffix) = cls).
    { unfold strip_levels. destruct Hs as [-> | ->].
      - rewrite singular_is_not_plural, (ends_with_append cls "level").
        apply (drop_last_append cls "level").
      - rewrite (ends_with_append cls "levels").
        apply (drop_last_append cls "levels"). }
    unfold substitute, bind, get_char. rewrite Hlow, Ha, Hmod, Hsk, Hd, Hcl, Hstrip.
    simpl. rewrite Hlookup, Htruthy. reflexivity. }
  split; apply Hgen; auto.
Qed.

(** The key a class level is looked up under is never a name with an
    uppercase letter or a 0 in it. *)
Lemma class_key_is_lowered (t name : string) :
  forallb in_class (chars t) = true -> has_upper_or_zero name = true ->
  strip_levels (toLowerCase t) <> name.
Proof.
  intros Hclass Hname Heq.
  pose proof (toLowerCase_lowered t Hclass) as Hlow.
  assert (Hs : forallb in_lowered_class (chars (strip_levels (toLowerCase t))) = true).
  { unfold strip_levels.
    destruct (ends_with "levels" (toLowerCase t)); [now apply drop_last_lowered |].
    destruct (ends_with "level" (toLowerCase t)); [now apply drop_last_lowered | exact Hlow]. }
  apply lowered_has_no_upper_or_zero in Hs. congruence.
Qed.

(** X4. A class whose name has an uppercase letter or a 0 in it is never
    found by a formula: in a character without stats whose classes all
    have such names, every token (that reaches no inherited key) is echoed
    in lowercase, except "level", which is replaced by the total level. *)
Theorem capitalised_classes_are_never_found
  (formula t : string) (w : world) :
  In (Token t) (tokenize formula) ->
  reaches_prototype (toLowerCase t) = false ->
  atts (char w) = [] -> skills (char w) = [] -> dms (char w) = [] ->
  (forall k, In k (map fst (classes (char w))) -> has_upper_or_zero k = true) ->
  substitute rec t w
  = Ok (if String.eqb (toLowerCase t) "level"
        then VNum (level (char w)) else VStr (toLowerCase t)) w.
Proof.
  intros Hin _ Ha Hs Hd Hall.
  apply pieces_in_class in Hin. destruct Hin as [Hclass _].
  unfold substitute, bind, get_char. rewrite Ha, Hs, Hd. simpl.
  rewrite andb_false_r.
  destruct (is_class_level_name (toLowerCase t)) eqn:Ecl.
  - destruct (lookup (strip_levels (toLowerCase t)) (classes (char w))) as [lvl |] eqn:El.
    + apply lookup_in_keys in El. apply Hall in El.
      now apply (class_key_is_lowered t) in El.
    + destruct (String.eqb (toLowerCase t) "level") eqn:E; [| reflexivity].
      apply String.eqb_eq in E. rewrite E in Ecl. discriminate.
  - now destruct (String.eqb (toLowerCase t) "level").
Qed.

End ClassLevels.

Lemma class_level_singular_and_plural_witness :
  substitute (fun _ => ret tt) "fighterlevel" level_world
  = Ok (VNum (num 3)) level_world
  /\ substitute (fun _ => ret tt) "fighterlevels" level_world
     = Ok (VNum (num 3)) level_world.
Proof.
  apply (class_level_singular_and_plural (fun _ => ret tt) "fighter" (num 3) level_world).
  - discriminate.
  - reflexivity.
  - reflexivity.
  - reflexivity.
  - reflexivity.
  - intros suffix [-> | ->]; split; [| split | | split]; reflexivity.
Defined.

Lemma capitalised_classes_are_never_found_witness :
  substitute (fun _ => ret tt) "FighterLevel" capitalised_world
  = Ok (VStr "fighterlevel") capitalised_world.
Proof.
  apply (capitalised_classes_are_never_found (fun _ => ret tt)
           "FighterLevel + level" "FighterLevel" capitalised_world).
  - vm_compute. left. reflexivity.
  - reflexivity.
  - reflexivity.
  - reflexivity.
  - reflexivity.
  - intros k [<- | []]. reflexivity.
Defined.

(** ** References with a 0 or an uppercase letter *)

(** ** References that hold no token *)

Lemma last_cons_default {A : Type} (l : list A) :
  forall x d, List.last (x :: l) d = List.last l x.
Proof.
  induction l as [| y l IH]; intros x d; [reflexivity |].
  change (List.last (x :: y :: l) d) with (List.last (y :: l) d).
  now rewrite !IH.
Qed.

Lemma last_in {A : Type} (l : list A) :
  forall d, l <> [] -> In (List.last l d) l.
Proof.
  induction l as [| x l IH]; intros d Hne; [congruence |].
  rewrite last_cons_default. destruct l as [| y l]; [now left |].
  right. apply IH. discriminate.
Qed.

Lemma last_app_in {A : Type} (l1 l2 : list A) :
  forall d, l2 <> [] -> In (List.last (l1 ++ l2) d) l2.
Proof.
  induction l1 as [| x l1 IH]; intros d Hne; simpl app.
  - now apply last_in.
  - rewrite last_cons_default. now apply IH.
Qed.

(** A match ends at a word boundary. *)
Lemma longest_boundary (rest : list ascii) :
  forall last n, longest last rest = Some n ->
  boundary (Some (List.last (firstn n rest) last)) (nth_error rest n) = true.
Proof.
  induction rest as [| c rest IH]; intros last n H; simpl in H.
  - destruct (boundary (Some last) None) eqn:Eb; inversion H; subst. exact Eb.
  - destruct (in_class c).
    + destruct (longest c rest) as [m |] eqn:El.
      * inversion H; subst. specialize (IH c m El).
        simpl nth_error. simpl firstn. now rewrite last_cons_default.
      * destruct (boundary (Some last) (Some c)) eqn:Eb; inversion H; subst. exact Eb.
    + destruct (boundary (Some last) (Some c)) eqn:Eb; inversion H; subst. exact Eb.
Qed.

Lemma match_at_boundary (before : option ascii) (s : list ascii) (len : nat) (d : ascii) :
  match_at before s = Some len ->
  boundary (Some (List.last (firstn len s) d)) (nth_error s len) = true.
Proof.
  destruct s as [| c rest]; simpl; [discriminate |].
  destruct (boundary before (Some c) && in_class c); [| discriminate].
  destruct (longest c rest) as [n |] eqn:El; simpl; [| discriminate].
  intros [= <-]. apply longest_boundary in El. simpl nth_error.
  simpl firstn. now rewrite last_cons_default.
Qed.

Lemma forallb_firstn {A : Type} (f : A -> bool) (n : nat) (l : list A) :
  forallb f l = true -> forallb f (firstn n l) = true.
Proof.
  revert n. induction l as [| x l IH]; intros [| n]; simpl; auto.
  intros H. apply andb_true_iff in H. destruct H as [-> H]. simpl. auto.
Qed.

Section Reference.
Variable name : list ascii.
Variable post : list ascii.
Hypothesis name_is_word : forallb is_word name = true.
Hypothesis name_has_zero : existsb (fun c => Nat.eqb (code c) 48) name = true.

(** No match that starts before the reference, or at its first
    character, reaches into it. *)
Lemma match_stops_before_reference (before : option ascii) (pre : list ascii) (len : nat) :
  match_at before (pre ++ name ++ post) = Some len -> (len <= List.length pre)%nat.
Proof.
  intros Hm.
  destruct (Nat.le_gt_cases len (List.length pre)) as [Hle | Hgt]; [exact Hle | exfalso].
  pose proof (match_at_in_class _ _ _ Hm) as [Hclass _].
  pose proof (match_at_boundary _ _ _ " "%char Hm) as Hb.
  set (j := (len - List.length pre)%nat).
  assert (Hlen : len = (List.length pre + j)%nat) by (unfold j; lia).
  assert (Hj : (0 < j)%nat) by (unfold j; lia).
  rewrite Hlen in Hclass, Hb.
  rewrite firstn_app_2 in Hclass, Hb.
  rewrite forallb_app in Hclass. apply andb_true_iff in Hclass.
  destruct Hclass as [_ Hclass].
  rewrite nth_error_app2 in Hb by lia.
  replace (List.length pre + j - List.length pre)%nat with j in Hb by lia.
  destruct (Nat.le_gt_cases (List.length name) j) as [Hcover | Hinside].
  - (* the match covers the reference, and its 0 *)
    rewrite firstn_app in Hclass. rewrite forallb_app in Hclass.
    apply andb_true_iff in Hclass. destruct Hclass as [Hclass _].
    rewrite firstn_all2 in Hclass by lia.
    apply class_has_no_zero in Hclass. congruence.
  - (* the match ends between two word characters *)
    rewrite firstn_app in Hb.
    replace (j - List.length name)%nat with 0%nat in Hb by lia.
    simpl firstn in Hb. rewrite app_nil_r in Hb.
    rewrite nth_error_app1 in Hb by lia.
    destruct (nth_error name j) as [c |] eqn:Ec;
      [| apply nth_error_None in Ec; lia].
    assert (Hc : is_word c = true).
    { apply nth_error_In in Ec. rewrite forallb_forall in name_is_word. auto. }
    assert (Hl : is_word (List.last (pre ++ firstn j name) " "%char) = true).
    { assert (Hin : In (List.last (pre ++ firstn j name) " "%char) (firstn j name)).
      { apply last_app_in. destruct name; [simpl in Hinside; lia |].
        destruct j; [lia | discriminate]. }
      apply (forallb_firstn is_word j) in name_is_word.
      rewrite forallb_forall in name_is_word. auto. }
    unfold boundary in Hb. simpl in Hb. rewrite Hl, Hc in Hb. discriminate.
Qed.

Lemma last_before_cons (before : option ascii) (c : ascii) (l : list ascii) :
  last_before before (c :: l) = last_before (Some c) l.
Proof.
  destruct l as [| x l]; [reflexivity |].
  unfold last_before. now rewrite last_cons_default.
Qed.

Lemma pieces_before_reference (pre : list ascii) :
  forall before skip, (skip <= List.length pre)%nat ->
  exists ps1,
    pieces before skip (pre ++ name ++ post)
    = (ps1 ++ pieces (last_before before pre) 0 (name ++ post))%list
    /\ rejoin false ps1 = string_of_list_ascii (skipn skip pre).
Proof.
  induction pre as [| c pre IH]; intros before skip Hle.
  - assert (skip = 0%nat) as -> by (simpl in Hle; lia).
    exists []. split; reflexivity.
  - simpl app. rewrite pieces_cons. destruct skip as [| k].
    + destruct (match_at before (c :: pre ++ name ++ post)) as [len |] eqn:Em.
      * pose proof (match_stops_before_reference before (c :: pre) len Em) as Hlen.
        pose proof (match_at_in_class _ _ _ Em) as [_ Hpos].
        destruct len as [| len]; [congruence |].
        simpl in Hlen. rewrite Nat.sub_succ, Nat.sub_0_r.
        destruct (IH (Some c) len ltac:(lia)) as (ps1 & Hps & Hre).
        exists (Token (string_of_list_ascii (firstn (S len) (c :: pre ++ name ++ post)))
                  :: ps1).
        split.
        -- rewrite Hps, <- (last_before_cons before c pre). reflexivity.
        -- simpl rejoin. rewrite Hre. simpl.
           rewrite firstn_app. replace (len - List.length pre)%nat with 0%nat by lia.
           simpl. rewrite app_nil_r. f_equal.
           rewrite <- string_of_list_ascii_app. now rewrite firstn_skipn.
      * destruct (IH (Some c) 0%nat ltac:(lia)) as (ps1 & Hps & Hre).
        exists (Text c :: ps1). split.
        -- rewrite Hps, <- (last_before_cons before c pre). reflexivity.
        -- simpl. now rewrite Hre.
    + destruct (IH (Some c) k ltac:(simpl in Hle; lia)) as (ps1 & Hps & Hre).
      exists ps1. split.
      * rewrite Hps, <- (last_before_cons before c pre). reflexivity.
      * simpl. exact Hre.
Qed.

(** After a word character nothing starts. *)
Lemma pieces_inside_reference (l : list ascii) :
  forall b, is_word b = true -> forallb is_word l = true ->
  pieces (Some b) 0 (l ++ post)
  = (map Text l ++ pieces (last_before (Some b) l) 0 post)%list.
Proof.
  induction l as [| c l IH]; intros b Hb Hl; [reflexivity |].
  simpl in Hl. apply andb_true_iff in Hl. destruct Hl as [Hc Hl].
  simpl app. rewrite pieces_cons.
  assert (Em : match_at (Some b) (c :: l ++ post) = None).
  { unfold match_at, boundary. simpl. now rewrite Hb, Hc. }
  rewrite Em. simpl. f_equal. rewrite (IH c Hc Hl).
  now rewrite <- (last_before_cons (Some b) c l).
Qed.

Lemma pieces_of_reference (before : option ascii) :
  pieces before 0 (name ++ post)
  = (map Text name ++ pieces (last_before before name) 0 post)%list.
Proof.
  assert (Hnone : match_at before (name ++ post) = None).
  { destruct (match_at before (name ++ post)) as [len |] eqn:Em; [| reflexivity].
    pose proof (match_at_in_class _ _ _ Em) as [_ Hpos].
    apply (match_stops_before_reference before [] len) in Em. simpl in Em. lia. }
  pose proof name_is_word as Hword. revert Hword Hnone.
  generalize name as l. intros [| c l] Hword Hnone; [reflexivity |].
  simpl in Hword. apply andb_true_iff in Hword. destruct Hword as [Hc Hl].
  simpl app in *. rewrite pieces_cons, Hnone. simpl. f_equal.
  rewrite (pieces_inside_reference l c Hc Hl).
  now rewrite <- (last_before_cons before c l).
Qed.

End Reference.

(** A reference made of word characters with a 0 in it holds no token,
    wherever it stands in a formula: its characters are text. *)
Lemma reference_with_zero_is_text (pre name post : string) :
  forallb is_word (chars name) = true -> has_zero name = true ->
  exists ps1 ps2,
    tokenize (pre ++ name ++ post) = (ps1 ++ map Text (chars name) ++ ps2)%list
    /\ rejoin false ps1 = pre /\ rejoin false ps2 = post.
Proof.
  intros Hword Hzero. unfold has_zero in Hzero. unfold tokenize.
  fold (chars (pre ++ name ++ post)). rewrite !chars_append.
  destruct (pieces_before_reference (chars name) (chars post) Hword Hzero
              (chars pre) None 0%nat ltac:(lia)) as (ps1 & Hps & Hre).
  rewrite Hps, (pieces_of_reference (chars name) (chars post) Hword Hzero).
  exists ps1, (pieces (last_before (last_before None (chars pre)) (chars name)) 0
                 (chars post)).
  split; [reflexivity | split].
  - rewrite Hre. simpl. apply string_of_list_ascii_of_string.
  - rewrite rejoin_pieces by lia. simpl. apply string_of_list_ascii_of_string.
Qed.

Lemma lower_lower (c : ascii) : lower (lower c) = lower c.
Proof.
  destruct c as [b0 b1 b2 b3 b4 b5 b6 b7].
  destruct b0, b1, b2, b3, b4, b5, b6, b7; reflexivity.
Qed.

Lemma toLowerCase_twice (t : string) : toLowerCase (toLowerCase t) = toLowerCase t.
Proof.
  unfold toLowerCase. rewrite list_ascii_of_string_of_list_ascii, map_map.
  f_equal. apply map_ext, lower_lower.
Qed.

Lemma substitute_lowercase (rec : option sref -> M unit) (t : string) (w : world) :
  substitute rec t w = substitute rec (toLowerCase t) w.
Proof. unfold substitute. now rewrite toLowerCase_twice. Qed.

Section References.
Variable math_eval : string -> option value.
Variable num_to_str : jsnum -> string.

(** C10, as amended. The tokens of a formula are runs of letters, commas
    and the digits 1 to 9, and a token is lowercased before it is looked
    up: neither the key [sub] nor the key [slice] is ever a name with an
    uppercase letter or a 0 in it, the callback does with a token what it
    does with the token in lowercase, and it returns the lowercase token
    as text when that names nothing. A name of word characters with a 0
    in it holds no token, wherever it stands in the formula: its
    characters are left as text. And in a character all of whose stats
    have an uppercase letter or a 0 in their name, a formula none of
    whose tokens reaches an inherited key evaluates as it does in the
    character without stats: no stat is substituted and [computeStat] is
    not called. *)
Theorem upper_or_zero_names_are_never_looked_up (formula : string) :
  (forall t, In (Token t) (tokenize formula) ->
     forallb in_class (chars t) = true
     /\ (forall name, has_upper_or_zero name = true ->
           toLowerCase t <> name /\ drop_last 3 (toLowerCase t) <> name)
     /\ (forall (rec : option sref -> M unit) (w : world),
           substitute rec t w = substitute rec (toLowerCase t) w)
     /\ (forall (rec : option sref -> M unit) (w : world),
           names_nothing (char w) (toLowerCase t) = true ->
           substitute rec t w = Ok (VStr (toLowerCase t)) w))
  /\ (forall pre name post : string,
        formula = pre ++ name ++ post ->
        forallb is_word (chars name) = true -> has_zero name = true ->
        exists ps1 ps2,
          tokenize formula = (ps1 ++ map Text (chars name) ++ ps2)%list
          /\ rejoin false ps1 = pre /\ rejoin false ps2 = post)
  /\ (forallb is_word (chars formula) = true -> has_zero formula = true ->
      forall t, ~ In (Token t) (tokenize formula))
  /\ (ordinary_formula formula = true ->
      forall (rec rec' : option sref -> M unit) (w : world),
        (forall k, In k (stat_names (char w)) -> has_upper_or_zero k = true) ->
        exists v,
          evaluateCalculation math_eval num_to_str rec formula w = Ok v w
          /\ evaluateCalculation math_eval num_to_str rec' formula (without_stats w)
             = Ok v (without_stats w)).
Proof.
  assert (Htok : forall t, In (Token t) (tokenize formula) ->
                 forallb in_class (chars t) = true).
  { intros t Hin. now apply pieces_in_class in Hin. }
  split; [| split; [| split]].
  - intros t Hin. split; [now apply Htok | split; [| split]].
    + intros name Hname. apply token_keys; auto.
    + intros rec w. apply substitute_lowercase.
    + intros rec w. apply substitute_names_nothing.
  - intros pre name post -> Hword Hzero.
    now apply reference_with_zero_is_text.
  - intros Hword Hzero t. now apply name_with_zero_has_no_token.
  - intros _ rec rec' w Hall. unfold evaluateCalculation.
    destruct (String.eqb formula ""); [eexists; split; reflexivity |].
    destruct (replace_without_stats num_to_str rec rec' (tokenize formula) w Htok Hall)
      as (s & H1 & H2).
    unfold bind. rewrite H1, H2.
    destruct (math_eval s); eexists; split; reflexivity.
Qed.

End References.

Lemma upper_or_zero_names_are_never_looked_up_witness :
  (exists v,
     evaluateCalculation Runtime.math_eval Runtime.num_to_str (fun _ => ret tt)
       "Level + fighterLevel" level_world = Ok v level_world
     /\ evaluateCalculation Runtime.math_eval Runtime.num_to_str (fun _ => ret tt)
          "Level + fighterLevel" (without_stats level_world)
        = Ok v (without_stats level_world))
  /\ (exists ps1 ps2,
        tokenize "2 * str0 + dex" = (ps1 ++ map Text (chars "str0") ++ ps2)%list
        /\ rejoin false ps1 = "2 * " /\ rejoin false ps2 = " + dex").
Proof.
  split.
  - destruct (upper_or_zero_names_are_never_looked_up
                Runtime.math_eval Runtime.num_to_str "Level + fighterLevel")
      as (_ & _ & _ & H).
    apply (H eq_refl (fun _ => ret tt) (fun _ => ret tt) level_world).
    intros k [<- | []]. reflexivity.
  - destruct (upper_or_zero_names_are_never_looked_up
                Runtime.math_eval Runtime.num_to_str "2 * str0 + dex")
      as (_ & H & _).
    apply (H "2 * " "str0" " + dex"); reflexivity.
Defined.

(** ** What buildCharacter builds *)

Lemma assign_new {A : Type} (k : string) (v : A) (m : list (string * A)) :
  lookup k m = None -> assign k v m = (m ++ [(k, v)])%list.
Proof.
  induction m as [| [k' v'] m IH]; simpl; auto.
  destruct (String.eqb k k'); [discriminate |].
  intros H. now rewrite IH.
Qed.

Lemma defined_false_lookup {A : Type} (k : string) (m : list (string * A)) :
  defined k m = false <-> lookup k m = None.
Proof. unfold defined. destruct (lookup k m); split; congruence. Qed.

(** Attributes: the first document of a name makes the object. *)
Lemma atts_after_attributes (name : string) (l : list Raw.attribute) :
  forall c,
  lookup name (atts (fold_left add_attribute l c)) =
  match lookup name (atts c) with
  | Some s => Some s
  | None =>
      option_map new_attribute
        (find (fun a => String.eqb name (Raw.att_variableName a)) l)
  end.
Proof.
  induction l as [| a l IH]; intros c; simpl.
  - now destruct (lookup name (atts c)).
  - rewrite IH. unfold add_attribute.
    destruct (defined (Raw.att_variableName a) (atts c)) eqn:Ed.
    + destruct (lookup name (atts c)) eqn:El; auto.
      destruct (String.eqb name (Raw.att_variableName a)) eqn:E; auto.
      apply String.eqb_eq in E. subst name. unfold defined in Ed.
      now rewrite El in Ed.
    + simpl. destruct (String.eqb name (Raw.att_variableName a)) eqn:E.
      * apply String.eqb_eq in E. subst name. rewrite lookup_assign_same.
        apply defined_false_lookup in Ed. now rewrite Ed.
      * apply String.eqb_neq in E. now rewrite lookup_assign_other.
Qed.

Lemma skills_of_skills (name : string) (l : list Raw.skill) :
  forall c,
  lookup name (skills (fold_left add_skill l c)) =
  match lookup name (skills c) with
  | Some s => Some s
  | None =>
      option_map new_skill
        (find (fun a => String.eqb name (Raw.skill_variableName a)) l)
  end.
Proof.
  induction l as [| a l IH]; intros c; simpl.
  - now destruct (lookup name (skills c)).
  - rewrite IH. unfold add_skill.
    destruct (defined (Raw.skill_variableName a) (skills c)) eqn:Ed.
    + destruct (lookup name (skills c)) eqn:El; auto.
      destruct (String.eqb name (Raw.skill_variableName a)) eqn:E; auto.
      apply String.eqb_eq in E. subst name. unfold defined in Ed.
      now rewrite El in Ed.
    + simpl. destruct (String.eqb name (Raw.skill_variableName a)) eqn:E.
      * apply String.eqb_eq in E. subst name. rewrite lookup_assign_same.
        apply defined_false_lookup in Ed. now rewrite Ed.
      * apply String.eqb_neq in E. now rewrite lookup_assign_other.
Qed.

Lemma dms_of_damageMultipliers (name : string) (l : list Raw.damageMultiplier) :
  forall c,
  lookup name (dms (fold_left add_damageMultiplier l c)) =
  match lookup name (dms c) with
  | Some s => Some s
  | None =>
      option_map (fun _ => new_damageMultiplier)
        (find (fun a => String.eqb name (Raw.dm_variableName a)) l)
  end.
Proof.
  induction l as [| a l IH]; intros c; simpl.
  - now destruct (lookup name (dms c)).
  - rewrite IH. unfold add_damageMultiplier.
    destruct (defined (Raw.dm_variableName a) (dms c)) eqn:Ed.
    + destruct (lookup name (dms c)) eqn:El; auto.
      destruct (String.eqb name (Raw.dm_variableName a)) eqn:E; auto.
      apply String.eqb_eq in E. subst name. unfold defined in Ed.
      now rewrite El in Ed.
    + simpl. destruct (String.eqb name (Raw.dm_variableName a)) eqn:E.
      * apply String.eqb_eq in E. subst name. rewrite lookup_assign_same.
        apply defined_false_lookup in Ed. now rewrite Ed.
      * apply String.eqb_neq in E. now rewrite lookup_assign_other.
Qed.

Lemma atts_after_skills (l : list Raw.skill) (c : character) :
  atts (fold_left add_skill l c) = atts c.
Proof.
  revert c. induction l as [| a l IH]; intros c; simpl; auto.
  rewrite IH. unfold add_skill.
  now destruct (defined (Raw.skill_variableName a) (skills c)).
Qed.

Lemma atts_after_damageMultipliers (l : list Raw.damageMultiplier) (c : character) :
  atts (fold_left add_damageMultiplier l c) = atts c.
Proof.
  revert c. induction l as [| a l IH]; intros c; simpl; auto.
  rewrite IH. unfold add_damageMultiplier.
  now destruct (defined (Raw.dm_variableName a) (dms c)).
Qed.

Lemma atts_after_classes (l : list Raw.class) (c : character) :
  atts (fold_left add_class l c) = atts c.
Proof.
  revert c. induction l as [| a l IH]; intros c; simpl; auto.
  rewrite IH. unfold add_class.
  now destruct (defined (Raw.class_name a) (classes c)).
Qed.

Lemma dms_after_attributes (l : list Raw.attribute) (c : character) :
  dms (fold_left add_attribute l c) = dms c.
Proof.
  revert c. induction l as [| a l IH]; intros c; simpl; auto.
  rewrite IH. unfold add_attribute.
  now destruct (defined (Raw.att_variableName a) (atts c)).
Qed.

Lemma dms_after_skills (l : list Raw.skill) (c : character) :
  dms (fold_left add_skill l c) = dms c.
Proof.
  revert c. induction l as [| a l IH]; intros c; simpl; auto.
  rewrite IH. unfold add_skill.
  now destruct (defined (Raw.skill_variableName a) (skills c)).
Qed.

Lemma dms_after_classes (l : list Raw.class) (c : character) :
  dms (fold_left add_class l c) = dms c.
Proof.
  revert c. induction l as [| a l IH]; intros c; simpl; auto.
  rewrite IH. unfold add_class.
  now destruct (defined (Raw.class_name a) (classes c)).
Qed.

Lemma skeleton_atts (name : string) (docs : Raw.documents) :
  lookup name (atts (skeleton docs))
  = option_map new_attribute (first_attribute name docs).
Proof.
  unfold skeleton.
  rewrite atts_after_classes, atts_after_damageMultipliers, atts_after_skills.
  now rewrite atts_after_attributes.
Qed.

Lemma skeleton_skills (name : string) (docs : Raw.documents) :
  lookup name (skills (skeleton docs))
  = option_map new_skill (first_skill name docs).
Proof.
  unfold skeleton.
  rewrite skills_after_classes, skills_after_damageMultipliers.
  rewrite skills_of_skills, skills_after_attributes. reflexivity.
Qed.

Lemma skeleton_dms (name : string) (docs : Raw.documents) :
  lookup name (dms (skeleton docs))
  = option_map (fun _ => new_damageMultiplier) (first_damageMultiplier name docs).
Proof.
  unfold skeleton.
  rewrite dms_after_classes, dms_of_damageMultipliers.
  rewrite dms_after_skills, dms_after_attributes. reflexivity.
Qed.

Lemma push_after_set (e : Effect.t) (l : list Effect.t) (s : Stat.t) :
  push_effect e (Stat.set_effects l s) = Stat.set_effects (l ++ [e]) s.
Proof. now destruct s. Qed.

Lemma set_effects_same (s : Stat.t) : Stat.set_effects (Stat.effects s) s = s.
Proof. now destruct s. Qed.

Lemma add_effect_defined (c : character) (e : Raw.effect) (n : string) :
  defined n (atts (add_effect c e)) = defined n (atts c)
  /\ defined n (skills (add_effect c e)) = defined n (skills c)
  /\ defined n (dms (add_effect c e)) = defined n (dms c).
Proof.
  unfold add_effect.
  destruct (lookup (Raw.effect_stat e) (atts c)) as [s |] eqn:Ea.
  - simpl. now rewrite (defined_assign_present _ _ _ s).
  - destruct (lookup (Raw.effect_stat e) (skills c)) as [s |] eqn:Es.
    + simpl. now rewrite (defined_assign_present _ _ _ s).
    + destruct (lookup (Raw.effect_stat e) (dms c)) as [s |] eqn:Ed; auto.
      simpl. now rewrite (defined_assign_present _ _ _ s).
Qed.

Lemma add_effect_at (which : sref) (c : character) (e : Raw.effect) (s : Stat.t) :
  deref which c = Some s ->
  deref which (add_effect c e)
  = Some (if targets which c e then push_effect (stored e) s else s).
Proof.
  intros Hs. unfold add_effect. fold (stored e).
  destruct which as [n | n | n]; simpl in *.
  - destruct (String.eqb (Raw.effect_stat e) n) eqn:E.
    + apply String.eqb_eq in E. subst n. rewrite Hs. simpl.
      now rewrite lookup_assign_same.
    + apply String.eqb_neq in E.
      destruct (lookup (Raw.effect_stat e) (atts c)); simpl.
      * rewrite lookup_assign_other; auto.
      * destruct (lookup (Raw.effect_stat e) (skills c)); simpl; auto.
        destruct (lookup (Raw.effect_stat e) (dms c)); simpl; auto.
  - destruct (String.eqb (Raw.effect_stat e) n) eqn:E.
    + apply String.eqb_eq in E. subst n. unfold defined.
      destruct (lookup (Raw.effect_stat e) (atts c)); simpl; auto.
      rewrite Hs. simpl. now rewrite lookup_assign_same.
    + apply String.eqb_neq in E. simpl.
      destruct (lookup (Raw.effect_stat e) (atts c)); simpl; auto.
      destruct (lookup (Raw.effect_stat e) (skills c)); simpl.
      * rewrite lookup_assign_other; auto.
      * destruct (lookup (Raw.effect_stat e) (dms c)); simpl; auto.
  - destruct (String.eqb (Raw.effect_stat e) n) eqn:E.
    + apply String.eqb_eq in E. subst n. unfold defined.
      destruct (lookup (Raw.effect_stat e) (atts c)); simpl; auto.
      destruct (lookup (Raw.effect_stat e) (skills c)); simpl; auto.
      rewrite Hs. simpl. now rewrite lookup_assign_same.
    + apply String.eqb_neq in E. simpl.
      destruct (lookup (Raw.effect_stat e) (atts c)); simpl; auto.
      destruct (lookup (Raw.effect_stat e) (skills c)); simpl; auto.
      destruct (lookup (Raw.effect_stat e) (dms c)); simpl; auto.
      rewrite lookup_assign_other; auto.
Qed.

Lemma targets_add_effect (which : sref) (c : character) (e e' : Raw.effect) :
  targets which (add_effect c e) e' = targets which c e'.
Proof.
  destruct which as [n | n | n]; simpl; auto;
    destruct (add_effect_defined c e n) as (Ha & Hs & _);
    rewrite ?Ha, ?Hs; reflexivity.
Qed.

Lemma add_effect_none (which : sref) (c : character) (e : Raw.effect) :
  deref which c = None -> deref which (add_effect c e) = None.
Proof.
  intros H. destruct (add_effect_defined c e
    match which with InAtts n | InSkills n | InDms n => n end) as (Ha & Hs & Hd).
  destruct which; simpl in *; apply defined_false_lookup;
    [rewrite Ha | rewrite Hs | rewrite Hd]; now apply defined_false_lookup.
Qed.

Lemma effects_attached (which : sref) (l : list Raw.effect) :
  forall c s,
  deref which c = Some s ->
  deref which (fold_left add_effect l c)
  = Some (Stat.set_effects
            (Stat.effects s ++ map stored (filter (targets which c) l)) s).
Proof.
  induction l as [| e l IH]; intros c s Hs; simpl.
  - now rewrite app_nil_r, set_effects_same.
  - rewrite (IH _ _ (add_effect_at which c e s Hs)).
    rewrite (filter_ext _ _ (targets_add_effect which c e)).
    destruct (targets which c e); simpl; auto.
    f_equal. destruct s; simpl. now rewrite <- app_assoc.
Qed.

Lemma effects_attached_none (which : sref) (l : list Raw.effect) :
  forall c, deref which c = None -> deref which (fold_left add_effect l c) = None.
Proof.
  induction l as [| e l IH]; intros c H; simpl; auto.
  apply IH. now apply add_effect_none.
Qed.

Lemma filter_filter_and {A : Type} (f g : A -> bool) (l : list A) :
  filter g (filter f l) = filter (fun x => f x && g x) l.
Proof.
  induction l as [| x l IH]; simpl; auto.
  destruct (f x); simpl; [destruct (g x) |]; now rewrite IH.
Qed.

Lemma filter_none {A : Type} (f : A -> bool) (l : list A) :
  (forall x, f x = false) -> filter f l = [].
Proof.
  intros H. induction l as [| x l IH]; simpl; auto. now rewrite H.
Qed.

Lemma built_from_skeleton (docs : Raw.documents) (c : character) :
  buildCharacter docs = inr c ->
  c = fold_left add_effect (filter Raw.effect_enabled (Raw.Effects docs)) (skeleton docs).
Proof.
  unfold buildCharacter. intros H.
  now apply proficiency_loop_stores_nothing in H.
Qed.

(** X5. For documents whose names are no inherited keys: in the character
    [buildCharacter] returns, the attribute of a name is made from the
    first attribute document of that name (later ones are ignored), and
    its effects are exactly the enabled effect documents that name it, in
    document order, none of them computed; no attribute is stored under a
    name no document bears. *)
Theorem built_attribute (docs : Raw.documents) (c : character) (name : string) :
  ordinary_names docs = true ->
  buildCharacter docs = inr c ->
  lookup name (atts c)
  = option_map
      (fun a => Stat.set_effects (effects_for name docs) (new_attribute a))
      (first_attribute name docs).
Proof.
  intros _ H. apply built_from_skeleton in H. subst c.
  pose proof (skeleton_atts name docs) as Hs.
  destruct (first_attribute name docs) as [a |]; cbn [option_map] in *.
  - pose proof (effects_attached (InAtts name)
                  (filter Raw.effect_enabled (Raw.Effects docs)) _ _ Hs) as He.
    unfold deref, targets in He. rewrite He. cbn [Stat.effects new_attribute new_skill new_damageMultiplier app].
    unfold effects_for. now rewrite filter_filter_and.
  - now apply (effects_attached_none (InAtts name)).
Qed.

Lemma built_attribute_witness :
  lookup "strength" (atts (built plain_documents))
  = Some (Stat.set_effects
            [Effect.mk false (VNum (num 0)) "add" (Some (num 2)) None]
            (new_attribute (Raw.mkAttribute "strength" "ability" (Some (num 16)) false))).
Proof.
  apply (built_attribute plain_documents (built plain_documents) "strength");
    reflexivity.
Defined.

(** X6. For such documents: a skill is made from the first skill document
    of its name, and it receives the enabled effects that name it only
    when no attribute bears the same name: otherwise all of them go to the
    attribute and the skill has none. *)
Theorem built_skill (docs : Raw.documents) (c : character) (name : string) :
  ordinary_names docs = true ->
  buildCharacter docs = inr c ->
  lookup name (skills c)
  = option_map
      (fun s =>
         Stat.set_effects
           (match first_attribute name docs with
            | Some _ => []
            | None => effects_for name docs
            end)
           (new_skill s))
      (first_skill name docs).
Proof.
  intros _ H. apply built_from_skeleton in H. subst c.
  pose proof (skeleton_skills name docs) as Hs.
  pose proof (skeleton_atts name docs) as Ha.
  destruct (first_skill name docs) as [s |]; cbn [option_map] in *.
  - pose proof (effects_attached (InSkills name)
                  (filter Raw.effect_enabled (Raw.Effects docs)) _ _ Hs) as He.
    unfold deref, targets in He. rewrite He. cbn [Stat.effects new_attribute new_skill new_damageMultiplier app].
    rewrite filter_filter_and. unfold defined. rewrite Ha.
    destruct (first_attribute name docs); simpl.
    + rewrite filter_none; auto. intros x. now rewrite !andb_false_r.
    + unfold effects_for.
      erewrite filter_ext; [reflexivity |].
      intros x. simpl. now rewrite andb_true_r.
  - now apply (effects_attached_none (InSkills name)).
Qed.

Lemma built_skill_witness :
  lookup "speed" (skills (built plain_documents))
  = Some (new_skill (Raw.mkSkill "speed" None)).
Proof.
  apply (built_skill plain_documents (built plain_documents) "speed");
    reflexivity.
Defined.

(** X7. For such documents: a damage multiplier receives the enabled
    effects that name it only when neither an attribute nor a skill bears
    the same name. *)
Theorem built_damageMultiplier (docs : Raw.documents) (c : character) (name : string) :
  ordinary_names docs = true ->
  buildCharacter docs = inr c ->
  lookup name (dms c)
  = option_map
      (fun _ =>
         Stat.set_effects
           (match first_attribute name docs, first_skill name docs with
            | None, None => effects_for name docs
            | _, _ => []
            end)
           new_damageMultiplier)
      (first_damageMultiplier name docs).
Proof.
  intros _ H. apply built_from_skeleton in H. subst c.
  pose proof (skeleton_dms name docs) as Hd.
  pose proof (skeleton_skills name docs) as Hs.
  pose proof (skeleton_atts name docs) as Ha.
  destruct (first_damageMultiplier name docs) as [d |]; cbn [option_map] in *.
  - pose proof (effects_attached (InDms name)
                  (filter Raw.effect_enabled (Raw.Effects docs)) _ _ Hd) as He.
    unfold deref, targets in He. rewrite He. cbn [Stat.effects new_attribute new_skill new_damageMultiplier app].
    rewrite filter_filter_and. unfold defined. rewrite Ha, Hs.
    destruct (first_attribute name docs); simpl.
    + rewrite filter_none; auto. intros x. now rewrite !andb_false_r.
    + destruct (first_skill name docs); simpl.
      * rewrite filter_none; auto. intros x. now rewrite !andb_false_r.
      * unfold effects_for.
        erewrite filter_ext; [reflexivity |].
        intros x. simpl. now rewrite !andb_true_r.
  - now apply (effects_attached_none (InDms name)).
Qed.

Lemma built_damageMultiplier_witness :
  lookup "fire" (dms (built plain_documents))
  = Some (Stat.set_effects
            [Effect.mk false (VNum (num 0)) "mul" (Some (Fin (1 # 2))) None]
            new_damageMultiplier).
Proof.
  apply (built_damageMultiplier plain_documents (built plain_documents) "fire");
    reflexivity.
Defined.

Lemma classes_after_effects (l : list Raw.effect) (c : character) :
  classes (fold_left add_effect l c) = classes c
  /\ level (fold_left add_effect l c) = level c.
Proof.
  revert c. induction l as [| e l IH]; intros c; simpl; auto.
  destruct (IH (add_effect c e)) as [-> ->]. unfold add_effect.
  destruct (lookup (Raw.effect_stat e) (atts c)); auto.
  destruct (lookup (Raw.effect_stat e) (skills c)); auto.
  destruct (lookup (Raw.effect_stat e) (dms c)); auto.
Qed.

Lemma classes_of_classes (l : list Raw.class) :
  forall c,
  level c = fold_left jadd (map snd (classes c)) (num 0) ->
  let c' := fold_left add_class l c in
  level c' = fold_left jadd (map snd (classes c')) (num 0)
  /\ forall name,
       lookup name (classes c') =
       match lookup name (classes c) with
       | Some lvl => Some lvl
       | None => option_map Raw.class_level
                   (find (fun cls => String.eqb name (Raw.class_name cls)) l)
       end.
Proof.
  induction l as [| a l IH]; intros c Hc; simpl.
  - split; auto. intros name. now destruct (lookup name (classes c)).
  - assert (Hc' : level (add_class c a)
                  = fold_left jadd (map snd (classes (add_class c a))) (num 0)).
    { unfold add_class. destruct (defined (Raw.class_name a) (classes c)) eqn:Ed; auto.
      simpl. apply defined_false_lookup in Ed. rewrite (assign_new _ _ _ Ed).
      rewrite map_app, fold_left_app. simpl. now rewrite Hc. }
    destruct (IH _ Hc') as [Hl Hk]. split; [exact Hl |].
    intros name. rewrite Hk. unfold add_class.
    destruct (defined (Raw.class_name a) (classes c)) eqn:Ed.
    + destruct (lookup name (classes c)) eqn:El; auto.
      destruct (String.eqb name (Raw.class_name a)) eqn:E; auto.
      apply String.eqb_eq in E. subst name. unfold defined in Ed.
      now rewrite El in Ed.
    + simpl. destruct (String.eqb name (Raw.class_name a)) eqn:E.
      * apply String.eqb_eq in E. subst name. rewrite lookup_assign_same.
        apply defined_false_lookup in Ed. now rewrite Ed.
      * apply String.eqb_neq in E. now rewrite lookup_assign_other.
Qed.

Lemma classes_before_classes (docs : Raw.documents) :
  let c := fold_left add_damageMultiplier (Raw.DamageMultipliers docs)
             (fold_left add_skill (Raw.Skills docs)
                (fold_left add_attribute (Raw.Attributes docs)
                   (mkCharacter [] [] [] [] (num 0)))) in
  classes c = [] /\ level c = num 0.
Proof.
  cbv zeta.
  assert (Ha : forall l c, classes (fold_left add_attribute l c) = classes c
                           /\ level (fold_left add_attribute l c) = level c).
  { induction l as [| a l IH]; intros c; simpl; auto.
    destruct (IH (add_attribute c a)) as [-> ->]. unfold add_attribute.
    now destruct (defined (Raw.att_variableName a) (atts c)). }
  assert (Hs : forall l c, classes (fold_left add_skill l c) = classes c
                           /\ level (fold_left add_skill l c) = level c).
  { induction l as [| a l IH]; intros c; simpl; auto.
    destruct (IH (add_skill c a)) as [-> ->]. unfold add_skill.
    now destruct (defined (Raw.skill_variableName a) (skills c)). }
  assert (Hd : forall l c, classes (fold_left add_damageMultiplier l c) = classes c
                           /\ level (fold_left add_damageMultiplier l c) = level c).
  { induction l as [| a l IH]; intros c; simpl; auto.
    destruct (IH (add_damageMultiplier c a)) as [-> ->]. unfold add_damageMultiplier.
    now destruct (defined (Raw.dm_variableName a) (dms c)). }
  split.
  - now rewrite (proj1 (Hd _ _)), (proj1 (Hs _ _)), (proj1 (Ha _ _)).
  - now rewrite (proj2 (Hd _ _)), (proj2 (Hs _ _)), (proj2 (Ha _ _)).
Qed.

(** X8. For such documents: the total level of a built character is the
    sum of the levels kept in [char.classes], and a class name keeps the
    level of its first document: a second class document of the same name
    adds nothing. *)
Theorem built_level (docs : Raw.documents) (c : character) :
  ordinary_names docs = true ->
  buildCharacter docs = inr c ->
  level c = sum_levels (map snd (classes c))
  /\ forall name,
       lookup name (classes c)
       = option_map Raw.class_level
           (find (fun cls => String.eqb name (Raw.class_name cls)) (Raw.Classes docs)).
Proof.
  intros _ H. apply built_from_skeleton in H. subst c.
  destruct (classes_after_effects
              (filter Raw.effect_enabled (Raw.Effects docs)) (skeleton docs)) as [-> ->].
  unfold skeleton, sum_levels.
  destruct (classes_before_classes docs) as [Hc Hl]. cbv zeta in Hc, Hl.
  match goal with
  | |- context [fold_left add_class _ ?c0] =>
      destruct (classes_of_classes (Raw.Classes docs) c0) as [H1 H2]
  end.
  - now rewrite Hl, Hc.
  - split; [exact H1 |]. intros name. rewrite H2, Hc. reflexivity.
Qed.

Lemma built_level_witness :
  level (built plain_documents) = sum_levels (map snd (classes (built plain_documents)))
  /\ forall name,
       lookup name (classes (built plain_documents))
       = option_map Raw.class_level
           (find (fun cls => String.eqb name (Raw.class_name cls))
                 (Raw.Classes plain_documents)).
Proof.
  apply (built_level plain_documents (built plain_documents)); reflexivity.
Defined.

(** ** applyEffect *)

Lemma applyEffect_same_but_accumulators
  (num_to_str : jsnum -> string) (str_to_num : string -> jsnum)
  (effect : Effect.t) (stat : Stat.t) :
  exists stat', applyEffect num_to_str str_to_num effect stat = inr stat'
                /\ same_but_accumulators stat stat'.
Proof.
  destruct stat as [ty ? ? ? ? ? ? ? ? ? ? ? ? ? ? ? ? ? ? ? ? ? ? ?].
  unfold applyEffect, applyEffect_first, applyEffect_min, applyEffect_last, and_then,
         same_but_accumulators.
  destruct ty; cbn;
    repeat match goal with
           | |- context [String.eqb ?a ?b] => destruct (String.eqb a b) eqn:?; cbn
           end; eexists; (split; [reflexivity |]);
    cbn; repeat split.
Qed.

Section ApplyEffect.
Variable num_to_str : jsnum -> string.
Variable str_to_num : string -> jsnum.

Local Abbreviation applyEffect' := (applyEffect num_to_str str_to_num).

(** X9. Given an effect object, [applyEffect] does not throw (the branch
    that reads the unbound name [value] sits behind a test no stat
    passes), and it changes nothing but the accumulators: result, flags,
    effects, modifier, proficiency and the three counts of a damage
    multiplier are left alone. Given [undefined], which is what
    [stat.effects[i]] is once the shared [i] points past the effects of
    the stat, it throws a TypeError. *)
Theorem applyEffect_touches_accumulators_only (effect : Effect.t) (stat : Stat.t) :
  (exists stat', applyEffect' effect stat = inr stat'
                 /\ same_but_accumulators stat stat')
  /\ (forall (r : sref) (w : world),
        applyEffect_to num_to_str str_to_num None r w
        = Throw (TypeError "property of undefined"))
  /\ (forall (r : sref) (k : nat) (w : world) (s : Stat.t),
        deref r (char w) = Some s -> nth_error (Stat.effects s) k = None ->
        (e <- effect_at r k ;; applyEffect_to num_to_str str_to_num e r)%engine w
        = Throw (TypeError "property of undefined")).
Proof.
  split; [apply applyEffect_same_but_accumulators | split].
  - reflexivity.
  - intros r k w s Hs Hk. unfold bind, effect_at. now rewrite Hs, Hk.
Qed.

(** X10. An effect is ignored when its operation is none of the ten the
    function knows, or when the stat has no field of that name: "base" on
    a skill, "advantage", "disadvantage", "passiveAdd", "fail" and
    "conditional" on an attribute, and every operation on a damage
    multiplier. *)
Theorem applyEffect_ignores_foreign_operations (effect : Effect.t) (stat : Stat.t) :
  (In (Effect.operation effect) operations ->
   Stat.has stat (Effect.operation effect) = false) ->
  applyEffect' effect stat = inr stat.
Proof.
  intros H.
  unfold applyEffect, applyEffect_first, applyEffect_min, applyEffect_last, and_then.
  repeat match goal with
         | |- context [String.eqb (Effect.operation effect) ?b] =>
             let E := fresh "E" in
             destruct (String.eqb (Effect.operation effect) b) eqn:E;
             [ apply String.eqb_eq in E;
               rewrite E in H; rewrite H by (unfold operations; simpl; tauto);
               cbn
             | cbn ]
         end; try reflexivity.
Qed.

End ApplyEffect.

Lemma applyEffect_touches_accumulators_only_witness :
  (exists stat',
     applyEffect Runtime.num_to_str Runtime.str_to_num (base_effect 12) example_attribute
     = inr stat'
     /\ same_but_accumulators example_attribute stat')
  /\ (e <- effect_at (InAtts "armor") 2 ;;
      applyEffect_to Runtime.num_to_str Runtime.str_to_num e (InAtts "armor"))%engine
       text_world
     = Throw (TypeError "property of undefined").
Proof.
  destruct (applyEffect_touches_accumulators_only
              Runtime.num_to_str Runtime.str_to_num (base_effect 12) example_attribute)
    as (H1 & _ & H3).
  split; [exact H1 |].
  apply (H3 (InAtts "armor") 2%nat text_world (stat_of (InAtts "armor") text_world));
    reflexivity.
Defined.

Lemma applyEffect_ignores_foreign_operations_witness :
  applyEffect Runtime.num_to_str Runtime.str_to_num (base_effect 12) stealth
  = inr stealth.
Proof.
  apply (applyEffect_ignores_foreign_operations
           Runtime.num_to_str Runtime.str_to_num (base_effect 12) stealth).
  intros _. reflexivity.
Defined.

(** ** Bounds *)

Lemma jlt_total (a b : jsnum) :
  a <> NaN -> b <> NaN -> canonical a -> canonical b ->
  jlt a b = false -> jlt b a = false -> a = b.
Proof.
  destruct a as [x | | |], b as [y | | |]; simpl; try congruence; try discriminate.
  intros _ _ Hx Hy H1 H2.
  apply negb_false_iff, Qle_bool_iff in H1.
  apply negb_false_iff, Qle_bool_iff in H2.
  assert (Heq : (x == y)%Q) by (apply Qle_antisym; assumption).
  apply Qred_complete in Heq. rewrite Hx, Hy in Heq. now subst.
Qed.

Lemma jlt_not_NaN_l (a b : jsnum) : jlt a b = true -> a <> NaN /\ b <> NaN.
Proof. destruct a, b; simpl; intros H; split; congruence. Qed.

(** [if b < v then v else b], the update of "base" and "min", applied for
    two values in either order. *)
Lemma keep_larger_comm (b v1 v2 : jsnum) :
  v1 <> NaN -> v2 <> NaN -> canonical v1 -> canonical v2 ->
  (let b1 := if jlt b v1 then v1 else b in if jlt b1 v2 then v2 else b1)
  = (let b2 := if jlt b v2 then v2 else b in if jlt b2 v1 then v1 else b2).
Proof.
  intros N1 N2 C1 C2. cbv zeta.
  destruct (jlt b v1) eqn:E1, (jlt b v2) eqn:E2; rewrite ?E1, ?E2; auto.
  - destruct (jlt v1 v2) eqn:E12, (jlt v2 v1) eqn:E21; auto.
    + apply jlt_asym in E12. congruence.
    + symmetry. now apply jlt_total.
  - destruct (jlt v1 v2) eqn:E12; auto.
    rewrite (jlt_trans b v1 v2 E1 E12) in E2. discriminate.
  - destruct (jlt v2 v1) eqn:E21; auto.
    rewrite (jlt_trans b v2 v1 E2 E21) in E1. discriminate.
Qed.

(** [if v < b then v else b], the update of "max". *)
Lemma keep_smaller_comm (b v1 v2 : jsnum) :
  v1 <> NaN -> v2 <> NaN -> canonical v1 -> canonical v2 ->
  (let b1 := if jlt v1 b then v1 else b in if jlt v2 b1 then v2 else b1)
  = (let b2 := if jlt v2 b then v2 else b in if jlt v1 b2 then v1 else b2).
Proof.
  intros N1 N2 C1 C2. cbv zeta.
  destruct (jlt v1 b) eqn:E1, (jlt v2 b) eqn:E2; rewrite ?E1, ?E2; auto.
  - destruct (jlt v2 v1) eqn:E21, (jlt v1 v2) eqn:E12; auto.
    + apply jlt_asym in E12. congruence.
    + now apply jlt_total.
  - destruct (jlt v2 v1) eqn:E21; auto.
    rewrite (jlt_trans v2 v1 b E21 E1) in E2. discriminate.
  - destruct (jlt v1 v2) eqn:E12; auto.
    rewrite (jlt_trans v1 v2 b E12 E2) in E1. discriminate.
Qed.

Section Order.
Variable num_to_str : jsnum -> string.
Variable str_to_num : string -> jsnum.

Local Abbreviation applied' := (applied num_to_str str_to_num).

(** X11. Two effects of the same operation "base", "min" or "max" whose
    results are numbers can be applied in either order: the stat ends the
    same. The accumulator keeps the largest base, the largest min and the
    smallest max. *)
Theorem bound_effects_commute (e1 e2 : Effect.t) (stat : Stat.t) (v1 v2 : jsnum) :
  In (Effect.operation e1) ["base"; "min"; "max"] ->
  Effect.operation e2 = Effect.operation e1 ->
  Effect.result e1 = VNum v1 -> Effect.result e2 = VNum v2 ->
  v1 <> NaN -> v2 <> NaN -> canonical v1 -> canonical v2 ->
  (exists b lo hi, Stat.base stat = VNum b /\ Stat.min stat = VNum lo
                   /\ Stat.max stat = VNum hi) ->
  applied' e2 (applied' e1 stat) = applied' e1 (applied' e2 stat).
Proof.
  intros Hop Hop2 Hr1 Hr2 N1 N2 C1 C2 (b & lo & hi & Hb & Hlo & Hhi).
  destruct e1 as [c1 r1 op1 val1 calc1], e2 as [c2 r2 op2 val2 calc2].
  simpl in *. subst.
  destruct stat as [ty ? ? ? ? ? ? ? ? ? ? ? ? ? ? ? ? ? ? ? ? ? ? ?].
  simpl in *. subst.
  destruct Hop as [<- | [<- | [<- | []]]]; destruct ty; cbv -[jlt]; try reflexivity.
  - pose proof (keep_larger_comm b v1 v2 N1 N2 C1 C2) as H. cbv zeta in H.
    destruct (jlt b v1) eqn:E1, (jlt b v2) eqn:E2; cbv -[jlt]; rewrite ?E1, ?E2 in *; cbv -[jlt];
      repeat match goal with
             | |- context [jlt ?x ?y] => destruct (jlt x y) eqn:?; cbv -[jlt]
             end; congruence.
  - pose proof (keep_larger_comm lo v1 v2 N1 N2 C1 C2) as H. cbv zeta in H.
    destruct (jlt lo v1) eqn:E1, (jlt lo v2) eqn:E2; cbv -[jlt]; rewrite ?E1, ?E2 in *; cbv -[jlt];
      repeat match goal with
             | |- context [jlt ?x ?y] => destruct (jlt x y) eqn:?; cbv -[jlt]
             end; congruence.
  - pose proof (keep_larger_comm lo v1 v2 N1 N2 C1 C2) as H. cbv zeta in H.
    destruct (jlt lo v1) eqn:E1, (jlt lo v2) eqn:E2; cbv -[jlt]; rewrite ?E1, ?E2 in *; cbv -[jlt];
      repeat match goal with
             | |- context [jlt ?x ?y] => destruct (jlt x y) eqn:?; cbv -[jlt]
             end; congruence.
  - pose proof (keep_smaller_comm hi v1 v2 N1 N2 C1 C2) as H. cbv zeta in H.
    destruct (jlt v1 hi) eqn:E1, (jlt v2 hi) eqn:E2; cbv -[jlt]; rewrite ?E1, ?E2 in *; cbv -[jlt];
      repeat match goal with
             | |- context [jlt ?x ?y] => destruct (jlt x y) eqn:?; cbv -[jlt]
             end; congruence.
  - pose proof (keep_smaller_comm hi v1 v2 N1 N2 C1 C2) as H. cbv zeta in H.
    destruct (jlt v1 hi) eqn:E1, (jlt v2 hi) eqn:E2; cbv -[jlt]; rewrite ?E1, ?E2 in *; cbv -[jlt];
      repeat match goal with
             | |- context [jlt ?x ?y] => destruct (jlt x y) eqn:?; cbv -[jlt]
             end; congruence.
Qed.

End Order.

Lemma bound_effects_commute_witness :
  applied Runtime.num_to_str Runtime.str_to_num (base_effect 15)
    (applied Runtime.num_to_str Runtime.str_to_num (base_effect 12) example_attribute)
  = applied Runtime.num_to_str Runtime.str_to_num (base_effect 12)
      (applied Runtime.num_to_str Runtime.str_to_num (base_effect 15) example_attribute).
Proof.
  apply (bound_effects_commute Runtime.num_to_str Runtime.str_to_num
           (base_effect 12) (base_effect 15) example_attribute (num 12) (num 15)).
  - simpl. left. reflexivity.
  - reflexivity.
  - reflexivity.
  - reflexivity.
  - discriminate.
  - discriminate.
  - reflexivity.
  - reflexivity.
  - exists (num 10), NInf, PInf. split; [| split]; reflexivity.
Defined.

Lemma jlt_floor_r (hi x : jsnum) : jlt hi x = false -> jlt hi (jfloor x) = false.
Proof.
  destruct hi as [h | | |], x as [q | | |]; simpl; auto.
  rewrite !negb_false_iff, !Qle_bool_iff. intros H.
  eapply Qle_trans; [apply Qfloor_le | exact H].
Qed.

Lemma jlt_floor_mono (x lo : jsnum) :
  jlt x lo = false -> jlt (jfloor x) (jfloor lo) = false.
Proof.
  destruct x as [q | | |], lo as [l | | |]; simpl; auto.
  rewrite !negb_false_iff, !Qle_bool_iff. intros H.
  rewrite <- Zle_Qle. now apply Qfloor_resp_le.
Qed.

Section Bounds.
Variable num_to_str : jsnum -> string.
Variable str_to_num : string -> jsnum.

(** X12. The result of an attribute is never above its max, whatever min
    is. When min is not above max, the result of a decimal attribute is not
    below min; the result of a whole-number attribute is not below the
    floor of min (it can be below a fractional min). *)
Theorem attribute_result_within_bounds (stat : Stat.t) (lo hi : jsnum) :
  Stat.min stat = VNum lo -> Stat.max stat = VNum hi ->
  let result :=
    ToNumber str_to_num (Stat.result (combineAttribute num_to_str str_to_num stat)) in
  jlt hi result = false
  /\ (jlt hi lo = false ->
      jlt result (if Stat.decimal stat then lo else jfloor lo) = false).
Proof.
  intros Hlo Hhi. cbv zeta. unfold combineAttribute. cbv zeta.
  rewrite Hlo, Hhi.
  set (x := jmul _ _).
  assert (Hres : forall s, Stat.result
            (if String.eqb (Stat.attributeType (Stat.set_result s stat)) "ability"
             then Stat.set_modifier
                    (jfloor (jdiv (jsub (ToNumber str_to_num s) (num 10)) (num 2)))
                    (Stat.set_result s stat)
             else Stat.set_result s stat) = s).
  { intros s. destruct stat; cbn. now destruct (String.eqb _ _). }
  rewrite Hres. clear Hres.
  unfold js_gt, js_lt. cbn [ToNumber].
  assert (Hr1 : (if jlt x lo then VNum lo else VNum x)
                = VNum (if jlt x lo then lo else x)) by now destruct (jlt x lo).
  rewrite Hr1. cbn [ToNumber].
  set (r1 := if jlt x lo then lo else x).
  assert (Hr2 : (if jlt hi r1 then VNum hi else VNum r1)
                = VNum (if jlt hi r1 then hi else r1)) by now destruct (jlt hi r1).
  rewrite Hr2.
  set (r2 := if jlt hi r1 then hi else r1).
  assert (Hup : jlt hi r2 = false).
  { unfold r2. destruct (jlt hi r1) eqn:E; [apply jlt_irrefl | exact E]. }
  assert (Hdown : jlt hi lo = false -> jlt r2 lo = false).
  { intros Hord. unfold r2, r1.
    destruct (jlt x lo) eqn:E1.
    - rewrite Hord. apply jlt_irrefl.
    - destruct (jlt hi x); [exact Hord | exact E1]. }
  destruct (Stat.decimal stat); cbn [negb ToNumber].
  - split; assumption.
  - split; [now apply jlt_floor_r | intros Hord; now apply jlt_floor_mono, Hdown].
Qed.

End Bounds.

Lemma attribute_result_within_bounds_witness :
  jlt PInf (ToNumber Runtime.str_to_num
              (Stat.result (combineAttribute Runtime.num_to_str Runtime.str_to_num
                              example_attribute))) = false
  /\ (jlt PInf NInf = false ->
      jlt (ToNumber Runtime.str_to_num
             (Stat.result (combineAttribute Runtime.num_to_str Runtime.str_to_num
                             example_attribute)))
          (jfloor NInf) = false).
Proof.
  apply (attribute_result_within_bounds Runtime.num_to_str Runtime.str_to_num
           example_attribute NInf PInf); reflexivity.
Defined.

(** ** Stats and characters at two moments of a run *)

Lemma keys_assign {A : Type} (k : string) (v v0 : A) (m : list (string * A)) :
  lookup k m = Some v0 -> map fst (assign k v m) = map fst m.
Proof.
  induction m as [| [k' v'] m IH]; simpl; [discriminate |].
  destruct (String.eqb k k') eqn:E; simpl; [reflexivity |].
  intros H. now rewrite IH.
Qed.

Lemma sref_eq_dec (r r' : sref) : {r = r'} + {r <> r'}.
Proof. decide equality; apply string_dec. Qed.

Lemma deref_store_other (r r' : sref) (s : Stat.t) (c : character) :
  r' <> r -> deref r' (store r s c) = deref r' c.
Proof.
  intros Hne. destruct r, r'; simpl; try reflexivity;
    apply lookup_assign_other; congruence.
Qed.

Lemma evolves_refl (s : Stat.t) : evolves s s.
Proof. unfold evolves. tauto. Qed.

Lemma evolves_trans (s1 s2 s3 : Stat.t) :
  evolves s1 s2 -> evolves s2 s3 -> evolves s1 s3.
Proof.
  unfold evolves. intros H1 H2.
  destruct H1 as (? & ? & ? & ? & ? & ? & ? & ? & ? & ? & ?).
  destruct H2 as (? & ? & ? & ? & ? & ? & ? & ? & ? & ? & ?).
  repeat split; try congruence; auto.
Qed.

Lemma keeps_refl (c : character) : keeps c c.
Proof.
  unfold keeps. repeat split; auto.
  intros r s H. exists s. split; [assumption | split; [apply evolves_refl | reflexivity]].
Qed.

Lemma keeps_trans (c1 c2 c3 : character) : keeps c1 c2 -> keeps c2 c3 -> keeps c1 c3.
Proof.
  intros (A1 & S1 & D1 & C1 & L1 & H1) (A2 & S2 & D2 & C2 & L2 & H2).
  unfold keeps. repeat split; try congruence.
  intros r s Hs.
  destruct (H1 r s Hs) as (s' & Hs' & He & Hc).
  destruct (H2 r s' Hs') as (s'' & Hs'' & He' & Hc').
  exists s''. split; [assumption | split].
  - eapply evolves_trans; eassumption.
  - intros Hcomp. specialize (Hc Hcomp). subst s'. auto.
Qed.

Lemma keys_store (r : sref) (s s0 : Stat.t) (c : character) :
  deref r c = Some s0 ->
  map fst (atts (store r s c)) = map fst (atts c)
  /\ map fst (skills (store r s c)) = map fst (skills c)
  /\ map fst (dms (store r s c)) = map fst (dms c)
  /\ classes (store r s c) = classes c
  /\ level (store r s c) = level c.
Proof.
  intros H. destruct r; simpl in *; repeat split; eauto using keys_assign.
Qed.

(** Writing to a stat that was not computed at the start. *)
Lemma keeps_store (c0 c : character) (r : sref) (s1 s2 : Stat.t) :
  keeps c0 c -> deref r c = Some s1 -> evolves s1 s2 ->
  (forall s, deref r c0 = Some s -> Stat.computed s = false) ->
  keeps c0 (store r s2 c).
Proof.
  intros (A1 & S1 & D1 & C1 & L1 & H1) Hr He Hfresh.
  destruct (keys_store r s2 s1 c Hr) as (A2 & S2 & D2 & C2 & L2).
  unfold keeps. repeat split; try congruence.
  intros r' s Hs.
  destruct (H1 r' s Hs) as (s' & Hs' & He' & Hc).
  destruct (sref_eq_dec r' r) as [-> | Hne].
  - exists s2. rewrite deref_store_same. split; [reflexivity | split].
    + rewrite Hr in Hs'. injection Hs' as <-. eapply evolves_trans; eassumption.
    + intros Hcomp. rewrite (Hfresh s Hs) in Hcomp. discriminate.
  - exists s'. rewrite deref_store_other by assumption. auto.
Qed.

Lemma post_bind {A B : Type} (m : M A) (f : A -> M B) (w : world)
  (Q : B -> world -> Prop) :
  post m w (fun a w1 => post (f a) w1 Q) -> post (bind m f) w Q.
Proof. unfold post, bind. destruct (m w); auto. Qed.

Lemma post_weaken {A : Type} (m : M A) (w : world) (Q Q' : A -> world -> Prop) :
  post m w Q -> (forall a w', Q a w' -> Q' a w') -> post m w Q'.
Proof. unfold post. destruct (m w); auto. Qed.

Lemma post_for_in (I : world -> Prop) (body : nat -> M unit) (n : nat) :
  (forall k w, I w -> post (body k) w (fun _ w' => I w')) ->
  forall from w, I w -> post (for_in n from body) w (fun _ w' => I w').
Proof.
  intros Hbody. induction n as [| n IH]; intros from w Hw; simpl.
  - exact Hw.
  - apply post_bind. eapply post_weaken; [apply Hbody, Hw |].
    intros ? w' Hw'. now apply IH.
Qed.

Lemma map_formula_list_set (k : nat) (e e' : Effect.t) (l : list Effect.t) :
  nth_error l k = Some e -> formula_of e' = formula_of e ->
  map formula_of (list_set k e' l) = map formula_of l.
Proof.
  revert k. induction l as [| x l IH]; intros [| k]; simpl; try discriminate.
  - intros [= ->] ->. reflexivity.
  - intros H1 H2. now rewrite IH.
Qed.

Lemma evolves_effect (s : Stat.t) (k : nat) (f : Effect.t -> Effect.t) :
  (forall e, formula_of (f e) = formula_of e) ->
  evolves s (match nth_error (Stat.effects s) k with
             | Some e => Stat.set_effects (list_set k (f e) (Stat.effects s)) s
             | None => s
             end).
Proof.
  intros Hf. destruct (nth_error (Stat.effects s) k) as [e |] eqn:E;
    [| apply evolves_refl].
  pose proof (map_formula_list_set k e (f e) (Stat.effects s) E (Hf e)) as Hmap.
  destruct s; unfold evolves; cbn in *. repeat split; auto.
Qed.

Lemma evolves_accumulators (s s' : Stat.t) : same_but_accumulators s s' -> evolves s s'.
Proof.
  unfold same_but_accumulators, evolves.
  intros (? & ? & ? & ? & ? & ? & ? & ? & ? & ? & ? & ? & ? & ?).
  repeat split; try congruence.
Qed.

Lemma evolves_combineAttribute
  (num_to_str : jsnum -> string) (str_to_num : string -> jsnum) (s : Stat.t) :
  evolves s (combineAttribute num_to_str str_to_num s).
Proof.
  unfold combineAttribute. cbv zeta.
  match goal with
  | |- context [if String.eqb ?a ?b then _ else _] => destruct (String.eqb a b)
  end; destruct s; unfold evolves; cbn; repeat split; auto.
Qed.

Lemma evolves_combineDamageMultiplier (s : Stat.t) :
  evolves s (combineDamageMultiplier s).
Proof.
  unfold combineDamageMultiplier.
  repeat match goal with
         | |- context [if ?b then _ else _] => destruct b
         end; try apply evolves_refl;
    destruct s; unfold evolves; cbn; repeat split; auto.
Qed.

Lemma evolves_set_result (v : value) (s : Stat.t) : evolves s (Stat.set_result v s).
Proof. destruct s; unfold evolves; cbn; repeat split; auto. Qed.

Lemma evolves_set_proficiency (v : jsnum) (s : Stat.t) :
  evolves s (Stat.set_proficiency v s).
Proof. destruct s; unfold evolves; cbn; repeat split; auto. Qed.

Lemma evolves_mark_computed (s : Stat.t) : evolves s (mark_computed s).
Proof. destruct s; unfold evolves; cbn; repeat split; auto; discriminate. Qed.

Lemma evolves_mark_NaN (s : Stat.t) : evolves s (mark_NaN s).
Proof. destruct s; unfold evolves; cbn; repeat split; auto; discriminate. Qed.

Lemma evolves_combined
  (num_to_str : jsnum -> string) (str_to_num : string -> jsnum)
  (ty : kind) (v : value) (s : Stat.t) :
  evolves s (combined num_to_str str_to_num ty v s).
Proof.
  destruct ty; simpl;
    auto using evolves_combineAttribute, evolves_set_result,
               evolves_combineDamageMultiplier.
Qed.

Lemma quiet_effect (s : Stat.t) (k : nat) (f : Effect.t -> Effect.t) :
  (forall e, formula_of (f e) = formula_of e) ->
  quiet s (match nth_error (Stat.effects s) k with
           | Some e => Stat.set_effects (list_set k (f e) (Stat.effects s)) s
           | None => s
           end).
Proof.
  intros Hf. split; [now apply evolves_effect |].
  destruct (nth_error (Stat.effects s) k); [| tauto]. now destruct s.
Qed.

Lemma quiet_accumulators (s s' : Stat.t) : same_but_accumulators s s' -> quiet s s'.
Proof.
  intros H. split; [now apply evolves_accumulators |].
  unfold same_but_accumulators in H. tauto.
Qed.

Lemma quiet_set_proficiency (v : jsnum) (s : Stat.t) :
  quiet s (Stat.set_proficiency v s).
Proof. split; [apply evolves_set_proficiency | now destruct s]. Qed.

(** ** Invariants of a run

    [I] is what is to hold of the character throughout an activation of
    [computeStat] on the stat [r], [I2] what holds between [combineStat]
    and the last statement. The activations that this one starts keep
    [I]; so do the writes of the two loops, and so do the last writes. *)

Section Invariant.
Variable math_eval : string -> option value.
Variable num_to_str : jsnum -> string.
Variable str_to_num : string -> jsnum.
Variable rec : option sref -> M unit.
Variable I : character -> Prop.

Hypothesis rec_passes : forall o, passing I I (rec o).

Lemma passing_bind {A B : Type} (P Q R : character -> Prop) (m : M A) (f : A -> M B) :
  passing P Q m -> (forall a, passing Q R (f a)) -> passing P R (bind m f).
Proof.
  intros Hm Hf w Hw. apply post_bind.
  eapply post_weaken; [apply Hm, Hw |]. intros a w' Hw'. now apply Hf.
Qed.

Lemma passing_ret {A : Type} (P : character -> Prop) (a : A) : passing P P (ret a).
Proof. intros w Hw. exact Hw. Qed.

Lemma passing_throw {A : Type} (P Q : character -> Prop) (e : exn) :
  passing P Q (throw e : M A).
Proof. intros w Hw. exact Logic.I. Qed.

Lemma passing_get_char (P : character -> Prop) : passing P P get_char.
Proof. intros w Hw. exact Hw. Qed.

Lemma passing_get_i (P : character -> Prop) : passing P P get_i.
Proof. intros w Hw. exact Hw. Qed.

Lemma passing_set_i (P : character -> Prop) (k : nat) : passing P P (set_i k).
Proof. intros w Hw. exact Hw. Qed.

Lemma passing_read (P : character -> Prop) (r : sref) : passing P P (read r).
Proof. intros w Hw. unfold post, read. now destruct (deref r (char w)). Qed.

Lemma passing_object (P : character -> Prop) (r : sref) : passing P P (object r).
Proof. intros w Hw. unfold post, object. now destruct (deref r (char w)). Qed.

Lemma passing_for_in (P : character -> Prop) (n from : nat) (body : nat -> M unit) :
  (forall k, passing P P (body k)) -> passing P P (for_in n from body).
Proof.
  intros Hbody w Hw.
  apply (post_for_in (fun w => P (char w)) body n); auto.
Qed.

Ltac pass :=
  repeat first
    [ apply passing_ret | apply passing_throw | apply passing_get_char
    | apply passing_get_i | apply passing_set_i | apply passing_read
    | apply passing_object | apply rec_passes
    | eapply passing_bind; [| intros ?]
    | match goal with
      | |- passing _ _ (if ?b then _ else _) => destruct b
      | |- passing _ _ (match ?x with Some _ => _ | None => _ end) => destruct x
      end ].

Lemma passing_ensure_computed (r : sref) : passing I I (ensure_computed rec r).
Proof. unfold ensure_computed. pass. Qed.

Lemma passing_substitute (matched : string) :
  passing I I (substitute rec matched).
Proof.
  unfold substitute. cbv zeta.
  eapply passing_bind; [apply passing_get_char | intros c].
  repeat match goal with
         | |- passing _ _ (if ?b then _ else _) => destruct b
         end; unfold ensure_computed; pass.
Qed.

Lemma passing_replace (ps : list piece) :
  passing I I (replace num_to_str rec ps).
Proof.
  induction ps as [| [c | sub] ps IH]; simpl.
  - apply passing_ret.
  - eapply passing_bind; [exact IH | intros ?; apply passing_ret].
  - eapply passing_bind; [apply passing_substitute | intros ?].
    eapply passing_bind; [exact IH | intros ?; apply passing_ret].
Qed.

Lemma passing_evaluateCalculation (s : string) :
  passing I I (evaluateCalculation math_eval num_to_str rec s).
Proof.
  unfold evaluateCalculation. destruct (String.eqb s ""); [apply passing_ret |].
  eapply passing_bind; [apply passing_replace | intros ?].
  destruct (math_eval _); apply passing_ret.
Qed.

Variable r : sref.
Variable ty : kind.
Variable I2 : character -> Prop.

Hypothesis I_type :
  forall c s, I c -> deref r c = Some s -> Stat.type s = ty.
Hypothesis I_quiet :
  forall c s s', I c -> deref r c = Some s -> quiet s s' -> I (store r s' c).
Hypothesis I_combined :
  forall c s v, I c -> deref r c = Some s ->
    I2 (store r (combined num_to_str str_to_num ty v s) c).
Hypothesis I_mark_computed :
  forall c s, I2 c -> deref r c = Some s -> I (store r (mark_computed s) c).
Hypothesis I_mark_NaN :
  forall c s, I c -> deref r c = Some s -> Stat.busyComputing s = true ->
    I (store r (mark_NaN s) c).

Lemma passing_mutate (f : Stat.t -> Stat.t) :
  (forall s, quiet s (f s)) -> passing I I (mutate r f).
Proof.
  intros Hf w Hw. unfold post, mutate.
  destruct (deref r (char w)) as [s |] eqn:E; [| exact Logic.I].
  simpl. eapply I_quiet; eauto.
Qed.

Lemma passing_mutate_effect (k : nat) (f : Effect.t -> Effect.t) :
  (forall e, formula_of (f e) = formula_of e) ->
  passing I I (mutate_effect r k f).
Proof.
  intros Hf. unfold mutate_effect. apply passing_mutate.
  intros s. now apply quiet_effect.
Qed.

Lemma passing_computeEffect (k : nat) :
  passing I I (computeEffect math_eval num_to_str rec (Some (r, k))).
Proof.
  unfold computeEffect.
  eapply passing_bind.
  { intros w Hw. unfold post, read_effect.
    destruct (deref r (char w)); [| exact Logic.I].
    destruct (nth_error _ _); [exact Hw | exact Logic.I]. }
  intros effect. destruct (Effect.computed effect); [apply passing_ret |].
  eapply passing_bind.
  - destruct (Effect.value effect) as [[q | | |] |];
      try (apply passing_mutate_effect; intros e; now destruct e);
      repeat match goal with
             | |- passing _ _ (if ?b then _ else _) => destruct b
             end;
      try (apply passing_mutate_effect; intros e; now destruct e);
      (destruct (Effect.calculation effect);
       [ eapply passing_bind; [apply passing_evaluateCalculation | intros ?];
         apply passing_mutate_effect; intros e; now destruct e
       | apply passing_ret ]).
  - intros _. apply passing_mutate_effect. intros e. now destruct e.
Qed.

Lemma passing_computeEffect_nothing :
  passing I I (computeEffect math_eval num_to_str rec None).
Proof. intros w Hw. unfold post, computeEffect, bind, read_effect. exact Logic.I. Qed.

Lemma read_effect_Ok (target : option (sref * nat)) (w w1 : world) (e : Effect.t) :
  read_effect target w = Ok e w1 -> w1 = w.
Proof.
  unfold read_effect. destruct target as [[r' k] |]; [| discriminate].
  destruct (deref r' (char w)); [| discriminate].
  destruct (nth_error _ _); now intros [= _ <-].
Qed.

Lemma passing_applyEffect_to (target : option (sref * nat)) :
  passing I I (applyEffect_to num_to_str str_to_num target r).
Proof.
  intros w Hw. unfold applyEffect_to. apply post_bind.
  unfold post at 1. destruct (read_effect target w) as [effect w1 | |] eqn:E1; auto.
  apply read_effect_Ok in E1. subst w1.
  apply post_bind. unfold post at 1, read.
  destruct (deref r (char w)) as [stat |] eqn:E2; auto.
  destruct (applyEffect_same_but_accumulators num_to_str str_to_num effect stat)
    as (stat' & -> & Hsame).
  unfold post, mutate. rewrite E2. simpl.
  eapply I_quiet; eauto using quiet_accumulators.
Qed.

Lemma passing_effect_at {B : Type} (P Q : character -> Prop) (k : nat)
  (f : option (sref * nat) -> M B) :
  (forall k, passing P Q (f (Some (r, k)))) -> passing P Q (f None) ->
  passing P Q (bind (effect_at r k) f).
Proof.
  intros Hsome Hnone w Hw. unfold post, bind, effect_at.
  destruct (deref r (char w)); [| exact Logic.I].
  destruct (nth_error _ _); [apply Hsome | apply Hnone]; exact Hw.
Qed.

Lemma passing_effects_loop (n : nat) :
  passing I I
    (for_in n 0 (fun k =>
       set_i k ;;;
       i <- get_i ;;
       e <- effect_at r i ;;
       computeEffect math_eval num_to_str rec e ;;;
       i <- get_i ;;
       e <- effect_at r i ;;
       applyEffect_to num_to_str str_to_num e r)).
Proof.
  apply passing_for_in. intros k.
  eapply passing_bind; [apply passing_set_i | intros _].
  eapply passing_bind; [apply passing_get_i | intros i].
  apply passing_effect_at.
  - intros k'. eapply passing_bind; [apply passing_computeEffect | intros _].
    eapply passing_bind; [apply passing_get_i | intros i'].
    apply passing_effect_at; intros; apply passing_applyEffect_to.
  - eapply passing_bind; [apply passing_computeEffect_nothing | intros _].
    eapply passing_bind; [apply passing_get_i | intros i'].
    apply passing_effect_at; intros; apply passing_applyEffect_to.
Qed.

Lemma passing_mutate_set_result (v : Stat.t -> value) :
  ty = skill -> passing I I2 (mutate r (fun s => Stat.set_result (v s) s)).
Proof.
  intros Hty w Hw. unfold post, mutate.
  destruct (deref r (char w)) as [s |] eqn:E; [| exact Logic.I].
  simpl. pose proof (I_combined (char w) s (v s) Hw E) as H.
  now rewrite Hty in H.
Qed.

Lemma passing_combineSkill :
  ty = skill -> passing I I2 (combineSkill num_to_str str_to_num rec r).
Proof.
  intros Hty. unfold combineSkill.
  eapply passing_bind; [apply passing_read | intros stat].
  eapply passing_bind.
  { apply passing_for_in. intros k.
    eapply passing_bind; [apply passing_set_i | intros _].
    eapply passing_bind; [apply passing_get_i | intros i].
    eapply passing_bind; [apply passing_read | intros stat'].
    destruct (nth_error _ _); [| apply passing_throw].
    destruct (jlt _ _); [| apply passing_ret].
    apply passing_mutate. intros s. apply quiet_set_proficiency. }
  intros _.
  eapply passing_bind; [apply passing_get_char | intros c].
  eapply passing_bind.
  { destruct (defined _ _); [| apply passing_ret]. pass. }
  intros profBonus.
  eapply passing_bind; [apply passing_read | intros stat1].
  eapply passing_bind; [apply passing_get_char | intros c1].
  eapply passing_bind.
  { destruct (Stat.ability stat1); [| apply passing_ret].
    destruct (_ && _); [| apply passing_ret].
    eapply passing_bind; [apply passing_ensure_computed | intros _]. pass. }
  intros abilityMod.
  intros w Hw. unfold post, bind, read.
  destruct (deref r (char w)) as [stat2 |] eqn:E; [| exact Logic.I].
  unfold mutate. rewrite E. simpl.
  match goal with
  | |- I2 (store r (Stat.set_result ?v stat2) _) =>
      pose proof (I_combined (char w) stat2 v Hw E) as H
  end.
  now rewrite Hty in H.
Qed.

Lemma passing_combineStat :
  passing I I2 (combineStat num_to_str str_to_num rec r).
Proof.
  unfold combineStat. intros w Hw. apply post_bind. unfold post at 1, read.
  destruct (deref r (char w)) as [stat |] eqn:E; [| exact Logic.I].
  pose proof (I_type _ _ Hw E) as Hty.
  destruct (Stat.type stat) eqn:Et.
  - unfold post, mutate. rewrite E. simpl.
    pose proof (I_combined (char w) stat VUndef Hw E) as H.
    now rewrite <- Hty in H.
  - now apply passing_combineSkill.
  - unfold post, mutate. rewrite E. simpl.
    pose proof (I_combined (char w) stat VUndef Hw E) as H.
    now rewrite <- Hty in H.
Qed.

(** An activation on a stat that is not computed yet. *)
Lemma computeStat_body_passes (w : world) (s : Stat.t) :
  deref r (char w) = Some s -> Stat.computed s = false -> I (char w) ->
  post (computeStat_body math_eval num_to_str str_to_num rec (Some r)) w
       (fun _ w' => I (char w')).
Proof.
  intros E Ec Hw.
  unfold computeStat_body. unfold post, bind at 1, read. rewrite E, Ec.
  destruct (Stat.busyComputing s) eqn:Eb.
  - unfold mutate. rewrite E. simpl. now apply I_mark_NaN.
  - refine (passing_bind I I I _ _ _ _ w Hw).
    + apply passing_effects_loop.
    + intros _. eapply passing_bind; [apply passing_combineStat |].
      intros _ w1 Hw1. unfold post, mutate.
      destruct (deref r (char w1)) as [s1 |] eqn:E1; [| exact Logic.I].
      simpl. now apply I_mark_computed.
Qed.

End Invariant.

(** ** What a run keeps *)

Section Frame.
Variable math_eval : string -> option value.
Variable num_to_str : jsnum -> string.
Variable str_to_num : string -> jsnum.

Lemma computeStat_body_keeps (rec : option sref -> M unit) :
  (forall o w, post (rec o) w (fun _ w' => keeps (char w) (char w'))) ->
  forall o w,
  post (computeStat_body math_eval num_to_str str_to_num rec o) w
       (fun _ w' => keeps (char w) (char w')).
Proof.
  intros Hrec o w.
  destruct o as [r |]; [| exact Logic.I].
  destruct (deref r (char w)) as [s |] eqn:E.
  2: { unfold post, computeStat_body, bind, read. now rewrite E. }
  destruct (Stat.computed s) eqn:Ec.
  { unfold post, computeStat_body, bind, read. rewrite E, Ec. apply keeps_refl. }
  assert (fresh : forall s, deref r (char w) = Some s -> Stat.computed s = false)
    by (intros s' Hs'; congruence).
  apply (computeStat_body_passes math_eval num_to_str str_to_num rec
           (keeps (char w))) with (ty := Stat.type s) (I2 := keeps (char w)) (s := s);
    auto using keeps_refl.
  - intros o' w1 Hw1. eapply post_weaken; [apply Hrec |].
    intros ? w' Hw'. simpl in Hw'. eapply keeps_trans; eassumption.
  - intros c s1 (_ & _ & _ & _ & _ & K) Hs1.
    destruct (K _ _ E) as (s' & Hs' & He & _).
    rewrite Hs1 in Hs'. injection Hs' as <-. apply He.
  - intros c s1 s2 K Hs1 (He & _). eapply keeps_store; eauto.
  - intros c s1 v K Hs1. eapply keeps_store; eauto using evolves_combined.
  - intros c s1 K Hs1. eapply keeps_store; eauto using evolves_mark_computed.
  - intros c s1 K Hs1 _. eapply keeps_store; eauto using evolves_mark_NaN.
Qed.

Lemma computeStat_keeps (fuel : nat) (o : option sref) (w : world) :
  post (computeStat math_eval num_to_str str_to_num fuel o) w
       (fun _ w' => keeps (char w) (char w')).
Proof.
  revert o w. induction fuel as [| fuel IH]; intros o w; [exact Logic.I |].
  simpl. now apply computeStat_body_keeps.
Qed.

End Frame.

Lemma bind_Ok {A B : Type} (m : M A) (f : A -> M B) (w w' : world) (b : B) :
  bind m f w = Ok b w' -> exists a w1, m w = Ok a w1 /\ f a w1 = Ok b w'.
Proof.
  unfold bind. destruct (m w) as [a w1 | |]; try discriminate. eauto.
Qed.

Lemma keys_defined {A : Type} (k : string) (m : list (string * A)) :
  In k (map fst m) -> exists v, lookup k m = Some v.
Proof.
  induction m as [| [k' v'] m IH]; simpl; [tauto |].
  intros [-> | H].
  - rewrite String.eqb_refl. eauto.
  - destruct (String.eqb k k'); eauto.
Qed.

Section Run.
Variable math_eval : string -> option value.
Variable num_to_str : jsnum -> string.
Variable str_to_num : string -> jsnum.

Local Abbreviation computeStat' := (computeStat math_eval num_to_str str_to_num).
Local Abbreviation compute_each' := (compute_each math_eval num_to_str str_to_num).
Local Abbreviation computeCharacter' :=
  (computeCharacter math_eval num_to_str str_to_num).

Lemma computeStat_computes (fuel : nat) (r : sref) (w w' : world) :
  computeStat' fuel (Some r) w = Ok tt w' ->
  exists s, deref r (char w') = Some s /\ Stat.computed s = true.
Proof.
  destruct fuel as [| fuel]; [discriminate |]. simpl.
  unfold computeStat_body. intros H.
  apply bind_Ok in H. destruct H as (s & w1 & Hread & H).
  unfold read in Hread. destruct (deref r (char w)) as [s0 |] eqn:E; [| discriminate].
  injection Hread as -> ->.
  destruct (Stat.computed s) eqn:Ec.
  - injection H as <-. eauto.
  - destruct (Stat.busyComputing s).
    + unfold mutate in H. rewrite E in H. injection H as <-. simpl.
      rewrite deref_store_same. eexists. split; [reflexivity |]. now destruct s.
    + apply bind_Ok in H. destruct H as (? & w2 & _ & H).
      apply bind_Ok in H. destruct H as (? & w3 & _ & H).
      unfold mutate in H. destruct (deref r (char w3)) as [s3 |]; [| discriminate].
      injection H as <-. simpl.
      rewrite deref_store_same. eexists. split; [reflexivity |]. now destruct s3.
Qed.

(** X13. In a character whose abilities and formulas reach no inherited
    key: when [computeStat] returns it has marked the stat computed, and
    it has kept the character in shape: the same stats in the same order,
    the same class levels and level; no stat has changed its type, its
    ability, its proficiencies, its counts or the operation, value and
    formula of an effect; no stat has been marked busy; and a stat that
    was computed before is exactly as it was. *)
Theorem computeStat_computes_and_keeps (fuel : nat) (r : sref) (w w' : world) :
  ordinary (char w) = true ->
  computeStat' fuel (Some r) w = Ok tt w' ->
  keeps (char w) (char w')
  /\ exists s, deref r (char w') = Some s /\ Stat.computed s = true.
Proof.
  intros _ H. split.
  - pose proof (computeStat_keeps math_eval num_to_str str_to_num fuel (Some r) w) as K.
    unfold post in K. now rewrite H in K.
  - eapply computeStat_computes, H.
Qed.

Lemma compute_each_computes (fuel : nat) (ref : string -> sref) (names : list string) :
  forall w w',
  compute_each' fuel ref names w = Ok tt w' ->
  keeps (char w) (char w')
  /\ forall n, In n names ->
       exists s, deref (ref n) (char w') = Some s /\ Stat.computed s = true.
Proof.
  induction names as [| name names IH]; intros w w' H; simpl in H.
  - injection H as <-. split; [apply keeps_refl | intros n []].
  - apply bind_Ok in H. destruct H as ([] & w1 & H1 & H2).
    apply bind_Ok in H1. destruct H1 as (o & w0 & Ho & H1).
    assert (w0 = w /\ (o = None \/ o = Some (ref name))) as [-> Hcase].
    { unfold object in Ho. destruct (deref (ref name) (char w));
        injection Ho as <- <-; auto. }
    destruct Hcase as [-> | ->].
    { destruct fuel; discriminate. }
    pose proof (computeStat_keeps math_eval num_to_str str_to_num
                  fuel (Some (ref name)) w) as K1.
    unfold post in K1. rewrite H1 in K1.
    destruct (computeStat_computes _ _ _ _ H1) as (s & Hs & Hc).
    destruct (IH _ _ H2) as (K2 & Hrest).
    split; [eapply keeps_trans; eassumption |].
    intros n [<- | Hin]; [| now apply Hrest].
    destruct K2 as (_ & _ & _ & _ & _ & K2).
    destruct (K2 _ _ Hs) as (s' & Hs' & _ & Hsame).
    exists s'. split; [assumption |]. now rewrite (Hsame Hc).
Qed.

Lemma keeps_computed (c c' : character) (r : sref) :
  keeps c c' ->
  (exists s, deref r c = Some s /\ Stat.computed s = true) ->
  exists s, deref r c' = Some s /\ Stat.computed s = true.
Proof.
  intros (_ & _ & _ & _ & _ & K) (s & Hs & Hc).
  destruct (K _ _ Hs) as (s' & Hs' & _ & Hsame).
  exists s'. split; [assumption |]. now rewrite (Hsame Hc).
Qed.

(** X14. In a character whose abilities and formulas reach no inherited
    key: when [computeCharacter] returns, what it returns is the
    character it was given, in the same shape, with every attribute, skill
    and damage multiplier marked computed. *)
Theorem computeCharacter_computes_every_stat (fuel : nat) (w w' : world) (c : character) :
  ordinary (char w) = true ->
  computeCharacter' fuel w = Ok c w' ->
  c = char w' /\ keeps (char w) c /\ all_computed c.
Proof.
  unfold computeCharacter, get_char. intros _ H.
  apply bind_Ok in H. destruct H as (c0 & w0 & [= <- <-] & H).
  apply bind_Ok in H. destruct H as ([] & w1 & H1 & H).
  apply bind_Ok in H. destruct H as (c1 & w1' & [= <- <-] & H).
  apply bind_Ok in H. destruct H as ([] & w2 & H2 & H).
  apply bind_Ok in H. destruct H as (c2 & w2' & [= <- <-] & H).
  apply bind_Ok in H. destruct H as ([] & w3 & H3 & [= <- <-]).
  apply compute_each_computes in H1. destruct H1 as (K1 & C1).
  apply compute_each_computes in H2. destruct H2 as (K2 & C2).
  apply compute_each_computes in H3. destruct H3 as (K3 & C3).
  pose proof (keeps_trans _ _ _ K1 K2) as K12.
  pose proof (keeps_trans _ _ _ K12 K3) as K123.
  split; [reflexivity | split; [exact K123 |]].
  intros r s Hs.
  assert (Hc : exists s', deref r (char w3) = Some s' /\ Stat.computed s' = true).
  { pose proof K123 as (KA & _ & _ & _ & _ & _).
    pose proof K3 as (_ & KS3 & KD3 & _ & _ & _).
    pose proof K2 as (_ & KS2 & _ & _ & _ & _).
    destruct r as [n | n | n]; simpl in Hs; apply lookup_in_keys in Hs.
    - rewrite KA in Hs.
      eapply keeps_computed; [exact K3 |].
      eapply keeps_computed; [exact K2 |]. exact (C1 n Hs).
    - rewrite KS3, KS2 in Hs.
      eapply keeps_computed; [exact K3 |]. exact (C2 n Hs).
    - rewrite KD3 in Hs. exact (C3 n Hs). }
  destruct Hc as (s' & Hs' & Hc). congruence.
Qed.

Lemma compute_each_computed (fuel : nat) (ref : string -> sref) (names : list string)
  (w : world) :
  all_computed (char w) ->
  (forall n, In n names -> exists s, deref (ref n) (char w) = Some s) ->
  compute_each' (S fuel) ref names w = Ok tt w.
Proof.
  intros Hall. induction names as [| name names IH]; intros Hin; [reflexivity |].
  destruct (Hin name (or_introl eq_refl)) as (s & Hs).
  change (compute_each' (S fuel) ref (name :: names))
    with ((o <- object (ref name) ;; computeStat' (S fuel) o) ;;;
          compute_each' (S fuel) ref names).
  unfold bind at 1 2, object. rewrite Hs.
  simpl. unfold computeStat_body, bind at 1, read. rewrite Hs.
  rewrite (Hall _ _ Hs). simpl.
  apply IH. intros n Hn. apply Hin. now right.
Qed.

(** X15. Run on a character whose stats are all marked computed (what a
    first pass returns), [computeCharacter] returns the character as it is
    and changes nothing, not even the loop variable. *)
Theorem computeCharacter_twice (fuel : nat) (w : world) :
  all_computed (char w) ->
  computeCharacter' (S fuel) w = Ok (char w) w.
Proof.
  intros Hall. unfold computeCharacter.
  unfold bind at 1, get_char.
  unfold bind at 1.
  rewrite (compute_each_computed fuel InAtts _ w Hall)
    by (intros n Hn; apply keys_defined in Hn; exact Hn).
  unfold bind at 1. unfold bind at 1.
  rewrite (compute_each_computed fuel InSkills _ w Hall)
    by (intros n Hn; apply keys_defined in Hn; exact Hn).
  unfold bind at 1. unfold bind at 1.
  rewrite (compute_each_computed fuel InDms _ w Hall)
    by (intros n Hn; apply keys_defined in Hn; exact Hn).
  reflexivity.
Qed.

End Run.

Lemma computeStat_computes_and_keeps_witness :
  keeps (char strength_world) (char computed_strength_world)
  /\ exists s, deref (InAtts "strength") (char computed_strength_world) = Some s
               /\ Stat.computed s = true.
Proof.
  apply (computeStat_computes_and_keeps
           Runtime.math_eval Runtime.num_to_str Runtime.str_to_num
           1 (InAtts "strength") strength_world computed_strength_world);
    reflexivity.
Defined.

Lemma computeCharacter_computes_every_stat_witness :
  char computed_plain_world = char computed_plain_world
  /\ keeps (char plain_world) (char computed_plain_world)
  /\ all_computed (char computed_plain_world).
Proof.
  apply (computeCharacter_computes_every_stat
           Runtime.math_eval Runtime.num_to_str Runtime.str_to_num
           2 plain_world computed_plain_world (char computed_plain_world)).
  - reflexivity.
  - vm_compute. reflexivity.
Defined.

Lemma computeCharacter_twice_witness :
  computeCharacter Runtime.math_eval Runtime.num_to_str Runtime.str_to_num
    1 computed_strength_world
  = Ok (char computed_strength_world) computed_strength_world.
Proof.
  apply (computeCharacter_twice Runtime.math_eval Runtime.num_to_str Runtime.str_to_num
           0 computed_strength_world).
  intros r s H. destruct r as [n | n | n]; simpl in H; try discriminate.
  destruct (String.eqb n "strength"); [| discriminate].
  injection H as <-. reflexivity.
Defined.

(** ** Damage multipliers *)

Lemma post_and {A : Type} (m : M A) (w : world) (Q1 Q2 : A -> world -> Prop) :
  post m w Q1 -> post m w Q2 -> post m w (fun a w' => Q1 a w' /\ Q2 a w').
Proof. unfold post. destruct (m w); auto. Qed.

Lemma all_neutral_store (r : sref) (s : Stat.t) (c : character) :
  all_neutral c -> neutral s -> all_neutral (store r s c).
Proof.
  intros Hc Hs r' s' H.
  destruct (sref_eq_dec r' r) as [-> | Hne].
  - rewrite deref_store_same in H. now injection H as <-.
  - rewrite deref_store_other in H by assumption. eapply Hc, H.
Qed.

Lemma neutral_quiet (s s' : Stat.t) : neutral s -> quiet s s' -> neutral s'.
Proof.
  unfold neutral, quiet, evolves.
  intros H ((Ht & _ & _ & _ & _ & Hi & Hr & Hv & _) & Hc & Hb & Hres & _) Hty.
  rewrite Ht in Hty. destruct (H Hty) as (? & ? & ? & ? & ?).
  rewrite Hi, Hr, Hv, Hc, Hb, Hres. auto.
Qed.

Lemma neutral_other (s : Stat.t) : Stat.type s <> damageMultiplier -> neutral s.
Proof. intros H Hty. contradiction. Qed.

Lemma neutral_combined (s : Stat.t) :
  neutral s -> Stat.type s = damageMultiplier ->
  combineDamageMultiplier s = Stat.set_result (VNum (num 1)) s.
Proof.
  intros H Hty. destruct (H Hty) as (Hi & Hr & Hv & _).
  unfold combineDamageMultiplier. now rewrite Hi, Hr, Hv.
Qed.

Section Neutral.
Variable math_eval : string -> option value.
Variable num_to_str : jsnum -> string.
Variable str_to_num : string -> jsnum.

Lemma computeStat_body_neutral (rec : option sref -> M unit) :
  (forall o w, post (rec o) w (fun _ w' => keeps (char w) (char w'))) ->
  (forall o w, all_neutral (char w) ->
               post (rec o) w (fun _ w' => all_neutral (char w'))) ->
  forall o w, all_neutral (char w) ->
  post (computeStat_body math_eval num_to_str str_to_num rec o) w
       (fun _ w' => all_neutral (char w')).
Proof.
  intros Hkeeps Hrec o w Hw.
  destruct o as [r |]; [| exact Logic.I].
  destruct (deref r (char w)) as [s |] eqn:E.
  2: { unfold post, computeStat_body, bind, read. now rewrite E. }
  destruct (Stat.computed s) eqn:Ec.
  { unfold post, computeStat_body, bind, read. now rewrite E, Ec. }
  assert (fresh : forall s, deref r (char w) = Some s -> Stat.computed s = false)
    by (intros s' Hs'; congruence).
  assert (Htype : forall c s1, keeps (char w) c -> deref r c = Some s1 ->
                  evolves s s1).
  { intros c s1 (_ & _ & _ & _ & _ & K) Hs1.
    destruct (K _ _ E) as (s' & Hs' & He & _). congruence. }
  pose (I := fun c => keeps (char w) c /\ all_neutral c).
  pose (I2 := fun c => I c /\ forall s1, deref r c = Some s1 ->
                Stat.type s1 = damageMultiplier -> Stat.result s1 = VNum (num 1)).
  eapply post_weaken.
  - apply (computeStat_body_passes math_eval num_to_str str_to_num rec I)
      with (ty := Stat.type s) (I2 := I2) (s := s); auto.
    + intros o' w1 [K N]. apply post_and.
      * eapply post_weaken; [apply Hkeeps |].
        intros ? w' Hw'. simpl in Hw'. eapply keeps_trans; eassumption.
      * now apply Hrec.
    + intros c s1 [K _] Hs1. apply (Htype c s1 K Hs1).
    + intros c s1 s2 [K N] Hs1 Hq. split.
      * destruct Hq as (He & _). eapply keeps_store; eauto.
      * apply all_neutral_store; auto.
        eapply neutral_quiet; [exact (N _ _ Hs1) | exact Hq].
    + intros c s1 v [K N] Hs1.
      pose proof (Htype c s1 K Hs1) as (Ht & _).
      assert (Hn : neutral (combined num_to_str str_to_num (Stat.type s) v s1)
                   /\ (Stat.type s1 = damageMultiplier ->
                       Stat.result (combined num_to_str str_to_num (Stat.type s) v s1)
                       = VNum (num 1))).
      { rewrite <- Ht. destruct (Stat.type s1) eqn:Et; simpl.
        - split; [| discriminate]. apply neutral_other.
          destruct (evolves_combineAttribute num_to_str str_to_num s1) as (-> & _).
          congruence.
        - split; [| discriminate]. apply neutral_other.
          destruct s1; simpl in *; congruence.
        - rewrite (neutral_combined s1 (N _ _ Hs1) Et). split.
          + intros _. destruct (N _ _ Hs1 Et) as (? & ? & ? & ? & ?).
            destruct s1; simpl in *. auto.
          + intros _. now destruct s1. }
      destruct Hn as [Hn Hres].
      split; [split |].
      * eapply keeps_store; eauto using evolves_combined.
      * now apply all_neutral_store.
      * intros s2 Hs2 Ht2. rewrite deref_store_same in Hs2. injection Hs2 as <-.
        apply Hres. rewrite <- Ht2.
        symmetry. apply (evolves_combined num_to_str str_to_num (Stat.type s) v s1).
    + intros c s1 [[K N] Hres] Hs1. split.
      * eapply keeps_store; eauto using evolves_mark_computed.
      * apply all_neutral_store; auto. intros Ht.
        assert (Ht1 : Stat.type s1 = damageMultiplier) by (now destruct s1).
        destruct (N _ _ Hs1 Ht1) as (? & ? & ? & ? & _).
        pose proof (Hres _ Hs1 Ht1). destruct s1; simpl in *. auto.
    + intros c s1 [K N] Hs1 Hb. split.
      * eapply keeps_store; eauto using evolves_mark_NaN.
      * apply all_neutral_store; auto. intros Ht.
        assert (Ht1 : Stat.type s1 = damageMultiplier) by (now destruct s1).
        destruct (N _ _ Hs1 Ht1) as (_ & _ & _ & Hb' & _). congruence.
    + split; [apply keeps_refl | exact Hw].
  - intros ? w' [_ N]. exact N.
Qed.

Lemma computeStat_neutral (fuel : nat) (o : option sref) (w : world) :
  all_neutral (char w) ->
  post (computeStat math_eval num_to_str str_to_num fuel o) w
       (fun _ w' => all_neutral (char w')).
Proof.
  revert o w. induction fuel as [| fuel IH]; intros o w Hw; [exact Logic.I |].
  simpl. apply computeStat_body_neutral; auto.
  intros o' w1. apply computeStat_keeps.
Qed.

Lemma compute_each_neutral (fuel : nat) (ref : string -> sref) (names : list string) :
  forall w w',
  compute_each math_eval num_to_str str_to_num fuel ref names w = Ok tt w' ->
  all_neutral (char w) -> all_neutral (char w').
Proof.
  induction names as [| name names IH]; intros w w' H Hw; simpl in H.
  - now injection H as <-.
  - apply bind_Ok in H. destruct H as ([] & w1 & H1 & H2).
    apply bind_Ok in H1. destruct H1 as (o & w0 & Ho & H1).
    assert (w0 = w) as ->.
    { unfold object in Ho. destruct (deref (ref name) (char w));
        now injection Ho as _ <-. }
    pose proof (computeStat_neutral fuel o w Hw) as N.
    unfold post in N. rewrite H1 in N. eapply IH; eassumption.
Qed.

End Neutral.

Lemma built_stat (docs : Raw.documents) (c : character) (r : sref) (s : Stat.t) :
  buildCharacter docs = inr c -> deref r c = Some s ->
  exists s0, deref r (skeleton docs) = Some s0
             /\ s = Stat.set_effects
                      (Stat.effects s0
                       ++ map stored
                            (filter (targets r (skeleton docs))
                               (filter Raw.effect_enabled (Raw.Effects docs))))
                      s0.
Proof.
  intros H Hs. apply built_from_skeleton in H. subst c.
  destruct (deref r (skeleton docs)) as [s0 |] eqn:E.
  - exists s0. split; [reflexivity |].
    rewrite (effects_attached r _ _ _ E) in Hs. now injection Hs as <-.
  - rewrite (effects_attached_none r _ _ E) in Hs. discriminate.
Qed.

Lemma skeleton_stat (docs : Raw.documents) (r : sref) (s0 : Stat.t) :
  deref r (skeleton docs) = Some s0 ->
  match r with
  | InAtts _ => exists a, s0 = new_attribute a
  | InSkills _ => exists s, s0 = new_skill s
  | InDms _ => s0 = new_damageMultiplier
  end.
Proof.
  destruct r as [n | n | n]; simpl.
  - rewrite skeleton_atts. destruct (first_attribute n docs); [| discriminate].
    intros [= <-]. eauto.
  - rewrite skeleton_skills. destruct (first_skill n docs); [| discriminate].
    intros [= <-]. eauto.
  - rewrite skeleton_dms. destruct (first_damageMultiplier n docs); [| discriminate].
    now intros [= <-].
Qed.

Lemma built_neutral (docs : Raw.documents) (c : character) :
  buildCharacter docs = inr c -> all_neutral c.
Proof.
  intros H r s Hs.
  destruct (built_stat docs c r s H Hs) as (s0 & Hs0 & ->).
  apply skeleton_stat in Hs0.
  destruct r as [n | n | n].
  - destruct Hs0 as (a & ->). apply neutral_other. discriminate.
  - destruct Hs0 as (a & ->). apply neutral_other. discriminate.
  - subst s0. intros _. cbn. repeat split; auto. discriminate.
Qed.

Section DamageMultipliers.
Variable math_eval : string -> option value.
Variable num_to_str : jsnum -> string.
Variable str_to_num : string -> jsnum.

(** X16. For documents whose names, abilities and formulas reach no
    inherited key: every damage multiplier of a character that
    [buildCharacter] made and [computeCharacter] returns has result 1,
    whatever effects it
    has: no statement of the engine changes the immunity, resistance and
    vulnerability counts. *)
Theorem damage_multipliers_are_always_1
  (docs : Raw.documents) (c c' : character) (fuel i : nat) (w' : world)
  (name : string) (s : Stat.t) :
  ordinary_documents docs = true ->
  buildCharacter docs = inr c ->
  computeCharacter math_eval num_to_str str_to_num fuel (mkWorld c i) = Ok c' w' ->
  lookup name (dms c') = Some s ->
  Stat.result s = VNum (num 1).
Proof.
  intros _ Hbuilt H Hs.
  pose proof (built_neutral docs c Hbuilt) as N0.
  unfold computeCharacter, get_char in H.
  apply bind_Ok in H. destruct H as (c0 & w0 & [= <- <-] & H).
  apply bind_Ok in H. destruct H as ([] & w1 & H1 & H).
  apply bind_Ok in H. destruct H as (c1 & w1' & [= <- <-] & H).
  apply bind_Ok in H. destruct H as ([] & w2 & H2 & H).
  apply bind_Ok in H. destruct H as (c2 & w2' & [= <- <-] & H).
  apply bind_Ok in H. destruct H as ([] & w3 & H3 & [= <- <-]).
  pose proof (compute_each_neutral _ _ _ _ _ _ _ _ H1 N0) as N1.
  pose proof (compute_each_neutral _ _ _ _ _ _ _ _ H2 N1) as N2.
  pose proof (compute_each_neutral _ _ _ _ _ _ _ _ H3 N2) as N3.
  apply compute_each_computes in H1. destruct H1 as (K1 & _).
  apply compute_each_computes in H2. destruct H2 as (K2 & _).
  apply compute_each_computes in H3. destruct H3 as (K3 & C3).
  pose proof (keeps_trans _ _ _ (keeps_trans _ _ _ K1 K2) K3) as K.
  simpl in K.
  pose proof K as (_ & _ & KD & _ & _ & Kstat).
  pose proof K3 as (_ & _ & KD3 & _ & _ & _).
  pose proof (lookup_in_keys _ _ _ Hs) as Hin.
  assert (Hc : Stat.computed s = true).
  { rewrite KD3 in Hin. destruct (C3 name Hin) as (s' & Hs' & Hc).
    simpl in Hs'. congruence. }
  assert (Ht : Stat.type s = damageMultiplier).
  { rewrite KD in Hin. apply keys_defined in Hin. destruct Hin as (s0 & Hs0).
    destruct (Kstat (InDms name) s0 Hs0) as (s' & Hs' & (Ht & _) & _).
    simpl in Hs'. assert (s' = s) by congruence. subst s'.
    destruct (built_stat docs c (InDms name) s0 Hbuilt Hs0) as (s1 & Hs1 & ->).
    apply skeleton_stat in Hs1. subst s1. exact Ht. }
  destruct (N3 (InDms name) s Hs Ht) as (_ & _ & _ & _ & Hres). now apply Hres.
Qed.

End DamageMultipliers.

Lemma damage_multipliers_are_always_1_witness :
  Stat.result (stat_of (InDms "fire") computed_plain_world) = VNum (num 1).
Proof.
  apply (damage_multipliers_are_always_1
           Runtime.math_eval Runtime.num_to_str Runtime.str_to_num
           plain_documents (built plain_documents) (char computed_plain_world)
           2 0 computed_plain_world "fire").
  - reflexivity.
  - reflexivity.
  - vm_compute. reflexivity.
  - vm_compute. reflexivity.
Defined.

(** ** Effects that need no formula *)

Lemma list_set_middle {A : Type} (done todo : list A) (x y : A) :
  list_set (List.length done) y (done ++ x :: todo) = (done ++ y :: todo)%list.
Proof. induction done as [| d done IH]; simpl; [reflexivity | now rewrite IH]. Qed.

Lemma nth_error_middle {A : Type} (done todo : list A) (x : A) :
  nth_error (done ++ x :: todo) (List.length done) = Some x.
Proof. induction done as [| d done IH]; simpl; auto. Qed.

Lemma set_effects_twice (l1 l2 : list Effect.t) (s : Stat.t) :
  Stat.set_effects l2 (Stat.set_effects l1 s) = Stat.set_effects l2 s.
Proof. now destruct s. Qed.

Lemma effects_set_effects (l : list Effect.t) (s : Stat.t) :
  Stat.effects (Stat.set_effects l s) = l.
Proof. now destruct s. Qed.

Lemma mutate_Ok (r : sref) (f : Stat.t -> Stat.t) (c : character) (i : nat) (s : Stat.t) :
  deref r c = Some s ->
  mutate r f (mkWorld c i) = Ok tt (mkWorld (store r (f s) c) i).
Proof. intros H. unfold mutate. simpl. now rewrite H. Qed.

Lemma mutate_effect_Ok (r : sref) (f : Effect.t -> Effect.t) (c : character) (i : nat)
  (s : Stat.t) (done todo : list Effect.t) (e : Effect.t) :
  deref r c = Some s -> Stat.effects s = (done ++ e :: todo)%list ->
  mutate_effect r (List.length done) f (mkWorld c i)
  = Ok tt (mkWorld (store r (Stat.set_effects (done ++ f e :: todo) s) c) i).
Proof.
  intros Hs He. unfold mutate_effect. rewrite (mutate_Ok _ _ _ _ _ Hs).
  now rewrite He, nth_error_middle, list_set_middle.
Qed.

Section Plain.
Variable math_eval : string -> option value.
Variable num_to_str : jsnum -> string.
Variable str_to_num : string -> jsnum.
Variable rec : option sref -> M unit.
Variable r : sref.

Local Abbreviation applied' := (applied num_to_str str_to_num).
Local Abbreviation accumulate' := (accumulate num_to_str str_to_num).

Lemma applyEffect_applied (e : Effect.t) (s : Stat.t) :
  applyEffect num_to_str str_to_num e s = inr (applied' e s)
  /\ Stat.effects (applied' e s) = Stat.effects s.
Proof.
  unfold applied.
  destruct (applyEffect_same_but_accumulators num_to_str str_to_num e s)
    as (s' & -> & H).
  split; [reflexivity |]. unfold same_but_accumulators in H. tauto.
Qed.

Lemma applyEffect_set_effects (e : Effect.t) (l : list Effect.t) (s : Stat.t) :
  applyEffect num_to_str str_to_num e (Stat.set_effects l s)
  = match applyEffect num_to_str str_to_num e s with
    | inr s' => inr (Stat.set_effects l s')
    | inl x => inl x
    end.
Proof.
  destruct s as [ty ? ? ? ? ? ? ? ? ? ? ? ? ? ? ? ? ? ? ? ? ? ? ?].
  unfold applyEffect, applyEffect_first, applyEffect_min, applyEffect_last, and_then.
  destruct ty; cbn;
    repeat match goal with
           | |- context [String.eqb ?a ?b] => destruct (String.eqb a b) eqn:?; cbn
           end; reflexivity.
Qed.

Lemma applied_set_effects (e : Effect.t) (l : list Effect.t) (s : Stat.t) :
  applied' e (Stat.set_effects l s) = Stat.set_effects l (applied' e s).
Proof.
  unfold applied. rewrite applyEffect_set_effects.
  now destruct (applyEffect num_to_str str_to_num e s).
Qed.

Lemma accumulate_set_effects (es l : list Effect.t) (s : Stat.t) :
  accumulate' es (Stat.set_effects l s) = Stat.set_effects l (accumulate' es s).
Proof.
  revert s. induction es as [| e es IH]; intros s; simpl; [reflexivity |].
  now rewrite applied_set_effects, IH.
Qed.

(** [computeEffect] on an effect that needs no formula. *)
Lemma computeEffect_plain (c : character) (i : nat) (s : Stat.t)
  (done todo : list Effect.t) (e : Effect.t) :
  deref r c = Some s -> Stat.effects s = (done ++ e :: todo)%list ->
  needs_no_formula e = true ->
  computeEffect math_eval num_to_str rec (Some (r, List.length done)) (mkWorld c i)
  = Ok tt (mkWorld (store r (Stat.set_effects (done ++ settle e :: todo) s) c) i).
Proof.
  intros Hs He Hplain.
  assert (Hread : read_effect (Some (r, List.length done)) (mkWorld c i)
                  = Ok e (mkWorld c i)).
  { unfold read_effect. simpl. now rewrite Hs, He, nth_error_middle. }
  unfold computeEffect. unfold bind at 1. rewrite Hread. unfold settle.
  destruct (Effect.computed e) eqn:Ec.
  { unfold ret. rewrite <- He, set_effects_same. now rewrite (store_same r s c Hs). }
  assert (Hstep : forall v,
    (mutate_effect r (List.length done) (Effect.set_result v) ;;;
     mutate_effect r (List.length done) (Effect.set_computed true)) (mkWorld c i)
    = Ok tt (mkWorld (store r (Stat.set_effects
                         (done ++ Effect.set_computed true (Effect.set_result v e) :: todo)
                         s) c) i)).
  { intros v. unfold bind.
    rewrite (mutate_effect_Ok r _ c i s done todo e Hs He).
    erewrite mutate_effect_Ok;
      [| apply deref_store_same | apply effects_set_effects].
    now rewrite store_store, set_effects_twice. }
  unfold needs_no_formula, formula_of, plain in Hplain.
  destruct (Effect.value e) as [[q | | |] |]; try apply Hstep;
    (destruct (String.eqb (Effect.operation e) "conditional"); [apply Hstep |]);
    (destruct (existsb _ _); [apply Hstep |]);
    (destruct (Effect.calculation e); [discriminate |]);
    unfold bind, ret;
    apply (mutate_effect_Ok r _ c i s done todo e Hs He).
Qed.

Lemma effect_step_plain (c : character) (i : nat) (s : Stat.t)
  (done todo : list Effect.t) (e : Effect.t) :
  deref r c = Some s -> Stat.effects s = (done ++ e :: todo)%list ->
  needs_no_formula e = true ->
  effect_step math_eval num_to_str str_to_num rec r (List.length done) (mkWorld c i)
  = Ok tt (mkWorld
             (store r (Stat.set_effects (done ++ settle e :: todo)
                         (applied' (settle e) s)) c)
             (List.length done)).
Proof.
  intros Hs He Hplain. unfold effect_step.
  unfold bind at 1, set_i. simpl.
  unfold bind at 1, get_i. simpl.
  assert (Hat : forall c' s' x,
            deref r c' = Some s' -> Stat.effects s' = (done ++ x :: todo)%list ->
            effect_at r (List.length done) (mkWorld c' (List.length done))
            = Ok (Some (r, List.length done)) (mkWorld c' (List.length done))).
  { intros c' s' x Hs' He'. unfold effect_at. simpl.
    now rewrite Hs', He', nth_error_middle. }
  unfold bind at 1. rewrite (Hat c s e Hs He).
  unfold bind at 1. rewrite (computeEffect_plain c _ s done todo e Hs He Hplain).
  unfold bind at 1, get_i. simpl.
  set (s1 := Stat.set_effects (done ++ settle e :: todo) s).
  assert (Hs1 : deref r (store r s1 c) = Some s1) by apply deref_store_same.
  assert (He1 : Stat.effects s1 = (done ++ settle e :: todo)%list)
    by apply effects_set_effects.
  unfold bind at 1. rewrite (Hat _ s1 (settle e) Hs1 He1).
  unfold applyEffect_to. unfold bind at 1, read_effect. simpl.
  rewrite Hs1, He1, nth_error_middle.
  unfold bind at 1, read. simpl. rewrite Hs1.
  destruct (applyEffect_applied (settle e) s1) as [-> _].
  rewrite (mutate_Ok r _ _ _ s1 Hs1). rewrite store_store.
  subst s1. now rewrite applied_set_effects.
Qed.

Lemma effects_loop_plain (todo : list Effect.t) :
  forall (done : list Effect.t) (s : Stat.t) (c : character) (i : nat),
  deref r c = Some s -> Stat.effects s = (done ++ todo)%list ->
  forallb needs_no_formula todo = true ->
  exists i',
    for_in (List.length todo) (List.length done)
           (effect_step math_eval num_to_str str_to_num rec r) (mkWorld c i)
    = Ok tt (mkWorld
               (store r (Stat.set_effects (done ++ map settle todo)
                           (accumulate' (map settle todo) s)) c)
               i').
Proof.
  induction todo as [| e todo IH]; intros done s c i Hs He Hplain.
  - exists i. simpl. unfold ret. rewrite <- He, set_effects_same.
    now rewrite (store_same r s c Hs).
  - simpl in Hplain. apply andb_true_iff in Hplain. destruct Hplain as [Hp Hrest].
    set (s2 := Stat.set_effects (done ++ settle e :: todo) (applied' (settle e) s)).
    destruct (IH (done ++ [settle e])%list s2 (store r s2 c) (List.length done))
      as [i' Hloop]; auto.
    { apply deref_store_same. }
    { subst s2. rewrite effects_set_effects, <- app_assoc. reflexivity. }
    exists i'. simpl for_in. unfold bind at 1.
    rewrite (effect_step_plain c i s done todo e Hs He Hp).
    fold s2. rewrite length_app, Nat.add_1_r in Hloop. rewrite Hloop.
    rewrite store_store. subst s2.
    rewrite accumulate_set_effects, set_effects_twice, <- app_assoc.
    reflexivity.
Qed.

End Plain.

Lemma formula_of_settle (e : Effect.t) : formula_of (settle e) = formula_of e.
Proof.
  unfold settle. destruct (Effect.computed e); [reflexivity |].
  destruct (Effect.value e) as [[q | | |] |] eqn:Ev; try (destruct e; reflexivity);
    (destruct (String.eqb (Effect.operation e) "conditional");
     [destruct e; reflexivity |]);
    (destruct (existsb _ _); destruct e; reflexivity).
Qed.

Lemma evolves_set_effects (l : list Effect.t) (s : Stat.t) :
  map formula_of l = map formula_of (Stat.effects s) ->
  evolves s (Stat.set_effects l s).
Proof. intros H. destruct s; unfold evolves; cbn in *. repeat split; auto. Qed.

Lemma plain_formulas (l : list Effect.t) :
  forallb needs_no_formula l = forallb plain (map formula_of l).
Proof. induction l as [| e l IH]; simpl; [reflexivity | now rewrite IH]. Qed.

Lemma defined_keys {A B : Type} (k : string) (m : list (string * A))
  (m' : list (string * B)) :
  map fst m = map fst m' -> defined k m = defined k m'.
Proof.
  unfold defined. revert m'.
  induction m as [| [k1 v1] m IH]; intros [| [k2 v2] m']; simpl;
    try discriminate; auto.
  intros [= -> H]. destruct (String.eqb k k2); auto.
Qed.

Lemma deref_keys (r : sref) (c c' : character) (s' : Stat.t) :
  map fst (atts c') = map fst (atts c) ->
  map fst (skills c') = map fst (skills c) ->
  map fst (dms c') = map fst (dms c) ->
  deref r c' = Some s' -> exists s, deref r c = Some s.
Proof.
  intros Ha Hs Hd H.
  destruct r as [n | n | n]; simpl in *; apply lookup_in_keys in H;
    [rewrite Ha in H | rewrite Hs in H | rewrite Hd in H];
    now apply keys_defined in H.
Qed.

Lemma keeps_back (c c' : character) (r : sref) (s' : Stat.t) :
  keeps c c' -> deref r c' = Some s' ->
  exists s, deref r c = Some s /\ evolves s s'.
Proof.
  intros (Ha & Hs & Hd & _ & _ & K) H.
  destruct (deref_keys r c c' s' Ha Hs Hd H) as (s & E).
  destruct (K r s E) as (s'' & E' & He & _).
  exists s. split; [assumption | congruence].
Qed.

Lemma formula_free_keeps (c c' : character) :
  keeps c c' -> formula_free c -> formula_free c'.
Proof.
  intros K (Hplain & Hbonus & Hatts). split; [| split].
  - intros r s' H. destruct (keeps_back c c' r s' K H) as (s & E & He).
    destruct He as (_ & _ & _ & _ & _ & _ & _ & _ & Hf & _).
    rewrite plain_formulas, Hf, <- plain_formulas. eapply Hplain, E.
  - destruct K as (_ & Hs & _). now rewrite (defined_keys _ _ _ Hs).
  - intros n s' H. destruct (keeps_back c c' (InAtts n) s' K H) as (s & E & He).
    destruct He as (-> & _). eapply Hatts, E.
Qed.

Lemma defined_skills_store (k : string) (r : sref) (s s0 : Stat.t) (c : character) :
  deref r c = Some s0 ->
  defined k (skills (store r s c)) = defined k (skills c).
Proof.
  intros H. apply defined_keys. now apply (keys_store r s s0 c H).
Qed.

Lemma formula_free_store (c : character) (r : sref) (s s' : Stat.t) :
  formula_free c -> deref r c = Some s -> evolves s s' ->
  formula_free (store r s' c).
Proof.
  intros (Hplain & Hbonus & Hatts) Hs He. split; [| split].
  - intros r' x H. destruct (sref_eq_dec r' r) as [-> | Hne].
    + rewrite deref_store_same in H. injection H as <-.
      destruct He as (_ & _ & _ & _ & _ & _ & _ & _ & Hf & _).
      rewrite plain_formulas, Hf, <- plain_formulas. eapply Hplain, Hs.
    + rewrite deref_store_other in H by assumption. eapply Hplain, H.
  - now rewrite (defined_skills_store _ r s' s c Hs).
  - intros n x H. change (deref (InAtts n) (store r s' c) = Some x) in H.
    destruct (sref_eq_dec (InAtts n) r) as [<- | Hne].
    + rewrite deref_store_same in H. injection H as <-.
      destruct He as (-> & _). exact (Hatts n s Hs).
    + rewrite (deref_store_other r (InAtts n)) in H by assumption.
      exact (Hatts n x H).
Qed.

Section WithoutFormulas.
Variable math_eval : string -> option value.
Variable num_to_str : jsnum -> string.
Variable str_to_num : string -> jsnum.

Local Abbreviation computeStat' := (computeStat math_eval num_to_str str_to_num).
Local Abbreviation accumulate' := (accumulate num_to_str str_to_num).

Lemma evolves_accumulate (es : list Effect.t) (s : Stat.t) :
  evolves s (accumulate' es s).
Proof.
  revert s. induction es as [| e es IH]; intros s; simpl; [apply evolves_refl |].
  eapply evolves_trans; [| apply IH].
  unfold applied.
  destruct (applyEffect_same_but_accumulators num_to_str str_to_num e s)
    as (s' & -> & H).
  now apply evolves_accumulators.
Qed.

Lemma evolves_settled (s : Stat.t) :
  evolves s (Stat.set_effects (map settle (Stat.effects s))
               (accumulate' (map settle (Stat.effects s)) s)).
Proof.
  eapply evolves_trans; [apply evolves_accumulate |].
  apply evolves_set_effects.
  destruct (evolves_accumulate (map settle (Stat.effects s)) s)
    as (_ & _ & _ & _ & _ & _ & _ & _ & -> & _).
  rewrite map_map. apply map_ext, formula_of_settle.
Qed.

Lemma accumulate_flags (es : list Effect.t) (s : Stat.t) :
  Stat.computed (accumulate' es s) = Stat.computed s
  /\ Stat.type (accumulate' es s) = Stat.type s.
Proof.
  revert s. induction es as [| e es IH]; intros s; simpl; [auto |].
  destruct (IH (applied num_to_str str_to_num e s)) as [-> ->].
  unfold applied.
  destruct (applyEffect_same_but_accumulators num_to_str str_to_num e s)
    as (s' & -> & H).
  unfold same_but_accumulators in H. tauto.
Qed.

Lemma settled_flags (s : Stat.t) :
  let s1 := Stat.set_effects (map settle (Stat.effects s))
              (accumulate' (map settle (Stat.effects s)) s) in
  Stat.computed s1 = Stat.computed s /\ Stat.type s1 = Stat.type s.
Proof.
  cbv zeta.
  destruct (accumulate_flags (map settle (Stat.effects s)) s) as [<- <-].
  now destruct (accumulate' _ s).
Qed.

(** The loop over the effects of a stat none of whose effects needs a
    formula. *)
Lemma effects_loop_without_formula (rec : option sref -> M unit) (r : sref)
  (c : character) (i : nat) (s : Stat.t) :
  deref r c = Some s ->
  forallb needs_no_formula (Stat.effects s) = true ->
  exists i',
    for_in (List.length (Stat.effects s)) 0
      (fun k =>
         set_i k ;;;
         i <- get_i ;;
         e <- effect_at r i ;;
         computeEffect math_eval num_to_str rec e ;;;
         i <- get_i ;;
         e <- effect_at r i ;;
         applyEffect_to num_to_str str_to_num e r) (mkWorld c i)
    = Ok tt (mkWorld
               (store r (Stat.set_effects (map settle (Stat.effects s))
                           (accumulate' (map settle (Stat.effects s)) s)) c)
               i').
Proof.
  intros Hs Hplain.
  exact (effects_loop_plain math_eval num_to_str str_to_num rec r
           (Stat.effects s) [] s c i Hs eq_refl Hplain).
Qed.

Lemma computeStat_body_without_formula (rec : option sref -> M unit) (r : sref)
  (w : world) (s : Stat.t) :
  deref r (char w) = Some s ->
  Stat.computed s = false -> Stat.busyComputing s = false ->
  Stat.type s <> skill ->
  forallb needs_no_formula (Stat.effects s) = true ->
  exists i',
    computeStat_body math_eval num_to_str str_to_num rec (Some r) w
    = Ok tt (mkWorld
               (store r (computed_without_formula num_to_str str_to_num s) (char w))
               i').
Proof.
  destruct w as [c i]. simpl. intros Hs Hc Hb Hty Hplain.
  destruct (effects_loop_without_formula rec r c i s Hs Hplain) as [i' Hloop].
  exists i'. unfold computeStat_body.
  unfold bind at 1, read. simpl. rewrite Hs, Hc, Hb.
  unfold bind at 1. rewrite Hloop.
  set (s1 := Stat.set_effects _ _).
  assert (Hs1 : deref r (store r s1 c) = Some s1) by apply deref_store_same.
  destruct (settled_flags s) as [_ Ht1]. fold s1 in Ht1.
  unfold bind at 1, combineStat, bind at 1, read. simpl. rewrite Hs1.
  unfold computed_without_formula. fold s1. rewrite <- Ht1.
  destruct (Stat.type s1) eqn:Et; [| congruence |]; simpl;
    rewrite (mutate_Ok r _ _ _ s1 Hs1), store_store;
    erewrite mutate_Ok by apply deref_store_same;
    now rewrite store_store.
Qed.

(** X17. For an attribute or a damage multiplier that is not computed yet
    and none of whose effects needs a formula, [computeStat] returns; it
    leaves the stat as the effects applied in order and then combined
    give it, with every effect settled, and changes no other stat. *)
Theorem computeStat_without_formula (fuel : nat) (r : sref) (w : world) (s : Stat.t) :
  deref r (char w) = Some s ->
  Stat.computed s = false -> Stat.busyComputing s = false ->
  Stat.type s <> skill ->
  forallb needs_no_formula (Stat.effects s) = true ->
  exists i',
    computeStat' (S fuel) (Some r) w
    = Ok tt (mkWorld
               (store r (computed_without_formula num_to_str str_to_num s) (char w))
               i').
Proof.
  intros Hs Hc Hb Hty Hplain. simpl.
  now apply computeStat_body_without_formula.
Qed.

End WithoutFormulas.

Lemma computeStat_without_formula_witness :
  exists i',
    computeStat Runtime.math_eval Runtime.num_to_str Runtime.str_to_num 1
      (Some (InAtts "strength")) plain_world
    = Ok tt (mkWorld
               (store (InAtts "strength")
                  (computed_without_formula Runtime.num_to_str Runtime.str_to_num
                     (stat_of (InAtts "strength") plain_world))
                  (char plain_world))
               i').
Proof.
  apply (computeStat_without_formula
           Runtime.math_eval Runtime.num_to_str Runtime.str_to_num
           0 (InAtts "strength") plain_world
           (stat_of (InAtts "strength") plain_world)).
  - reflexivity.
  - reflexivity.
  - reflexivity.
  - discriminate.
  - reflexivity.
Defined.

(** ** Characters without formulas *)

Section Returns.
Variable math_eval : string -> option value.
Variable num_to_str : jsnum -> string.
Variable str_to_num : string -> jsnum.

Local Abbreviation computeStat' := (computeStat math_eval num_to_str str_to_num).
Local Abbreviation accumulate' := (accumulate num_to_str str_to_num).

Section Activation.
Variable rec : option sref -> M unit.

Hypothesis rec_keeps :
  forall o w, post (rec o) w (fun _ w' => keeps (char w) (char w')).
Hypothesis rec_returns :
  forall a w, formula_free (char w) ->
    (exists s, deref (InAtts a) (char w) = Some s) ->
    exists w', rec (Some (InAtts a)) w = Ok tt w'.

Lemma ability_returns (c : character) (i : nat) (ability : option string) :
  formula_free c ->
  exists m w',
    (match ability with
     | Some ability =>
         if negb (String.eqb ability "") && defined ability (atts c)
         then (ensure_computed rec (InAtts ability) ;;;
               a <- read (InAtts ability) ;; ret (Stat.modifier a))%engine
         else ret (num 0)
     | None => ret (num 0)
     end) (mkWorld c i) = Ok m w'
    /\ keeps c (char w').
Proof.
  intros Hfree.
  destruct ability as [ability |];
    [| exists (num 0), (mkWorld c i); split; [reflexivity | apply keeps_refl]].
  destruct (negb (String.eqb ability "") && defined ability (atts c)) eqn:E;
    [| exists (num 0), (mkWorld c i); split; [reflexivity | apply keeps_refl]].
  apply andb_true_iff in E. destruct E as [_ Hdef].
  unfold defined in Hdef.
  destruct (lookup ability (atts c)) as [a |] eqn:Ea; [| discriminate].
  unfold ensure_computed. unfold bind at 1. unfold bind at 1, read. simpl.
  rewrite Ea.
  destruct (Stat.computed a) eqn:Ec; simpl.
  - unfold bind, ret, read. simpl. rewrite Ea.
    eexists _, _. split; [reflexivity | apply keeps_refl].
  - unfold bind at 1, object. simpl. rewrite Ea.
    destruct (rec_returns ability (mkWorld c i) Hfree) as [w' Hw'];
      [simpl; eauto |].
    rewrite Hw'.
    pose proof (rec_keeps (Some (InAtts ability)) (mkWorld c i)) as K.
    unfold post in K. rewrite Hw' in K. simpl in K.
    pose proof K as (_ & _ & _ & _ & _ & Kstat).
    destruct (Kstat (InAtts ability) a Ea) as (a' & Ea' & _).
    simpl in Ea'. unfold bind, read, ret. simpl. rewrite Ea'.
    eexists _, _. split; [reflexivity | exact K].
Qed.

Lemma combineSkill_returns (r : sref) (w : world) (s : Stat.t) :
  formula_free (char w) -> deref r (char w) = Some s ->
  exists w', combineSkill num_to_str str_to_num rec r w = Ok tt w'
             /\ exists s', deref r (char w') = Some s'.
Proof.
  destruct w as [c i]. simpl. intros Hfree Hs.
  destruct (proficiency_loop r (Stat.proficiencies s) [] s c i Hs eq_refl)
    as [i1 Hloop].
  set (s1 := Stat.set_proficiency _ s) in Hloop.
  set (c1 := store r s1 c) in Hloop.
  assert (Hs1 : deref r c1 = Some s1) by apply deref_store_same.
  assert (Hfree1 : formula_free c1).
  { apply (formula_free_store c r s s1 Hfree Hs). apply evolves_set_proficiency. }
  unfold combineSkill.
  unfold bind at 1, read at 1. simpl deref. rewrite Hs.
  unfold bind at 1.
  change (for_in _ 0 _ _) with
    (for_in (List.length (Stat.proficiencies s)) (List.length (@nil Proficiency.t))
            (proficiency_step r) (mkWorld c i)).
  rewrite Hloop.
  unfold bind at 1, get_char at 1. simpl char.
  destruct Hfree1 as (Hplain1 & Hbonus1 & Hatts1).
  rewrite Hbonus1.
  unfold bind at 1, ret at 1.
  unfold bind at 1, read at 1. simpl deref. rewrite Hs1.
  unfold bind at 1, get_char at 1. simpl char.
  destruct (ability_returns c1 i1 (Stat.ability s1)) as (m & w2 & Hability & K);
    [repeat split; assumption |].
  unfold bind at 1. rewrite Hability.
  pose proof K as (_ & _ & _ & _ & _ & Kstat).
  destruct (Kstat r s1 Hs1) as (s2 & Hs2 & _).
  unfold bind at 1, read at 1. rewrite Hs2.
  unfold mutate. rewrite Hs2.
  eexists. split; [reflexivity |]. simpl. rewrite deref_store_same. eauto.
Qed.

Lemma computeStat_body_returns (r : sref) (w : world) (s : Stat.t) :
  formula_free (char w) -> deref r (char w) = Some s ->
  exists w', computeStat_body math_eval num_to_str str_to_num rec (Some r) w
             = Ok tt w'.
Proof.
  destruct w as [c i]. simpl. intros Hfree Hs.
  unfold computeStat_body. unfold bind at 1, read. simpl. rewrite Hs.
  destruct (Stat.computed s) eqn:Ec; [eexists; reflexivity |].
  destruct (Stat.busyComputing s) eqn:Eb.
  { rewrite (mutate_Ok r _ c i s Hs). eauto. }
  pose proof Hfree as (Hplain & _ & _).
  destruct (effects_loop_without_formula math_eval num_to_str str_to_num
              rec r c i s Hs (Hplain r s Hs)) as [i1 Hloop].
  unfold bind at 1. rewrite Hloop.
  set (s1 := Stat.set_effects _ _).
  assert (Hs1 : deref r (store r s1 c) = Some s1) by apply deref_store_same.
  assert (Hfree1 : formula_free (store r s1 c)).
  { apply (formula_free_store c r s s1 Hfree Hs). apply evolves_settled. }
  assert (Hcombine : exists w2,
            combineStat num_to_str str_to_num rec r (mkWorld (store r s1 c) i1)
            = Ok tt w2 /\ exists s2, deref r (char w2) = Some s2).
  { unfold combineStat. unfold bind at 1, read. simpl. rewrite Hs1.
    destruct (Stat.type s1).
    - rewrite (mutate_Ok r _ _ _ s1 Hs1). eexists. split; [reflexivity |].
      simpl. rewrite deref_store_same. eauto.
    - apply (combineSkill_returns r (mkWorld (store r s1 c) i1) s1 Hfree1 Hs1).
    - rewrite (mutate_Ok r _ _ _ s1 Hs1). eexists. split; [reflexivity |].
      simpl. rewrite deref_store_same. eauto. }
  destruct Hcombine as ([c2 i2] & Hcombine & s2 & Hs2).
  unfold bind at 1. rewrite Hcombine. simpl in Hs2.
  rewrite (mutate_Ok r _ c2 i2 s2 Hs2). eauto.
Qed.

End Activation.

Lemma computeStat_returns_on_attribute (fuel : nat) (a : string) (w : world) :
  formula_free (char w) ->
  (exists s, deref (InAtts a) (char w) = Some s) ->
  exists w', computeStat' (S fuel) (Some (InAtts a)) w = Ok tt w'.
Proof.
  destruct w as [c i]. simpl. intros Hfree (s & Hs).
  pose proof Hfree as (Hplain & _ & Hatts).
  unfold computeStat_body. unfold bind at 1, read. simpl. rewrite Hs.
  destruct (Stat.computed s) eqn:Ec; [eexists; reflexivity |].
  destruct (Stat.busyComputing s) eqn:Eb.
  { rewrite (mutate_Ok (InAtts a) _ c i s Hs). eauto. }
  destruct (computeStat_body_without_formula math_eval num_to_str str_to_num
              (computeStat' fuel) (InAtts a) (mkWorld c i) s Hs Ec Eb) as [i' H].
  - rewrite (Hatts a s Hs). discriminate.
  - exact (Hplain (InAtts a) s Hs).
  - unfold computeStat_body in H. unfold bind at 1, read in H. simpl in H.
    rewrite Hs, Ec, Eb in H. eauto.
Qed.

Lemma computeStat_returns (fuel : nat) (r : sref) (w : world) :
  formula_free (char w) ->
  (exists s, deref r (char w) = Some s) ->
  exists w', computeStat' (S (S fuel)) (Some r) w = Ok tt w'.
Proof.
  intros Hfree (s & Hs).
  change (computeStat' (S (S fuel)) (Some r) w)
    with (computeStat_body math_eval num_to_str str_to_num
            (computeStat' (S fuel)) (Some r) w).
  apply (computeStat_body_returns (computeStat' (S fuel))) with (s := s); auto.
  - intros o w1. apply computeStat_keeps.
  - intros a w1. apply computeStat_returns_on_attribute.
Qed.

Lemma compute_each_returns (fuel : nat) (ref : string -> sref) (names : list string) :
  forall w,
  formula_free (char w) ->
  (forall n, In n names -> exists s, deref (ref n) (char w) = Some s) ->
  exists w', compute_each math_eval num_to_str str_to_num (S (S fuel)) ref names w
             = Ok tt w'
             /\ keeps (char w) (char w').
Proof.
  induction names as [| name names IH]; intros w Hfree Hin.
  - exists w. split; [reflexivity | apply keeps_refl].
  - destruct (Hin name (or_introl eq_refl)) as (s & Hs).
    destruct (computeStat_returns fuel (ref name) w Hfree) as [w1 H1]; [eauto |].
    pose proof (computeStat_keeps math_eval num_to_str str_to_num
                  (S (S fuel)) (Some (ref name)) w) as K1.
    unfold post in K1. rewrite H1 in K1.
    destruct (IH w1) as (w' & H' & K').
    + eapply formula_free_keeps; eassumption.
    + intros n Hn. destruct (Hin n (or_intror Hn)) as (x & Hx).
      destruct K1 as (_ & _ & _ & _ & _ & Kstat).
      destruct (Kstat _ _ Hx) as (x' & Hx' & _). eauto.
    + exists w'. split; [| eapply keeps_trans; eassumption].
      change (compute_each math_eval num_to_str str_to_num (S (S fuel)) ref
                (name :: names))
        with ((o <- object (ref name) ;; computeStat' (S (S fuel)) o) ;;;
              compute_each math_eval num_to_str str_to_num (S (S fuel)) ref names).
      unfold bind at 1. unfold bind at 1, object. rewrite Hs.
      rewrite H1. exact H'.
Qed.

Lemma computeCharacter_returns (fuel : nat) (w : world) :
  formula_free (char w) ->
  exists w',
    computeCharacter math_eval num_to_str str_to_num (S (S fuel)) w
    = Ok (char w') w'.
Proof.
  intros Hfree. unfold computeCharacter.
  destruct (compute_each_returns fuel InAtts (map fst (atts (char w))) w Hfree)
    as (w1 & H1 & K1).
  { intros n Hn. now apply keys_defined in Hn. }
  pose proof (formula_free_keeps _ _ K1 Hfree) as Hfree1.
  destruct (compute_each_returns fuel InSkills (map fst (skills (char w1))) w1 Hfree1)
    as (w2 & H2 & K2).
  { intros n Hn. now apply keys_defined in Hn. }
  pose proof (formula_free_keeps _ _ K2 Hfree1) as Hfree2.
  destruct (compute_each_returns fuel InDms (map fst (dms (char w2))) w2 Hfree2)
    as (w3 & H3 & K3).
  { intros n Hn. now apply keys_defined in Hn. }
  exists w3.
  unfold bind at 1, get_char at 1. unfold bind at 1. rewrite H1.
  unfold bind at 1, get_char at 1. unfold bind at 1. rewrite H2.
  unfold bind at 1, get_char at 1. unfold bind at 1. rewrite H3.
  reflexivity.
Qed.

End Returns.

Lemma built_formula_free (docs : Raw.documents) (c : character) :
  buildCharacter docs = inr c ->
  (forall e, In e (Raw.Effects docs) -> Raw.effect_enabled e = true ->
     plain (Raw.effect_operation e, Raw.effect_value e, Raw.effect_calculation e)
     = true) ->
  first_skill "proificiencyBonus" docs = None ->
  formula_free c.
Proof.
  intros Hbuilt Hplain Hbonus. split; [| split].
  - intros r s Hs.
    destruct (built_stat docs c r s Hbuilt Hs) as (s0 & Hs0 & ->).
    rewrite effects_set_effects.
    assert (E0 : Stat.effects s0 = []).
    { apply skeleton_stat in Hs0. destruct r.
      - now destruct Hs0 as (a & ->).
      - now destruct Hs0 as (a & ->).
      - now subst s0. }
    rewrite E0. simpl. apply forallb_forall. intros e He.
    apply in_map_iff in He. destruct He as (x & <- & Hx).
    apply filter_In in Hx. destruct Hx as [Hx _].
    apply filter_In in Hx. destruct Hx as [Hx Hen].
    exact (Hplain x Hx Hen).
  - apply built_from_skeleton in Hbuilt. subst c.
    apply defined_false_lookup.
    apply (effects_attached_none (InSkills "proificiencyBonus")).
    simpl. now rewrite skeleton_skills, Hbonus.
  - intros n s Hs.
    destruct (built_stat docs c (InAtts n) s Hbuilt Hs) as (s0 & Hs0 & ->).
    apply skeleton_stat in Hs0. destruct Hs0 as (a & ->). reflexivity.
Qed.

Section Total.
Variable math_eval : string -> option value.
Variable num_to_str : jsnum -> string.
Variable str_to_num : string -> jsnum.

(** X18. A character none of whose enabled effects needs a formula, with
    no skill called "proificiencyBonus" and no name or ability that is an
    inherited key, is always computed:
    [computeCharacter] returns, without an exception, and no stat needs
    more than two nested activations of [computeStat]. *)
Theorem character_without_formulas_is_computed
  (docs : Raw.documents) (c : character) (fuel i : nat) :
  ordinary_documents docs = true ->
  buildCharacter docs = inr c ->
  (forall e, In e (Raw.Effects docs) -> Raw.effect_enabled e = true ->
     plain (Raw.effect_operation e, Raw.effect_value e, Raw.effect_calculation e)
     = true) ->
  first_skill "proificiencyBonus" docs = None ->
  exists w',
    computeCharacter math_eval num_to_str str_to_num (S (S fuel)) (mkWorld c i)
    = Ok (char w') w'.
Proof.
  intros _ Hbuilt Hplain Hbonus.
  apply computeCharacter_returns. simpl.
  now apply (built_formula_free docs).
Qed.

End Total.

Lemma character_without_formulas_is_computed_witness :
  exists w',
    computeCharacter Runtime.math_eval Runtime.num_to_str Runtime.str_to_num
      2 (mkWorld (built plain_documents) 0)
    = Ok (char w') w'.
Proof.
  apply (character_without_formulas_is_computed
           Runtime.math_eval Runtime.num_to_str Runtime.str_to_num
           plain_documents (built plain_documents) 0 0).
  - reflexivity.
  - reflexivity.
  - intros e Hin Hen. simpl in Hin.
    destruct Hin as [<- | [<- | [<- | [<- | [<- | []]]]]];
      try reflexivity; discriminate Hen.
  - reflexivity.
Defined.

(** ** recomputeCharacterWeightCarried *)

Lemma filter_reparent (f : Inventory.item -> string) (charId : string)
  (items : list Inventory.item) :
  filter (fun i => String.eqb (Inventory.item_charId i) charId) (reparent f items)
  = reparent f (filter (fun i => String.eqb (Inventory.item_charId i) charId) items).
Proof.
  unfold reparent. induction items as [| i items IH]; simpl; [reflexivity |].
  destruct (String.eqb (Inventory.item_charId i) charId); simpl; now rewrite IH.
Qed.

Lemma add_items_reparent (f : Inventory.item -> string) (parent : global_parent)
  (charId : string) (carried : list string) (items : list Inventory.item) :
  forall w,
  add_items parent charId carried (reparent f items) w
  = add_items parent charId carried items w.
Proof.
  unfold reparent. induction items as [| i items IH]; intros w; simpl; [reflexivity |].
  destruct parent as [| id]; [reflexivity |]. apply IH.
Qed.

(** X19. The parent of an item is never consulted: with the same
    containers and the same items under any other parents, the method does
    the same. *)
Theorem item_parents_are_never_consulted
  (f : Inventory.item -> string) (canEditCharacter : bool) (parent : global_parent)
  (charId : string) (Containers : list Inventory.container)
  (Items : list Inventory.item) :
  recomputeCharacterWeightCarried canEditCharacter parent charId Containers
    (reparent f Items)
  = recomputeCharacterWeightCarried canEditCharacter parent charId Containers Items.
Proof.
  unfold recomputeCharacterWeightCarried.
  destruct (negb canEditCharacter); [reflexivity |]. cbv zeta.
  now rewrite filter_reparent, add_items_reparent.
Qed.

Lemma add_items_nothing (charId : string) (carried : list string)
  (items : list Inventory.item) (id : option string) :
  match id with Some s => String.eqb s charId | None => false end = false ->
  is_carried carried id = false ->
  forall w, add_items (Bound id) charId carried items w = inr w.
Proof.
  intros H1 H2. induction items as [| i items IH]; intros w; simpl; [reflexivity |].
  rewrite H1, H2. apply IH.
Qed.

Lemma fold_left_map {A B C : Type} (f : A -> B -> A) (g : C -> B) (l : list C) :
  forall a, fold_left (fun x c => f x (g c)) l a = fold_left f (map g l) a.
Proof. induction l as [| c l IH]; intros a; simpl; auto. Qed.

(** Where the name [parent] is unbound, the method throws a
    ReferenceError as soon as the character has an item, and writes
    nothing; a character without items gets the weight of its carried
    containers. *)
Lemma unbound_parent_throws
  (charId : string) (Containers : list Inventory.container)
  (Items : list Inventory.item) :
  recomputeCharacterWeightCarried true Unbound charId Containers Items
  = match filter (fun i => String.eqb (Inventory.item_charId i) charId) Items with
    | [] => Written (carried_containers_weight charId Containers)
    | _ :: _ => Uncaught (ReferenceError "parent is not defined")
    end.
Proof.
  unfold recomputeCharacterWeightCarried, carried_containers_weight.
  cbv zeta. simpl negb. cbv iota.
  rewrite (fold_left_map jadd Inventory.cont_weight).
  now destruct (filter _ Items).
Qed.

(** X20. Where [parent.id] is neither the character nor a carried
    container, the weight of no item is added, wherever the item is: the
    character gets the weight of its carried containers. *)
Theorem items_add_no_weight
  (id : option string) (charId : string)
  (Containers : list Inventory.container) (Items : list Inventory.item) :
  id <> Some charId ->
  is_carried
    (map Inventory.cont_id
       (filter (fun c => String.eqb (Inventory.cont_charId c) charId
                         && Inventory.cont_isCarried c) Containers))
    id = false ->
  recomputeCharacterWeightCarried true (Bound id) charId Containers Items
  = Written (carried_containers_weight charId Containers).
Proof.
  intros Hne Hcarried.
  unfold recomputeCharacterWeightCarried, carried_containers_weight.
  cbv zeta. simpl negb. cbv iota.
  rewrite (fold_left_map jadd Inventory.cont_weight).
  rewrite add_items_nothing; auto.
  destruct id as [s |]; [| reflexivity].
  apply String.eqb_neq. congruence.
Qed.

Lemma items_add_no_weight_witness :
  recomputeCharacterWeightCarried true (Bound None) "hero"
    example_containers example_items
  = Written (num 6).
Proof.
  apply (items_add_no_weight None "hero" example_containers example_items).
  - discriminate.
  - reflexivity.
Defined.
